(** * Legal-domain RAG system: retrieval, citation markers, chunking

    A shallow embedding of the retrieval-augmented-generation pipeline of
    the legal-domain RAG repository, and the properties its specification
    states about it.

    Part I, the embedding:
    - [Exn], [Py]: exceptions as a [result] monad; Python lists and dicts.
    - [Retriever]: [query_documents] of docs/user-guide/chromadbGuide.md
      (Python).  Python floats are modelled by exact rationals [Q], so
      rounding and NaN are outside the model.
    - [Regex]: a backtracking matcher for the fragment of JavaScript
      regular expressions the front end uses, with [exec], [replace] and
      [split] as ECMAScript defines them.  Strings are lists of 8-bit
      characters.
    - [Types], [QueryPage], [ResponseDisplay]: the citation type and the
      two [renderResponseWithCitations] functions of the front end
      (TypeScript).
    - [Chunker], [CitationResolver], [Ingestion]: back-end components
      whose code is not among the sources at hand; they are modelled from
      the specification.
    - [RetrieverShape]: shapes of backend answers, for the retriever's
      behaviour on answers that are not well formed.
    - [JS], [Api], [Documents]: JavaScript truthiness, [trim],
      [Math.round] and the outcome of a call; the types of the API.
    - [QueryPageState], [SimpleDisplay], [FileUpload], [DocumentsPage],
      [DocumentViewer]: the event handlers of the front end, as functions
      from the state of a component and the outcome of its API calls to
      the requests made and the state after every update.
    - [VectorStore]: [add_documents] and [initialize_collection] of
      docs/user-guide/chromadbGuide.md (Python).

    Part II, the properties, one module of facts per component. *)

From stdpp Require Import gmap strings list.
From Stdlib Require Import QArith Qround Lqa Ascii Sorted.
From Equations Require Import Equations.
From Equations.Prop Require Import Logic.

Local Close Scope Q_scope.
Local Open Scope Z_scope.

(** ** Exceptions *)

Module Exn.

Inductive exn : Type :=
| IndexError            (* Python: list index out of range *)
| KeyError              (* Python: missing dict key *)
| TypeError             (* JavaScript: property access on [undefined] *)
| ConfigurationError.   (* the pipeline's own: invalid chunking parameters *)

Inductive result (A : Type) : Type :=
| Ok (a : A)
| Raise (e : exn).
Arguments Ok {A} a.
Arguments Raise {A} e.

#[global] Instance result_ret : MRet result := fun A a => Ok a.
#[global] Instance result_bind : MBind result := fun A B f m =>
  match m with
  | Ok a => f a
  | Raise e => Raise e
  end.

End Exn.

(** ** Python lists and dicts *)

Module Py.
Export Exn.

(** [l[i]] for a non-negative index. *)
Definition index {A} (l : list A) (i : nat) : result A :=
  match l !! i with
  | Some a => Ok a
  | None => Raise IndexError
  end.

(** [d[k]] on a dict. *)
Definition getitem {V} (d : gmap string V) (k : string) : result V :=
  match d !! k with
  | Some v => Ok v
  | None => Raise KeyError
  end.

(** [l[:n]]: a negative bound counts from the end of the list. *)
Definition slice_to {A} (l : list A) (n : Z) : list A :=
  if 0 <=? n then take (Z.to_nat n) l
  else take (Z.to_nat (Z.of_nat (length l) + n)) l.

(** [for x in xs: acc = body(acc, x)], stopping at the first exception. *)
Fixpoint for_each {A B} (body : B -> A -> result B) (xs : list A) (acc : B)
  : result B :=
  match xs with
  | [] => Ok acc
  | x :: xs' => acc' ← body acc x; for_each body xs' acc'
  end.

End Py.

(** ** The retriever: [query_documents] *)

Module Retriever.
Import Py.

(** What [collection.query] returns: one row per query text.  The
    ["distances"] entry may be absent. *)
Record QueryResult : Type := {
  ids : list (list string);
  distances : option (list (list Q));
  metadatas : list (list (gmap string string));
  documents : list (list string)
}.

(** One entry of the list [query_documents] returns. *)
Record Chunk : Type := {
  chunk_id : string;
  document_id : string;
  document_title : string;
  text : string;
  score : Q
}.

Definition default_top_k : Z := 5.
Definition default_threshold : Q := 3 # 10.

(** [similarity_score = 1.0 - (distance / 2.0)] *)
Definition similarity (distance : Q) : Q := (1 - distance / 2)%Q.

(** [results["distances"][0][i] if "distances" in results else 0.5] *)
Definition distance_at (results : QueryResult) (i : nat) : result Q :=
  match distances results with
  | Some ds => row ← index ds 0; index row i
  | None => Ok (5 # 10)%Q
  end.

(** The dict appended for candidate [i]. *)
Definition make_chunk (results : QueryResult) (i : nat) (similarity_score : Q)
  : result Chunk :=
  id_row ← index (ids results) 0;
  cid ← index id_row i;
  meta_row ← index (metadatas results) 0;
  meta ← index meta_row i;
  did ← getitem meta "document_id";
  meta_row' ← index (metadatas results) 0;
  meta' ← index meta_row' i;
  title ← getitem meta' "document_title";
  doc_row ← index (documents results) 0;
  txt ← index doc_row i;
  mret {| chunk_id := cid; document_id := did; document_title := title;
          text := txt; score := similarity_score |}.

(** The body of the [for i in range(...)] loop. *)
Definition format_step (results : QueryResult) (threshold : Q)
  (chunks : list Chunk) (i : nat) : result (list Chunk) :=
  distance ← distance_at results i;
  let similarity_score := similarity distance in
  if Qle_bool threshold similarity_score then
    c ← make_chunk results i similarity_score;
    mret (chunks ++ [c])
  else mret chunks.

Definition format_results (results : QueryResult) (threshold : Q)
  : result (list Chunk) :=
  id_row ← index (ids results) 0;
  for_each (format_step results threshold) (seq 0 (length id_row)) [].

(** [chunks.sort(key=lambda x: x["score"], reverse=True)]: Python's sort is
    stable, also under [reverse=True]; the result is the one list that is
    in descending key order and keeps equal keys in their input order.
    [insert_desc c l] puts [c] in front of the first entry whose score is
    not greater than its own. *)
Fixpoint insert_desc (c : Chunk) (l : list Chunk) : list Chunk :=
  match l with
  | [] => [c]
  | d :: l' =>
      if Qle_bool (score d) (score c) then c :: d :: l'
      else d :: insert_desc c l'
  end.

Fixpoint sort_desc (l : list Chunk) : list Chunk :=
  match l with
  | [] => []
  | c :: l' => insert_desc c (sort_desc l')
  end.

(** Descending order of scores; reaching a threshold; having a given
    score. *)
Definition desc (a b : Chunk) : Prop := (score b <= score a)%Q.

Definition meets (threshold : Q) (c : Chunk) : bool :=
  Qle_bool threshold (score c).

Definition same_score (q : Q) (c : Chunk) : bool := Qeq_bool (score c) q.

(** The [where] argument built from [filters]. *)
Definition where_clause (filters : option (gmap string string))
  : gmap string string :=
  match filters with
  | Some f => map_fold (fun key value w => <[key := value]> w) ∅ f
  | None => ∅
  end.

Definition where_arg (filters : option (gmap string string))
  : option (gmap string string) :=
  let w := where_clause filters in
  if decide (w = ∅) then None else Some w.

(** A backend answer of the shape the loop expects: one row of ids, of
    metadata and of documents, of one length, every metadata dict with the
    two keys that are read, and a row of distances of that length when
    ["distances"] is present. *)
Definition well_formed (results : QueryResult) : Prop :=
  exists id_row meta_row doc_row,
    ids results !! 0%nat = Some id_row /\
    metadatas results !! 0%nat = Some meta_row /\
    documents results !! 0%nat = Some doc_row /\
    length meta_row = length id_row /\
    length doc_row = length id_row /\
    Forall (fun m : gmap string string =>
              is_Some (m !! "document_id") /\ is_Some (m !! "document_title"))
           meta_row /\
    match distances results with
    | Some ds => exists row, ds !! 0%nat = Some row /\ length row = length id_row
    | None => True
    end.

(** [candidate results i c]: [c] is the backend's entry of rank [i], with
    the similarity computed from its distance. *)
Definition candidate (results : QueryResult) (i : nat) (c : Chunk) : Prop :=
  exists id_row meta_row doc_row (meta : gmap string string) d,
    ids results !! 0%nat = Some id_row /\ id_row !! i = Some (chunk_id c) /\
    metadatas results !! 0%nat = Some meta_row /\ meta_row !! i = Some meta /\
    meta !! "document_id" = Some (document_id c) /\
    meta !! "document_title" = Some (document_title c) /\
    documents results !! 0%nat = Some doc_row /\ doc_row !! i = Some (text c) /\
    distance_at results i = Ok d /\ score c = similarity d.

(** No entry of the answer reaches the threshold. *)
Definition none_meets (results : QueryResult) (threshold : Q) : Prop :=
  exists id_row,
    ids results !! 0%nat = Some id_row /\
    forall i, (i < length id_row)%nat ->
      exists d, distance_at results i = Ok d /\ (similarity d < threshold)%Q.

Section WithCollection.

(** [collection.query(query_texts=[q], n_results=n, where=w)] of the
    collection that [initialize_collection()] hands out. *)
Variable collection_query :
  string -> Z -> option (gmap string string) -> result QueryResult.

Definition query_documents (query_text : string)
  (filters : option (gmap string string)) (top_k : Z) (threshold : Q)
  : result (list Chunk) :=
  results ← collection_query query_text (top_k * 2) (where_arg filters);
  chunks ← format_results results threshold;
  mret (slice_to (sort_desc chunks) top_k).

End WithCollection.

(** *** Sample backend answers *)

Definition sample_meta (doc title : string) : gmap string string :=
  <["document_id" := doc]> (<["document_title" := title]> ∅).

(** Three candidates: two at distance 0.4 (similarity 0.8), between them
    one at distance 1.6 (similarity 0.2). *)
Definition sample_results : QueryResult := {|
  ids := [["wilson_chunk_0"; "wilson_chunk_1"; "nda_chunk_0"]];
  distances := Some [[(4 # 10)%Q; (16 # 10)%Q; (4 # 10)%Q]];
  metadatas := [[sample_meta "wilson" "Wilson Agreement";
                 sample_meta "wilson" "Wilson Agreement";
                 sample_meta "nda" "Mutual NDA"]];
  documents := [["The Supplier shall deliver"; "Payment is due"; "Each party shall keep"]]
|}.

(** The same answer without its ["distances"] entry. *)
Definition sample_results_no_distances : QueryResult := {|
  ids := ids sample_results;
  distances := None;
  metadatas := metadatas sample_results;
  documents := documents sample_results
|}.

(** One candidate at squared Euclidean distance 3. *)
Definition far_results : QueryResult := {|
  ids := [["nda_chunk_4"]];
  distances := Some [[3%Q]];
  metadatas := [[sample_meta "nda" "Mutual NDA"]];
  documents := [["This Agreement is governed by"]]
|}.

Definition constant_collection (results : QueryResult)
  : string -> Z -> option (gmap string string) -> result QueryResult :=
  fun _ _ _ => Ok results.

End Retriever.

(** ** JavaScript regular expressions *)

Module Regex.

(** JavaScript strings, as lists of characters. *)
Abbreviation str := (list ascii).

Definition lit (s : string) : str := String.list_ascii_of_string s.

(** The fragment of the pattern language the front end uses.  Every
    pattern here has exactly one capturing group, and none has it under a
    quantifier. *)
Inductive regex : Type :=
| Lit (c : ascii)          (* a character, escaped or not: [\[], [\]] *)
| Digit                    (* [\d] *)
| Space                    (* [\s] *)
| NotLit (c : ascii)       (* [[^c]] *)
| Seq (r1 r2 : regex)
| Star (r : regex)         (* greedy [r*] *)
| Opt (r : regex)          (* greedy [r?] *)
| Group (r : regex)        (* the capturing group [(r)] *)
| NonCapture (r : regex).  (* [(?:r)] *)

(** Greedy [r+]. *)
Definition Plus (r : regex) : regex := Seq r (Star r).

Definition is_digit (c : ascii) : bool :=
  let n := nat_of_ascii c in (48 <=? n)%nat && (n <=? 57)%nat.

Definition is_space (c : ascii) : bool :=
  let n := nat_of_ascii c in
  ((9 <=? n)%nat && (n <=? 13)%nat) || (n =? 32)%nat || (n =? 160)%nat.

(** A backtracking matcher in continuation-passing style, after the
    ECMAScript semantics: [rmatch r s cap k] matches [r] at the front of
    [s] and hands the remaining input and the capture to [k]; when [k]
    fails, the next alternative of [r] is tried. *)
Section Matcher.
Context {R : Type}.

Definition one (p : ascii -> bool) (s : str) (k : str -> option R) : option R :=
  match s with
  | c :: s' => if p c then k s' else None
  | [] => None
  end.

Definition or_else (a b : option R) : option R :=
  match a with
  | Some x => Some x
  | None => b
  end.

(** A greedy repetition: one more round of [atom] first, then the
    continuation.  A round that consumes nothing is rejected, so [fuel],
    the length of the input, is never used up before the input is. *)
Fixpoint repeat_matcher
  (atom : str -> option str -> (str -> option str -> option R) -> option R)
  (fuel : nat) (s : str) (cap : option str)
  (k : str -> option str -> option R) : option R :=
  match fuel with
  | O => k s cap
  | S fuel' =>
      or_else
        (atom s cap (fun s1 cap1 =>
           if (length s1 <? length s)%nat
           then repeat_matcher atom fuel' s1 cap1 k
           else None))
        (k s cap)
  end.

Fixpoint rmatch (r : regex) (s : str) (cap : option str)
  (k : str -> option str -> option R) {struct r} : option R :=
  match r with
  | Lit c => one (Ascii.eqb c) s (fun s' => k s' cap)
  | Digit => one is_digit s (fun s' => k s' cap)
  | Space => one is_space s (fun s' => k s' cap)
  | NotLit c => one (fun x => negb (Ascii.eqb c x)) s (fun s' => k s' cap)
  | Seq r1 r2 => rmatch r1 s cap (fun s1 cap1 => rmatch r2 s1 cap1 k)
  | Star r1 => repeat_matcher (rmatch r1) (length s) s cap k
  | Opt r1 =>
      or_else
        (rmatch r1 s cap (fun s1 cap1 =>
           if (length s1 <? length s)%nat then k s1 cap1 else None))
        (k s cap)
  | Group r1 =>
      rmatch r1 s cap (fun s1 _ => k s1 (Some (take (length s - length s1) s)))
  | NonCapture r1 => rmatch r1 s cap k
  end.

End Matcher.

(** A successful match: the matched text, what the group captured
    ([None] is JavaScript's [undefined]) and the input after the match. *)
Record match_result : Type := {
  matched : str;
  group1 : option str;
  rest : str
}.

(** A match starting at the very front of [s]. *)
Definition match_here (r : regex) (s : str) : option match_result :=
  rmatch r s None (fun s1 cap =>
    Some {| matched := take (length s - length s1) s;
            group1 := cap; rest := s1 |}).

(** [RegExp.prototype.exec] from index 0: the leftmost match, with the
    text in front of it. *)
Fixpoint exec (r : regex) (s : str) : option (str * match_result) :=
  match match_here r s with
  | Some m => Some ([], m)
  | None =>
      match s with
      | [] => None
      | c :: s' =>
          match exec r s' with
          | Some (pre, m) => Some (c :: pre, m)
          | None => None
          end
      end
  end.

(** *** The matcher only moves forward *)

Section Forward.
Context {R : Type}.

Lemma one_inv (p : ascii -> bool) (s : str) (k : str -> option R) x :
  one p s k = Some x ->
  exists c s', s = c :: s' /\ p c = true /\ k s' = Some x.
Proof.
  destruct s as [|c s']; simpl; [discriminate|].
  destruct (p c) eqn:Hp; [|discriminate]. eauto.
Qed.

Lemma or_else_inv (a b : option R) x :
  or_else a b = Some x -> a = Some x \/ (a = None /\ b = Some x).
Proof. destruct a; simpl; intros H; [left; exact H|right; auto]. Qed.

Definition forward
  (atom : str -> option str -> (str -> option str -> option R) -> option R)
  : Prop :=
  forall s cap k x, atom s cap k = Some x ->
    exists s1 cap1, s1 `suffix_of` s /\ k s1 cap1 = Some x.

Lemma repeat_matcher_forward atom fuel :
  forward atom -> forward (repeat_matcher atom fuel).
Proof.
  intros Hatom. induction fuel as [|fuel IH]; intros s cap k x; simpl.
  - intros H. exists s, cap. split; [reflexivity|exact H].
  - intros H. apply or_else_inv in H as [H|[_ H]].
    + apply Hatom in H as (s1 & cap1 & Hsuf & H).
      destruct (length s1 <? length s)%nat; [|discriminate].
      apply IH in H as (s2 & cap2 & Hsuf2 & H).
      exists s2, cap2. split; [etransitivity; eassumption|exact H].
    + exists s, cap. split; [reflexivity|exact H].
Qed.

Lemma rmatch_forward r : forward (rmatch r).
Proof.
  induction r as [c| | |c|r1 IH1 r2 IH2|r1 IH1|r1 IH1|r1 IH1|r1 IH1];
    intros s cap k x; cbn [rmatch]; intros H.
  1-4: apply one_inv in H as (c' & s' & -> & _ & H);
       exists s', cap; split; [apply suffix_cons_r; reflexivity|exact H].
  - apply IH1 in H as (s1 & cap1 & Hsuf1 & H).
    apply IH2 in H as (s2 & cap2 & Hsuf2 & H).
    exists s2, cap2. split; [etransitivity; eassumption|exact H].
  - eapply repeat_matcher_forward; eassumption.
  - apply or_else_inv in H as [H|[_ H]].
    + apply IH1 in H as (s1 & cap1 & Hsuf & H).
      destruct (length s1 <? length s)%nat; [|discriminate]. eauto.
    + exists s, cap. split; [reflexivity|exact H].
  - apply IH1 in H as (s1 & cap1 & Hsuf & H). eauto.
  - apply IH1 in H. exact H.
Qed.

End Forward.

Lemma match_here_split r s m :
  match_here r s = Some m -> s = matched m ++ rest m.
Proof.
  unfold match_here. intros H.
  apply rmatch_forward in H as (s1 & cap1 & [pre ->] & [= <-]). simpl.
  rewrite length_app, Nat.add_sub, take_app_length. reflexivity.
Qed.

Lemma exec_split r s pre m :
  exec r s = Some (pre, m) -> s = pre ++ matched m ++ rest m.
Proof.
  revert pre. induction s as [|c s IH]; intros pre; cbn [exec].
  - destruct (match_here r []) eqn:Hm; [|discriminate].
    intros [= <- <-]. apply match_here_split in Hm. exact Hm.
  - destruct (match_here r (c :: s)) eqn:Hm.
    + intros [= <- <-]. apply match_here_split in Hm. exact Hm.
    + destruct (exec r s) as [[pre' m']|]; [|discriminate].
      intros [= <- <-]. simpl. f_equal. apply IH. reflexivity.
Qed.

(** *** [String.prototype.replace] with a global pattern and a function

    Every match, from left to right, is replaced by what [f] returns for
    the matched text and the capture; after an empty match the search
    resumes one character further on. *)
Equations? replace (r : regex) (f : str -> option str -> str) (s : str)
  : str by wf (length s) lt :=
  replace r f s with inspect (exec r s) := {
    | exist _ None _ => s
    | exist _ (Some (pre, m)) Hm with inspect (matched m) := {
        | exist _ (a :: w) Hw =>
            pre ++ f (a :: w) (group1 m) ++ replace r f (rest m)
        | exist _ [] Hw with inspect (rest m) := {
            | exist _ [] Hr => pre ++ f [] (group1 m)
            | exist _ (c :: rest') Hr =>
                pre ++ f [] (group1 m) ++ c :: replace r f rest'
          }
      }
  }.
Proof.
  all: apply exec_split in Hm; apply (f_equal length) in Hm;
    rewrite !length_app in Hm; try rewrite Hw in Hm; try rewrite Hr in Hm;
    simpl in Hm; lia.
Qed.

(** *** All matches of a global pattern, from left to right *)
Equations? match_all (r : regex) (s : str) : list match_result
  by wf (length s) lt :=
  match_all r s with inspect (exec r s) := {
    | exist _ None _ => []
    | exist _ (Some (pre, m)) Hm with inspect (matched m) := {
        | exist _ (a :: w) Hw => m :: match_all r (rest m)
        | exist _ [] Hw with inspect (rest m) := {
            | exist _ [] Hr => [m]
            | exist _ (c :: rest') Hr => m :: match_all r rest'
          }
      }
  }.
Proof.
  all: apply exec_split in Hm; apply (f_equal length) in Hm;
    rewrite !length_app in Hm; try rewrite Hw in Hm; try rewrite Hr in Hm;
    simpl in Hm; lia.
Qed.

(** *** [String.prototype.split] with a pattern

    [split_loop r pending s]: [s] is the input from the search position
    on, [pending] the text since the end of the last separator.  At each
    position the pattern is tried there and nowhere else; a match that
    would end where the last separator ended is skipped; otherwise the
    pending text and the capture are pushed. *)
Equations? split_loop (r : regex) (pending s : str) : list (option str)
  by wf (2 * length s + (if pending is [] then 0 else 1))%nat lt :=
  split_loop r pending [] := [Some pending];
  split_loop r pending (c :: s') with inspect (match_here r (c :: s')) := {
    | exist _ None _ => split_loop r (pending ++ [c]) s'
    | exist _ (Some m) Hm with inspect (matched m) := {
        | exist _ (a :: w) Hw =>
            Some pending :: group1 m :: split_loop r [] (rest m)
        | exist _ [] Hw with pending := {
            | [] => split_loop r [c] s'
            | b :: pending' =>
                Some (b :: pending') :: group1 m :: split_loop r [] (c :: s')
          }
      }
  }.
Proof.
  all: try (apply match_here_split in Hm; rewrite Hw in Hm;
            apply (f_equal length) in Hm; rewrite length_app in Hm;
            simpl in Hm).
  all: try (destruct pending; simpl; lia).
  all: simpl; lia.
Qed.

Definition split (r : regex) (s : str) : list (option str) :=
  match s with
  | [] => if match_here r [] is Some _ then [] else [Some []]
  | _ :: _ => split_loop r [] s
  end.

(** *** Conversions

    [ToString] of a capture, as [parseInt] and template literals apply
    it. *)
Definition to_string (g : option str) : str :=
  match g with
  | Some s => s
  | None => lit "undefined"
  end.

(** *** Prefixes and suffixes by a predicate *)

Fixpoint take_while {A} (p : A -> bool) (l : list A) : list A :=
  match l with
  | a :: l' => if p a then a :: take_while p l' else []
  | [] => []
  end.

Fixpoint drop_while {A} (p : A -> bool) (l : list A) : list A :=
  match l with
  | a :: l' => if p a then drop_while p l' else l
  | [] => []
  end.

(** *** [parseInt]

    On a string that begins with decimal digits: the number they spell.
    Any other string gives [None], JavaScript's [NaN] (the patterns here
    capture digits only, so signs, blanks and radix prefixes do not
    occur).  JavaScript rounds beyond 2^53; the numbers are compared with
    array lengths only, where exact integers decide alike. *)
Definition digit_value (c : ascii) : Z := Z.of_nat (nat_of_ascii c) - 48.

Definition parseInt (s : str) : option Z :=
  match take_while is_digit s with
  | [] => None
  | ds => Some (fold_left (fun acc c => 10 * acc + digit_value c) ds 0)
  end.

(** *** Greedy repetition of a character class, in closed form

    [greedy p s k] tries [k] on [s] after its longest prefix of [p]
    characters, then after ever shorter ones, down to [s] itself. *)
Fixpoint greedy {R} (p : ascii -> bool) (s : str) (k : str -> option R)
  : option R :=
  match s with
  | c :: s' => if p c then or_else (greedy p s' k) (k s) else k s
  | [] => k []
  end.

(** *** Bracketed tokens *)

Definition open : ascii := "["%char.
Definition close : ascii := "]"%char.

(** [token body] is [body] between square brackets. *)
Definition token (body : str) : str := open :: body ++ [close].

Definition no_open (body : str) : Prop :=
  Forall (fun c => Ascii.eqb "[" c = false) body.

Definition no_close (body : str) : Prop :=
  Forall (fun c => negb (Ascii.eqb "]" c) = true) body.

Definition no_digit (body : str) : Prop :=
  Forall (fun c => is_digit c = false) body.

Definition all_digits (body : str) : Prop :=
  Forall (fun c => is_digit c = true) body.

(** Any character but the closing bracket. *)
Definition not_close (x : ascii) : bool := negb (Ascii.eqb "]" x).

End Regex.

(** ** Front-end types (types/index.ts) *)

Module Types.

Record Citation : Type := {
  document_id : string;
  document_title : string;
  chunk_id : string;
  text : string;
  relevance_score : Q
}.

(** *** Sample citations *)

Definition wilson_citation : Citation := {|
  document_id := "wilson";
  document_title := "Wilson Agreement";
  chunk_id := "wilson_chunk_0";
  text := "The Supplier shall deliver";
  relevance_score := (8 # 10)%Q
|}.

Definition nda_citation : Citation := {|
  document_id := "nda";
  document_title := "Mutual NDA";
  chunk_id := "nda_chunk_3";
  text := "Each party shall keep";
  relevance_score := (6 # 10)%Q
|}.

End Types.

(** ** The Query page (pages/Query.tsx) *)

Module QueryPage.
Import Regex Types.

(** [/\[(\d+)\]/g] *)
Definition citationPattern : regex :=
  Seq (Lit "[") (Seq (Group (Plus Digit)) (Lit "]")).

Definition dquote : str := [ascii_of_nat 34].

(** The function passed to [replace]. *)
Definition replacer (citations : list Citation) (match_ : str)
  (citationNum : option str) : str :=
  match parseInt (to_string citationNum) with
  | Some n =>
      let index := n - 1 in
      if (0 <=? index) && (index <? Z.of_nat (length citations)) then
        match citations !! Z.to_nat index with
        | Some c =>
            lit "<span class=" ++ dquote ++ lit "citation" ++ dquote
            ++ lit " data-citation-id=" ++ dquote ++ lit (chunk_id c) ++ dquote
            ++ lit ">[" ++ to_string citationNum ++ lit "]</span>"
        | None => match_   (* not reached: the index is in range *)
        end
      else match_
  | None => match_   (* NaN fails both comparisons *)
  end.

(** The HTML that [renderResponseWithCitations] puts in the page. *)
Definition renderResponseWithCitations (text : str) (citations : list Citation)
  : str :=
  replace citationPattern (replacer citations) text.

(** The [<span>] the Query page puts around the marker of citation [c]. *)
Definition citation_span (c : Citation) (num : str) : str :=
  lit "<span class=" ++ dquote ++ lit "citation" ++ dquote
  ++ lit " data-citation-id=" ++ dquote ++ lit (chunk_id c)
  ++ dquote ++ lit ">[" ++ num ++ lit "]</span>".

(** What [citationPattern] matches at the front of a string: an opening
    bracket, one or more digits, a closing bracket. *)
Definition bare_marker (s : str) : option (str * str) :=
  match s with
  | c :: t =>
      if Ascii.eqb "[" c then
        match take_while is_digit t, drop_while is_digit t with
        | d :: ds, e :: post =>
            if Ascii.eqb "]" e then Some (d :: ds, post) else None
        | _, _ => None
        end
      else None
  | [] => None
  end.

Definition marker_match (ds post : str) : match_result :=
  {| matched := "["%char :: ds ++ ["]"%char]; group1 := Some ds; rest := post |}.

(** A match with [x] appended to what follows it. *)
Definition extend (x : str) (m : match_result) : match_result :=
  {| matched := matched m; group1 := group1 m; rest := rest m ++ x |}.

End QueryPage.

(** ** The response display component (components/ResponseDisplay.tsx) *)

Module ResponseDisplay.
Import Exn Regex Types.

(** [/(\[[^\]]*\d+[^\]]*\])/g], the pattern the text is split by. *)
Definition splitPattern : regex :=
  Group (Seq (Lit "[")
        (Seq (Star (NotLit "]"))
        (Seq (Plus Digit)
        (Seq (Star (NotLit "]"))
             (Lit "]"))))).

(** The pattern a part is matched against: [/\[(?:X)?(\d+)(?:X)?]/] with
    [[^\]]*] for [X]. *)
Definition citationPattern : regex :=
  Seq (Lit "[")
 (Seq (Opt (NonCapture (Star (NotLit "]"))))
 (Seq (Group (Plus Digit))
 (Seq (Opt (NonCapture (Star (NotLit "]"))))
      (Lit "]")))).

(** What a part is rendered to: a clickable reference that expands the
    citation [target], or a plain [<span>]. *)
Inductive node : Type :=
| CitationRef (key : nat) (target : string) (children : str)
| PlainSpan (key : nat) (children : str).

Definition children_of (n : node) : str :=
  match n with
  | CitationRef _ _ s => s
  | PlainSpan _ s => s
  end.

(** The citation a part refers to, when it is a marker in range. *)
Definition cited (citations : list Citation) (part : str) : option Citation :=
  match exec citationPattern part with
  | Some (_, citationMatch) =>
      match parseInt (to_string (group1 citationMatch)) with
      | Some n =>
          let citationIndex := n - 1 in
          if (0 <=? citationIndex)
             && (citationIndex <? Z.of_nat (length citations))
          then citations !! Z.to_nat citationIndex
          else None
      | None => None
      end
  | None => None
  end.

(** The callback of [parts.map]; [part.match] throws on [undefined]. *)
Definition render_part (citations : list Citation) (index : nat)
  (part : option str) : result node :=
  match part with
  | None => Raise TypeError
  | Some part =>
      match cited citations part with
      | Some c => Ok (CitationRef index (chunk_id c) part)
      | None => Ok (PlainSpan index part)
      end
  end.

Fixpoint map_indexed {A B} (f : nat -> A -> result B) (index : nat)
  (l : list A) : result (list B) :=
  match l with
  | [] => Ok []
  | a :: l' =>
      b ← f index a; bs ← map_indexed f (S index) l'; mret (b :: bs)
  end.

Definition renderResponseWithCitations (citations : list Citation) (text : str)
  : result (list node) :=
  map_indexed (render_part citations) 0 (split splitPattern text).

(** What [render_part] makes of a part that is a string. *)
Definition render_text (citations : list Citation) (index : nat) (part : str)
  : node :=
  match cited citations part with
  | Some c => CitationRef index (chunk_id c) part
  | None => PlainSpan index part
  end.

(** The citation of number [n], counted from 1. *)
Definition nth_citation (citations : list Citation) (n : Z) : option Citation :=
  if (1 <=? n) && (n <=? Z.of_nat (length citations))
  then citations !! Z.to_nat (n - 1)
  else None.

(** What a node says about its part: a reference points to a citation of
    the list, at the position the captured number gives. *)
Definition node_sound (citations : list Citation) (n : node)
  : Prop :=
  match n with
  | CitationRef _ target part =>
      exists pre m ds num c,
        exec citationPattern part = Some (pre, m) /\
        group1 m = Some ds /\ parseInt ds = Some num /\
        1 <= num <= Z.of_nat (length citations) /\
        citations !! Z.to_nat (num - 1) = Some c /\
        target = chunk_id c
  | PlainSpan _ _ => True
  end.

End ResponseDisplay.

(** ** The chunker *)

Module Chunker.
Import Exn Regex.

(** Modelled from the spec: a chunk of the data model (section 3), its
    text and where it lies in the source; the back end's chunk type is
    not among the sources. *)
Record Chunk : Type := {
  text : str;
  start_offset : nat;
  end_offset : nat
}.

(** Modelled from the spec: the window loop of the Chunker (section 4.1),
    whose code is not among the sources.  A window of [size] characters
    is cut at [start]; when it reaches the end of the text it is the last
    one (and may be shorter than [size]); otherwise the next window
    starts [stride] characters further on.  Cuts are hard cuts: the
    boundary-aware preference of the spec is left out, as in its worked
    scenario.  A stride of 0 does not occur: [chunk] rejects it. *)
Equations? windows (size stride start : nat) (t : str) : list Chunk
  by wf (length t) lt :=
  windows size 0 start t := [];
  windows size (S k) start t with inspect (length t <=? size)%nat := {
    | exist _ true _ =>
        [{| text := take size t; start_offset := start;
            end_offset := start + length t |}]
    | exist _ false Hlong =>
        {| text := take size t; start_offset := start;
           end_offset := start + size |}
        :: windows size (S k) (start + S k) (drop (S k) t)
  }.
Proof.
  apply Nat.leb_gt in Hlong. rewrite length_drop. lia.
Qed.

(** Modelled from the spec: [chunk(text, size, overlap)] of the Chunker
    (section 4.1).  [size <= 0], [overlap < 0] and [overlap >= size] are
    configuration errors; empty input gives the empty sequence. *)
Definition chunk (t : str) (size overlap : Z) : result (list Chunk) :=
  if (size <=? 0) || (overlap <? 0) || (size <=? overlap)
  then Raise ConfigurationError
  else
    match t with
    | [] => Ok []
    | _ :: _ => Ok (windows (Z.to_nat size) (Z.to_nat (size - overlap)) 0 t)
    end.

(** Modelled from the spec: the chunk texts concatenated with the
    overlaps removed (section 8); every chunk but the first loses its
    first [overlap] characters. *)
Definition reassemble (overlap : Z) (chunks : list Chunk) : str :=
  match chunks with
  | [] => []
  | c :: rest =>
      text c ++ concat (map (fun c' => drop (Z.to_nat overlap) (text c')) rest)
  end.

(** The half-open range [[start, end)] of a chunk. *)
Definition offsets (c : Chunk) : nat * nat := (start_offset c, end_offset c).

End Chunker.

(** ** The citation resolver *)

Module CitationResolver.
Import Regex Types.

(** Modelled from the spec: the marker grammar of the CitationResolver
    (section 4.5), whose code is not among the sources: an opening
    bracket, blanks, an optional run of characters other than the closing
    bracket, the captured digits, another such optional run, the closing
    bracket. *)
Definition markerPattern : regex :=
  Seq (Lit "[")
 (Seq (Star Space)
 (Seq (Opt (NonCapture (Star (NotLit "]"))))
 (Seq (Group (Plus Digit))
 (Seq (Opt (NonCapture (Star (NotLit "]"))))
      (Lit "]"))))).

(** Modelled from the spec: the integers the markers of the answer
    capture, one per match of the grammar, in order of appearance. *)
Definition marker_numbers (answer_text : str) : list Z :=
  omap (fun m => parseInt (to_string (group1 m)))
       (match_all markerPattern answer_text).

(** Modelled from the spec: the captured integer as a 1-based index into
    the citation index map; an index outside the map resolves to
    nothing. *)
Definition lookup_index (citation_index_map : list Citation) (n : Z)
  : option Citation :=
  if (1 <=? n) && (n <=? Z.of_nat (length citation_index_map))
  then citation_index_map !! Z.to_nat (n - 1)
  else None.

(** Modelled from the spec: one citation per distinct resolved chunk, in
    order of first appearance. *)
Fixpoint distinct (seen : list string) (cs : list Citation) : list Citation :=
  match cs with
  | [] => []
  | c :: cs' =>
      if decide (chunk_id c ∈ seen) then distinct seen cs'
      else c :: distinct (chunk_id c :: seen) cs'
  end.

(** The sum of the relevance scores. *)
Definition total (cs : list Citation) : Q :=
  foldr (fun c acc => (relevance_score c + acc)%Q) 0%Q cs.

(** Modelled from the spec: the average relevance of the cited chunks,
    and 0 when nothing is cited. *)
Definition confidence (cs : list Citation) : Q :=
  match cs with
  | [] => 0%Q
  | _ :: _ => (total cs / inject_Z (Z.of_nat (length cs)))%Q
  end.

(** Modelled from the spec: [resolve(answer_text, citation_index_map)] of
    the CitationResolver (section 4.5). *)
Definition resolve (answer_text : str) (citation_index_map : list Citation)
  : list Citation * Q :=
  let resolved :=
    omap (lookup_index citation_index_map) (marker_numbers answer_text) in
  let citations := distinct [] resolved in
  (citations, confidence citations).

End CitationResolver.

(** ** The ingestion orchestrator *)

Module Ingestion.
Import Exn Regex.

(** Modelled from the spec: the status of a document (section 3). *)
Inductive Status : Type := processing | processed | error.

(** Modelled from the spec: a chunk as the VectorIndex stores it
    (sections 3 and 4.2).  Its key in the index is the pair of its document
    and its number in the document, which the chunk id
    [{document_id}_chunk_{n}] spells out. *)
Record Entry : Type := {
  entry_text : str;
  entry_vector : list Q
}.

(** Modelled from the spec: what ingestion reads and writes, the
    VectorIndex and the status of every document. *)
Record State : Type := {
  index : gmap (string * nat) Entry;
  status : gmap string Status
}.

Definition set_status (doc : string) (s : Status) (st : State) : State :=
  {| index := index st; status := <[doc := s]> (status st) |}.

Definition set_index (idx : gmap (string * nat) Entry) (st : State) : State :=
  {| index := idx; status := status st |}.

(** Modelled from the spec: delete-by-document of the VectorIndex
    (section 4.2). *)
Definition delete_document (doc : string) (idx : gmap (string * nat) Entry)
  : gmap (string * nat) Entry :=
  filter (fun kv => kv.1.1 <> doc) idx.

Section WithCollaborators.

(** Modelled from the spec: the collaborators of section 6, each of
    which may fail ([write_ok] says which index writes succeed), and the
    chunking configuration. *)
Variable extract : str -> result str.
Variable embed : str -> result (list Q).
Variable write_ok : string * nat -> bool.
Variables chunk_size chunk_overlap : Z.

(** Modelled from the spec: the embedding of every chunk, failing with
    the first that fails. *)
Fixpoint embed_all (texts : list str) : result (list Entry) :=
  match texts with
  | [] => Ok []
  | t :: texts' =>
      v ← embed t;
      es ← embed_all texts';
      mret ({| entry_text := t; entry_vector := v |} :: es)
  end.

(** Modelled from the spec: extraction, chunking and embedding, which
    give what is to be written. *)
Definition prepare (file : str) : result (list Entry) :=
  t ← extract file;
  chunks ← Chunker.chunk t chunk_size chunk_overlap;
  embed_all (map Chunker.text chunks).

(** Modelled from the spec: the index write, chunk by chunk; it stops at
    the first write the backend refuses, with the earlier ones done. *)
Fixpoint upsert (doc : string) (n : nat) (entries : list Entry)
  (idx : gmap (string * nat) Entry) : gmap (string * nat) Entry * bool :=
  match entries with
  | [] => (idx, true)
  | e :: entries' =>
      if write_ok (doc, n)
      then upsert doc (S n) entries' (<[(doc, n) := e]> idx)
      else (idx, false)
  end.

(** Some step of the ingestion fails: extraction, chunking or embedding
    raises, or the backend refuses one of the writes. *)
Definition some_step_fails (doc : string) (file : str) : Prop :=
  match prepare file with
  | Raise _ => True
  | Ok entries =>
      exists n, (n < length entries)%nat /\ write_ok (doc, n) = false
  end.

(** Modelled from the spec: a failed ingestion (section 4.6) deletes what
    was written for the document and then marks it [error]. *)
Definition fail (doc : string) (st : State) : list State :=
  let rolled_back := set_index (delete_document doc (index st)) st in
  [rolled_back; set_status doc error rolled_back].

(** Modelled from the spec: the ingestion of one document (section 4.6),
    whose code is not among the sources, as the sequence of states it
    goes through: [processing], then the index write and [processed], or
    on the failure of any step the rollback and [error]. *)
Definition ingest (doc : string) (file : str) (st : State) : list State :=
  let started := set_status doc processing st in
  started ::
  match prepare file with
  | Raise _ => fail doc started
  | Ok entries =>
      let '(idx, ok) := upsert doc 0 entries (index started) in
      let written := set_index idx started in
      written ::
      (if ok then [set_status doc processed written] else fail doc written)
  end.

End WithCollaborators.

End Ingestion.

(** ** Shapes of backend answers *)

Module RetrieverShape.
Import Py Retriever.

(** The rows of an answer that the loop indexes: one row of ids, of
    metadata and of documents, and of distances when there are any, all
    of one length.  Nothing is said about the keys of the metadata. *)
Definition rows (results : QueryResult) (id_row : list string)
  (meta_row : list (gmap string string)) (doc_row : list string) : Prop :=
  ids results !! 0%nat = Some id_row /\
  metadatas results !! 0%nat = Some meta_row /\
  documents results !! 0%nat = Some doc_row /\
  length meta_row = length id_row /\
  length doc_row = length id_row /\
  match distances results with
  | Some ds => exists row, ds !! 0%nat = Some row /\ length row = length id_row
  | None => True
  end.

(** The metadata dict has the two keys [query_documents] reads. *)
Definition has_keys (meta : gmap string string) : bool :=
  bool_decide (is_Some (meta !! "document_id"))
  && bool_decide (is_Some (meta !! "document_title")).

(** Candidate [i] reaches the threshold, and its metadata lacks a key. *)
Definition incomplete (results : QueryResult) (threshold : Q)
  (meta_row : list (gmap string string)) (i : nat) : Prop :=
  exists d meta,
    distance_at results i = Ok d /\ (threshold <= similarity d)%Q /\
    meta_row !! i = Some meta /\ has_keys meta = false.

(** An answer whose second candidate has no title. *)
Definition untitled_results : QueryResult := {|
  ids := [["wilson_chunk_0"; "wilson_chunk_1"]];
  distances := Some [[(4 # 10)%Q; (16 # 10)%Q]];
  metadatas := [[sample_meta "wilson" "Wilson Agreement";
                 <["document_id" := "wilson"]> ∅]];
  documents := [["The Supplier shall deliver"; "Payment is due"]]
|}.

(** An answer ranked by ascending distance. *)
Definition ranked_results : QueryResult := {|
  ids := [["wilson_chunk_0"; "nda_chunk_0"; "wilson_chunk_1"]];
  distances := Some [[(4 # 10)%Q; (8 # 10)%Q; (16 # 10)%Q]];
  metadatas := [[sample_meta "wilson" "Wilson Agreement";
                 sample_meta "nda" "Mutual NDA";
                 sample_meta "wilson" "Wilson Agreement"]];
  documents := [["The Supplier shall deliver"; "Each party shall keep"; "Payment is due"]]
|}.

End RetrieverShape.

(** ** JavaScript values *)

Module JS.
Import Regex.

(** How a call or an awaited promise ends: with a value, or with a
    [throw] (a rejected promise throws at its [await]). *)
Inductive outcome (A : Type) : Type :=
| Returns (a : A)
| Throws.
Arguments Returns {A} a.
Arguments Throws {A}.

(** [ToBoolean] of a string, and of a string that may be [null]. *)
Definition truthy (s : string) : bool := bool_decide (s <> "").

Definition truthy_opt (s : option string) : bool :=
  match s with
  | Some s => truthy s
  | None => false
  end.

Definition truthy_str (s : str) : bool :=
  match s with
  | [] => false
  | _ :: _ => true
  end.

(** [String.prototype.trim]: white space and line terminators are
    removed from both ends; they are the characters of [\s]. *)
Definition trim (s : str) : str :=
  rev (drop_while is_space (rev (drop_while is_space s))).

(** [Math.round]: the nearest integer, a half going up.  Numbers are
    exact rationals here, as they are for the retriever. *)
Definition Math_round (x : Q) : Z := Qfloor (x + (1 # 2)).

End JS.

(** ** What the API returns (the schemas of the OpenAPI description) *)

Module Api.
Import Regex Types.

Record DocumentResponse : Type := {
  id : string;
  message : string
}.

Record QueryResponse : Type := {
  query : str;
  response : str;
  citations : list Citation;
  confidence_score : Q
}.

End Api.

Module Documents.

(** [title], [document_type], [jurisdiction] and [date] may be [null]. *)
Record DocumentMetadata : Type := {
  id : string;
  filename : string;
  title : option string;
  document_type : option string;
  jurisdiction : option string;
  date : option string;
  uploaded_at : string;
  status : string;
  size : Z
}.

End Documents.

(** ** The Query page's state (pages/Query.tsx) *)

Module QueryPageState.
Import Regex Types JS.

(** The state of the component that [handleSubmit] touches. *)
Record State : Type := {
  query : str;
  loading : bool;
  answer : option Api.QueryResponse;   (* the [response] state variable *)
  error : option string
}.

Definition setLoading (b : bool) (st : State) : State :=
  {| query := query st; loading := b; answer := answer st; error := error st |}.

Definition setError (e : option string) (st : State) : State :=
  {| query := query st; loading := loading st; answer := answer st; error := e |}.

Definition setResponse (r : option Api.QueryResponse) (st : State) : State :=
  {| query := query st; loading := loading st; answer := r; error := error st |}.

(** [handleSubmit]: the queries sent to the API, and the state once
    every update is applied.  Scrolling to the response and logging are
    left out. *)
Definition handleSubmit (queryDocuments : str -> outcome Api.QueryResponse)
  (st : State) : list str * State :=
  if negb (truthy_str (trim (query st))) then ([], st)
  else
    let st1 := setError None (setLoading true st) in
    let request := trim (query st) in
    match queryDocuments request with
    | Returns response =>
        ([request], setLoading false (setResponse (Some response) st1))
    | Throws =>
        ([request],
         setLoading false
           (setError (Some "Failed to process your query. Please try again.")
              st1))
    end.

(** The colours of the confidence chip. *)
Inductive color : Type := success | warning | error_color.

Definition getConfidenceColor (score : Q) : color :=
  if Qle_bool (8 # 10) score then success
  else if Qle_bool (5 # 10) score then warning
  else error_color.

(** The number in the chip's label,
    [Math.round(response.confidence_score * 100)]. *)
Definition confidence_percent (score : Q) : Z := Math_round (score * 100).

End QueryPageState.

(** ** The plain response display (components/ResponseDisplay.tsx, the
    variant with tooltips) *)

Module SimpleDisplay.
Import Exn Regex Types.

(** [/(\[\d+\])/g], the pattern the text is split by. *)
Definition splitPattern : regex :=
  Group (Seq (Lit "[") (Seq (Plus Digit) (Lit "]"))).

(** [/\[(\d+)\]/], the pattern a part is matched against. *)
Definition citationPattern : regex :=
  Seq (Lit "[") (Seq (Group (Plus Digit)) (Lit "]")).

(** A part is rendered to a reference under a tooltip, which shows
    [title] and activates the citation [target], or to a plain
    [<span>]. *)
Inductive node : Type :=
| CitationRef (key : nat) (title : str) (target : string) (children : str)
| PlainSpan (key : nat) (children : str).

Definition children_of (n : node) : str :=
  match n with
  | CitationRef _ _ _ s => s
  | PlainSpan _ s => s
  end.

(** The citation a part refers to, when it is a marker in range. *)
Definition cited (citations : list Citation) (part : str) : option Citation :=
  match exec citationPattern part with
  | Some (_, citationMatch) =>
      match parseInt (to_string (group1 citationMatch)) with
      | Some n =>
          let citationIndex := n - 1 in
          if (0 <=? citationIndex)
             && (citationIndex <? Z.of_nat (length citations))
          then citations !! Z.to_nat citationIndex
          else None
      | None => None
      end
  | None => None
  end.

Definition tooltip (c : Citation) : str :=
  lit "Click to view source: " ++ lit (document_title c).

(** What a part that is a string is rendered to. *)
Definition render_text (citations : list Citation) (index : nat) (part : str)
  : node :=
  match cited citations part with
  | Some c => CitationRef index (tooltip c) (chunk_id c) part
  | None => PlainSpan index part
  end.

(** The callback of [parts.map]; [part.match] throws on [undefined]. *)
Definition render_part (citations : list Citation) (index : nat)
  (part : option str) : result node :=
  match part with
  | None => Raise TypeError
  | Some part => Ok (render_text citations index part)
  end.

Definition renderResponseWithCitations (citations : list Citation) (text : str)
  : result (list node) :=
  ResponseDisplay.map_indexed (render_part citations) 0
    (split splitPattern text).

(** The HTML the Query page would hold for a node: its [<span>] around a
    reference, the text itself otherwise. *)
Definition to_html (n : node) : str :=
  match n with
  | CitationRef _ _ target part =>
      lit "<span class=" ++ QueryPage.dquote ++ lit "citation"
      ++ QueryPage.dquote ++ lit " data-citation-id=" ++ QueryPage.dquote
      ++ lit target ++ QueryPage.dquote ++ lit ">" ++ part ++ lit "</span>"
  | PlainSpan _ part => part
  end.

(** The citation of number [n], counted from 1. *)
Definition nth_citation (citations : list Citation) (n : Z) : option Citation :=
  if (1 <=? n) && (n <=? Z.of_nat (length citations))
  then citations !! Z.to_nat (n - 1)
  else None.

(** The HTML of the nodes that a list of parts is rendered to. *)
Definition parts_html (citations : list Citation) (parts : list str) : str :=
  concat (map (fun part => to_html (render_text citations 0 part)) parts).

(** No bare marker starts anywhere in [s]. *)
Definition unmarked (s : str) : Prop :=
  forall t, t `suffix_of` s -> QueryPage.bare_marker t = None.

End SimpleDisplay.

(** ** The upload form (components/FileUpload.tsx) *)

Module FileUpload.
Import JS.

Record File : Type := {
  name : string;
  size : Z
}.

(** A value of a [FormData] entry. *)
Inductive entry : Type :=
| Blob (f : File)
| Text (s : string).

Record State : Type := {
  file : option File;
  title : string;
  documentType : string;
  jurisdiction : string;
  date : string;
  uploading : bool;
  error : option string;
  success : option string
}.

Definition setFile (f : option File) (st : State) : State :=
  {| file := f; title := title st; documentType := documentType st;
     jurisdiction := jurisdiction st; date := date st;
     uploading := uploading st; error := error st; success := success st |}.

Definition setTitle (t : string) (st : State) : State :=
  {| file := file st; title := t; documentType := documentType st;
     jurisdiction := jurisdiction st; date := date st;
     uploading := uploading st; error := error st; success := success st |}.

Definition setUploading (b : bool) (st : State) : State :=
  {| file := file st; title := title st; documentType := documentType st;
     jurisdiction := jurisdiction st; date := date st;
     uploading := b; error := error st; success := success st |}.

Definition setError (e : option string) (st : State) : State :=
  {| file := file st; title := title st; documentType := documentType st;
     jurisdiction := jurisdiction st; date := date st;
     uploading := uploading st; error := e; success := success st |}.

Definition setSuccess (s : option string) (st : State) : State :=
  {| file := file st; title := title st; documentType := documentType st;
     jurisdiction := jurisdiction st; date := date st;
     uploading := uploading st; error := error st; success := s |}.

(** The five updates under the comment [Reset form]. *)
Definition reset_form (st : State) : State :=
  {| file := None; title := ""; documentType := ""; jurisdiction := "";
     date := ""; uploading := uploading st; error := error st;
     success := success st |}.

(** [handleFileChange], given [event.target.files]; the [title] it
    tests is the one of the state it was rendered with. *)
Definition handleFileChange (files : option (list File)) (st : State) : State :=
  match files with
  | Some (selectedFile :: _) =>
      let st1 := setFile (Some selectedFile) st in
      if negb (truthy (title st)) then setTitle (name selectedFile) st1
      else st1
  | _ => st
  end.

(** [formData.append(key, value)] when [value] is truthy. *)
Definition append_if (key value : string) (formData : list (string * entry))
  : list (string * entry) :=
  if truthy value then formData ++ [(key, Text value)] else formData.

(** The form data [handleUpload] builds for the file [f]. *)
Definition build_form (f : File) (st : State) : list (string * entry) :=
  append_if "date" (date st)
    (append_if "jurisdiction" (jurisdiction st)
       (append_if "document_type" (documentType st)
          (append_if "title" (title st) [("file", Blob f)]))).

(** [handleUpload]: the form data posted, and the state once every
    update is applied.  [onUploadSuccess] is the parent's callback; it
    runs inside the [try] block, so its [throw] is caught like a failed
    upload.  Clearing the file [<input>] of the page is left out. *)
Definition handleUpload
  (uploadDocument : list (string * entry) -> outcome Api.DocumentResponse)
  (onUploadSuccess : outcome unit) (st : State)
  : list (list (string * entry)) * State :=
  match file st with
  | None => ([], setError (Some "Please select a file to upload") st)
  | Some f =>
      let st1 := setSuccess None (setError None (setUploading true st)) in
      let formData := build_form f st in
      let failed :=
        setError (Some "Failed to upload document. Please try again.") in
      match uploadDocument formData with
      | Returns response =>
          let st2 :=
            setSuccess
              (Some ("Document uploaded successfully. ID: " +:+ Api.id response))
              st1 in
          match onUploadSuccess with
          | Returns _ => ([formData], setUploading false (reset_form st2))
          | Throws => ([formData], setUploading false (failed st2))
          end
      | Throws => ([formData], setUploading false (failed st1))
      end
  end.

(** *** Sample files and a sample form *)

Definition contract_pdf : File := {| name := "contract.pdf"; size := 2048 |}.
Definition nda_pdf : File := {| name := "nda.pdf"; size := 1024 |}.

Definition empty_form : State := {|
  file := None; title := ""; documentType := ""; jurisdiction := "";
  date := ""; uploading := false; error := None; success := None
|}.

Definition filled_form : State := {|
  file := Some contract_pdf; title := "Wilson Agreement";
  documentType := "Contract"; jurisdiction := ""; date := "";
  uploading := false; error := None; success := None
|}.

End FileUpload.

(** ** The documents page (pages/Documents.tsx) *)

Module DocumentsPage.
Import JS Documents.

(** The state of the component that deleting touches. *)
Record State : Type := {
  documents : list DocumentMetadata;
  deleteConfirmOpen : bool;
  documentToDelete : option string;
  error : option string
}.

Definition handleDeleteConfirm (id_ : string) (st : State) : State :=
  {| documents := documents st; deleteConfirmOpen := true;
     documentToDelete := Some id_; error := error st |}.

Definition handleDeleteCancel (st : State) : State :=
  {| documents := documents st; deleteConfirmOpen := false;
     documentToDelete := None; error := error st |}.

(** [prev.filter((doc) => doc.id !== documentToDelete)] *)
Definition without (target : string) (prev : list DocumentMetadata)
  : list DocumentMetadata :=
  List.filter (fun doc => negb (String.eqb (id doc) target)) prev.

(** [handleDelete]: the ids sent to [deleteDocument], and the state once
    every update is applied. *)
Definition handleDelete (deleteDocument : string -> outcome Api.DocumentResponse)
  (st : State) : list string * State :=
  if negb (truthy_opt (documentToDelete st)) then ([], st)
  else
    match documentToDelete st with
    | None => ([], st)   (* not reached: [null] is not truthy *)
    | Some target =>
        match deleteDocument target with
        | Returns _ =>
            ([target],
             {| documents := without target (documents st);
                deleteConfirmOpen := false; documentToDelete := None;
                error := error st |})
        | Throws =>
            ([target],
             {| documents := documents st;
                deleteConfirmOpen := false; documentToDelete := None;
                error := Some "Failed to delete document. Please try again." |})
        end
    end.

(** *** Sample documents *)

Definition wilson_doc : DocumentMetadata := {|
  id := "wilson"; filename := "wilson.pdf"; title := Some "Wilson Agreement";
  document_type := Some "Contract"; jurisdiction := None; date := None;
  uploaded_at := "2024-01-15"; status := "processed"; size := 2048
|}.

Definition nda_doc : DocumentMetadata := {|
  id := "nda"; filename := "nda.pdf"; title := None;
  document_type := None; jurisdiction := None; date := None;
  uploaded_at := "2024-01-16"; status := "processing"; size := 1024
|}.

Definition two_documents : State := {|
  documents := [wilson_doc; nda_doc]; deleteConfirmOpen := false;
  documentToDelete := None; error := None
|}.

End DocumentsPage.

(** ** The document viewer (components/DocumentViewer.tsx) *)

Module DocumentViewer.
Import JS Documents.

Record State : Type := {
  document : option DocumentMetadata;
  preview : string;
  loading : bool;
  previewLoading : bool;
  error : option string;
  downloading : bool
}.

(** The calls the component makes to the API service. *)
Inductive request : Type :=
| GetDocument (id_ : string)
| GetDocumentPreview (id_ : string)
| DownloadDocument (id_ : string) (name : string).

Definition setDocument (d : option DocumentMetadata) (st : State) : State :=
  {| document := d; preview := preview st; loading := loading st;
     previewLoading := previewLoading st; error := error st;
     downloading := downloading st |}.

Definition setPreview (p : string) (st : State) : State :=
  {| document := document st; preview := p; loading := loading st;
     previewLoading := previewLoading st; error := error st;
     downloading := downloading st |}.

Definition setLoading (b : bool) (st : State) : State :=
  {| document := document st; preview := preview st; loading := b;
     previewLoading := previewLoading st; error := error st;
     downloading := downloading st |}.

Definition setPreviewLoading (b : bool) (st : State) : State :=
  {| document := document st; preview := preview st; loading := loading st;
     previewLoading := b; error := error st;
     downloading := downloading st |}.

Definition setError (e : option string) (st : State) : State :=
  {| document := document st; preview := preview st; loading := loading st;
     previewLoading := previewLoading st; error := e;
     downloading := downloading st |}.

Definition setDownloading (b : bool) (st : State) : State :=
  {| document := document st; preview := preview st; loading := loading st;
     previewLoading := previewLoading st; error := error st;
     downloading := b |}.

Section WithApi.

Variable getDocument : string -> outcome DocumentMetadata.
Variable getDocumentPreview : string -> outcome string.
Variable downloadDocument : string -> string -> outcome unit.

(** [fetchDocument]: the requests made, and the state once every
    update is applied. *)
Definition fetchDocument (documentId : option string) (st : State)
  : list request * State :=
  match documentId with
  | Some documentId_ =>
      if negb (truthy documentId_) then ([], st)
      else
        let st1 := setError None (setLoading true st) in
        match getDocument documentId_ with
        | Returns documentData =>
            let st2 :=
              setPreviewLoading true (setDocument (Some documentData) st1) in
            let st3 :=
              match getDocumentPreview documentId_ with
              | Returns preview_ => setPreview preview_ st2
              | Throws =>
                  setPreview "Preview not available for this document type."
                    st2
              end in
            ([GetDocument documentId_; GetDocumentPreview documentId_],
             setLoading false (setPreviewLoading false st3))
        | Throws =>
            ([GetDocument documentId_],
             setLoading false
               (setError (Some "Failed to load document information.") st1))
        end
  | None => ([], st)
  end.

(** The effect that runs when [open] or [documentId] changes. *)
Definition effect (open : bool) (documentId : option string) (st : State)
  : list request * State :=
  if open && truthy_opt documentId then fetchDocument documentId st
  else ([], setError None (setPreview "" (setDocument None st))).

(** [document.title || document.filename || "document"] *)
Definition download_name (d : DocumentMetadata) : string :=
  if truthy_opt (title d) then default "" (title d)
  else if truthy (filename d) then filename d
  else "document".

Definition handleDownload (documentId : option string) (st : State)
  : list request * State :=
  match documentId, document st with
  | Some documentId_, Some d =>
      if negb (truthy documentId_) then ([], st)
      else
        let st1 := setDownloading true st in
        let request := DownloadDocument documentId_ (download_name d) in
        match downloadDocument documentId_ (download_name d) with
        | Returns _ => ([request], setDownloading false st1)
        | Throws =>
            ([request],
             setDownloading false
               (setError
                  (Some "Failed to download document. Please try again.") st1))
        end
  | _, _ => ([], st)
  end.

End WithApi.

(** *** A closed viewer, and an API that knows one document *)

Definition closed_viewer : State := {|
  document := None; preview := ""; loading := false;
  previewLoading := false; error := None; downloading := false
|}.

Definition only_wilson (id_ : string) : outcome DocumentMetadata :=
  if String.eqb id_ "wilson" then Returns DocumentsPage.wilson_doc else Throws.

End DocumentViewer.

(** ** Adding chunks to the collection: [add_documents] and
    [initialize_collection] (docs/user-guide/chromadbGuide.md) *)

Module VectorStore.
Import Py.

(** The values of a chunk dict. *)
Inductive value : Type :=
| Str (s : string)
| Vector (v : list Q).

(** The value of the expression [{...}] the guide gives for the
    metadata of a chunk. *)
Inductive metadata : Type := EllipsisSet.

(** The arguments of [collection.add]. *)
Record AddArgs : Type := {
  ids : list value;
  embeddings : list value;
  documents : list value;
  metadatas : list metadata
}.

(** [[chunk[key] for chunk in chunks]] *)
Fixpoint column (key : string) (chunks : list (gmap string value))
  : result (list value) :=
  match chunks with
  | [] => Ok []
  | chunk :: chunks' =>
      v ← getitem chunk key; vs ← column key chunks'; mret (v :: vs)
  end.

Section WithClient.

Context {Collection : Type}.

(** [client.get_collection] and [client.create_collection] for the name
    ["legal_documents"], and [collection.add]. *)
Variable get_collection : result Collection.
Variable create_collection : result Collection.
Variable collection_add : Collection -> AddArgs -> result unit.

(** [except Exception] catches whatever [get_collection] raises. *)
Definition initialize_collection : result Collection :=
  match get_collection with
  | Ok collection => Ok collection
  | Raise _ => create_collection
  end.

Definition add_documents (chunks : list (gmap string value)) : result unit :=
  collection ← initialize_collection;
  ids_ ← column "chunk_id" chunks;
  embeddings_ ← column "embedding" chunks;
  documents_ ← column "text" chunks;
  let metadatas_ := map (fun _ => EllipsisSet) chunks in
  collection_add collection
    {| ids := ids_; embeddings := embeddings_; documents := documents_;
       metadatas := metadatas_ |}.

End WithClient.

(** *** Sample chunks *)

Definition sample_chunk (cid txt : string) : gmap string value :=
  <["chunk_id" := Str cid]>
    (<["embedding" := Vector [1%Q; 0%Q]]> (<["text" := Str txt]> ∅)).

End VectorStore.

(** ** Properties of the retriever *)

Module RetrieverFacts.
Import Py Retriever.

(** *** The loop *)

Lemma for_each_invariant {A B} (P : B -> Prop) (body : B -> A -> result B)
  (xs : list A) :
  (forall acc x acc', P acc -> body acc x = Ok acc' -> P acc') ->
  forall acc r, P acc -> for_each body xs acc = Ok r -> P r.
Proof.
  intros Hstep. induction xs as [|x xs IH]; simpl; intros acc r Hacc Hrun.
  - congruence.
  - destruct (body acc x) as [acc'|e] eqn:Hb; simpl in Hrun; [|discriminate].
    eapply IH; [|exact Hrun]. eapply Hstep; eauto.
Qed.

Lemma format_step_meets results threshold chunks i chunks' :
  Forall (fun c => (threshold <= score c)%Q) chunks ->
  format_step results threshold chunks i = Ok chunks' ->
  Forall (fun c => (threshold <= score c)%Q) chunks'.
Proof.
  unfold format_step. intros Hall.
  destruct (distance_at results i) as [d|e]; simpl; [|discriminate].
  destruct (Qle_bool threshold (similarity d)) eqn:Hle; simpl.
  - destruct (make_chunk results i (similarity d)) as [c|e] eqn:Hc; simpl;
      [|discriminate].
    intros [= <-]. apply Forall_app. split; [exact Hall|].
    constructor; [|constructor].
    assert (score c = similarity d) as ->.
    { unfold make_chunk in Hc.
      repeat match type of Hc with
      | (mbind _ ?m) = _ => destruct m; simpl in Hc; [|discriminate]
      end.
      injection Hc as <-. reflexivity. }
    apply Qle_bool_iff. exact Hle.
  - intros [= <-]. exact Hall.
Qed.

Lemma format_results_meets results threshold chunks :
  format_results results threshold = Ok chunks ->
  Forall (fun c => (threshold <= score c)%Q) chunks.
Proof.
  unfold format_results.
  destruct (index (ids results) 0) as [row|e]; simpl; [|discriminate].
  apply for_each_invariant with (P := Forall (fun c => (threshold <= score c)%Q)).
  - intros acc x acc'. apply format_step_meets.
  - constructor.
Qed.

(** *** The sort *)

Lemma insert_desc_perm c l : insert_desc c l ≡ₚ c :: l.
Proof.
  induction l as [|d l IH]; simpl; [reflexivity|].
  destruct (Qle_bool (score d) (score c)); [reflexivity|].
  rewrite IH. apply Permutation_swap.
Qed.

Lemma sort_desc_perm l : sort_desc l ≡ₚ l.
Proof.
  induction l as [|c l IH]; simpl; [reflexivity|].
  rewrite insert_desc_perm, IH. reflexivity.
Qed.

Lemma insert_desc_sorted c l :
  StronglySorted desc l -> StronglySorted desc (insert_desc c l).
Proof.
  induction 1 as [|d l Hs IH Hd]; simpl.
  - repeat constructor.
  - destruct (Qle_bool (score d) (score c)) eqn:Hle.
    + apply Qle_bool_iff in Hle. constructor.
      * constructor; assumption.
      * constructor; [exact Hle|].
        eapply Forall_impl; [exact Hd|]. unfold desc. intros x Hx.
        eapply Qle_trans; eassumption.
    + constructor; [exact IH|].
      rewrite insert_desc_perm. constructor; [|exact Hd].
      unfold desc. apply Qlt_le_weak. apply Qnot_le_lt.
      intros Hle'. apply Qle_bool_iff in Hle'. congruence.
Qed.

Lemma sort_desc_sorted l : StronglySorted desc (sort_desc l).
Proof.
  induction l as [|c l IH]; simpl; [constructor|].
  apply insert_desc_sorted, IH.
Qed.

(** Stability: among the entries of any one score the input order stands. *)
Lemma insert_desc_stable q c l :
  List.filter (same_score q) (insert_desc c l)
  = List.filter (same_score q) (c :: l).
Proof.
  induction l as [|d l IH]; [reflexivity|].
  cbn [insert_desc].
  destruct (Qle_bool (score d) (score c)) eqn:Hle; [reflexivity|].
  cbn [List.filter] in *. rewrite IH.
  destruct (same_score q c) eqn:Hc, (same_score q d) eqn:Hd; try reflexivity.
  exfalso. unfold same_score in *.
  apply Qeq_bool_iff in Hc, Hd.
  assert (Qle_bool (score d) (score c) = true); [|congruence].
  apply Qle_bool_iff. rewrite Hc, Hd. apply Qle_refl.
Qed.

Lemma sort_desc_stable q l :
  List.filter (same_score q) (sort_desc l) = List.filter (same_score q) l.
Proof.
  induction l as [|c l IH]; [reflexivity|].
  cbn [sort_desc]. rewrite insert_desc_stable.
  cbn [List.filter]. rewrite IH. reflexivity.
Qed.

(** A list whose scores are all equal is left as it is. *)
Lemma insert_desc_head c l :
  Forall (fun d => (score d <= score c)%Q) l -> insert_desc c l = c :: l.
Proof.
  destruct 1 as [|d l Hd _]; [reflexivity|]. simpl.
  apply Qle_bool_iff in Hd. rewrite Hd. reflexivity.
Qed.

Lemma sort_desc_constant q l :
  Forall (fun c => (score c == q)%Q) l -> sort_desc l = l.
Proof.
  induction 1 as [|c l Hc Hl IH]; [reflexivity|].
  simpl. rewrite IH. apply insert_desc_head.
  eapply Forall_impl; [exact Hl|]. simpl. intros d Hd.
  rewrite Hc, Hd. apply Qle_refl.
Qed.

(** *** The slice *)

Lemma slice_to_nonneg {A} (l : list A) (n : Z) :
  0 <= n -> slice_to l n = take (Z.to_nat n) l.
Proof.
  intros Hn. unfold slice_to.
  destruct (0 <=? n) eqn:H; [reflexivity|]. lia.
Qed.

Lemma slice_to_length {A} (l : list A) (n : Z) :
  0 <= n -> Z.of_nat (length (slice_to l n)) <= n.
Proof.
  intros Hn. rewrite slice_to_nonneg by exact Hn.
  rewrite length_take. lia.
Qed.

Lemma slice_to_prefix {A} (l : list A) (n : Z) : slice_to l n `prefix_of` l.
Proof. unfold slice_to. destruct (0 <=? n); apply prefix_take. Qed.

Lemma StronglySorted_prefix {A} (R : A -> A -> Prop) (l1 l2 : list A) :
  l1 `prefix_of` l2 -> StronglySorted R l2 -> StronglySorted R l1.
Proof.
  intros [k ->]. induction l1 as [|x l1 IH]; simpl; intros Hs.
  - constructor.
  - inversion Hs as [|? ? Hs' Hx]; subst. constructor; [auto|].
    apply Forall_app in Hx. tauto.
Qed.

Lemma Forall_prefix {A} (P : A -> Prop) (l1 l2 : list A) :
  l1 `prefix_of` l2 -> Forall P l2 -> Forall P l1.
Proof. intros [k ->] H. apply Forall_app in H. tauto. Qed.

(** *** The loop on a well-formed answer *)

Lemma make_chunk_candidate results i d :
  well_formed results ->
  distance_at results i = Ok d ->
  (forall id_row, ids results !! 0%nat = Some id_row -> (i < length id_row)%nat) ->
  exists c, make_chunk results i (similarity d) = Ok c /\ candidate results i c.
Proof.
  intros (id_row & meta_row & doc_row & Hi & Hm & Hd & Hlm & Hld & Hkeys & _)
    Hdist Hlt.
  specialize (Hlt _ Hi).
  destruct (lookup_lt_is_Some_2 id_row i) as [cid Hcid]; [lia|].
  destruct (lookup_lt_is_Some_2 meta_row i) as [meta Hmeta]; [lia|].
  destruct (lookup_lt_is_Some_2 doc_row i) as [txt Htxt]; [lia|].
  rewrite Forall_lookup in Hkeys.
  destruct (Hkeys _ _ Hmeta) as [[did Hdid] [title Htitle]].
  eexists. split.
  - unfold make_chunk, index, getitem.
    rewrite Hi; simpl. rewrite Hcid; simpl. rewrite Hm; simpl.
    rewrite Hmeta; simpl. rewrite Hdid; simpl. rewrite Htitle; simpl.
    rewrite Hd; simpl. rewrite Htxt; simpl. reflexivity.
  - exists id_row, meta_row, doc_row, meta, d. simpl. tauto.
Qed.

Lemma distance_at_total results i :
  well_formed results ->
  (forall id_row, ids results !! 0%nat = Some id_row -> (i < length id_row)%nat) ->
  exists d, distance_at results i = Ok d.
Proof.
  intros (id_row & meta_row & doc_row & Hi & _ & _ & _ & _ & _ & Hdist) Hlt.
  specialize (Hlt _ Hi). unfold distance_at, index.
  destruct (distances results) as [ds|]; [|eauto].
  destruct Hdist as (row & Hrow & Hlen). rewrite Hrow; simpl.
  destruct (lookup_lt_is_Some_2 row i) as [d Hd]; [lia|].
  rewrite Hd. eauto.
Qed.

Lemma for_each_format results threshold idxs :
  well_formed results ->
  (forall i id_row, i ∈ idxs -> ids results !! 0%nat = Some id_row ->
     (i < length id_row)%nat) ->
  exists cands,
    Forall2 (candidate results) idxs cands /\
    forall acc, for_each (format_step results threshold) idxs acc
                = Ok (acc ++ List.filter (meets threshold) cands).
Proof.
  intros Hwf. induction idxs as [|i idxs IH]; intros Hlt.
  - exists []. split; [constructor|]. intros acc. simpl. rewrite app_nil_r.
    reflexivity.
  - destruct IH as (cands & Hc & Hrun).
    { intros j row Hj. apply Hlt. right. exact Hj. }
    destruct (distance_at_total results i Hwf) as [d Hd].
    { intros row. apply Hlt. left. }
    destruct (make_chunk_candidate results i d Hwf Hd) as (c & Hmk & Hcand).
    { intros row. apply Hlt. left. }
    exists (c :: cands). split; [constructor; assumption|].
    assert (score c = similarity d) as Hs.
    { destruct Hcand as (? & ? & ? & ? & d' & H).
      destruct H as (_ & _ & _ & _ & _ & _ & _ & _ & Hd' & Hs).
      rewrite Hd in Hd'. injection Hd' as <-. exact Hs. }
    intros acc.
    assert (format_step results threshold acc i
            = Ok (acc ++ List.filter (meets threshold) [c])) as Hstep.
    { unfold format_step. rewrite Hd; simpl. unfold meets. rewrite Hs.
      destruct (Qle_bool threshold (similarity d)); simpl.
      - rewrite Hmk. reflexivity.
      - rewrite app_nil_r. reflexivity. }
    cbn [for_each]. rewrite Hstep. simpl mbind. rewrite Hrun, <- app_assoc.
    f_equal. f_equal. simpl. destruct (meets threshold c); reflexivity.
Qed.

Lemma candidate_functional results i c c' :
  candidate results i c -> candidate results i c' -> c = c'.
Proof.
  intros (r1 & m1 & d1 & me1 & x1 & A1 & A2 & A3 & A4 & A5 & A6 & A7 & A8 & A9 & A10).
  intros (r2 & m2 & d2 & me2 & x2 & B1 & B2 & B3 & B4 & B5 & B6 & B7 & B8 & B9 & B10).
  destruct c, c'; simpl in *.
  rewrite A1 in B1. injection B1 as <-. rewrite A2 in B2. injection B2 as <-.
  rewrite A3 in B3. injection B3 as <-. rewrite A4 in B4. injection B4 as <-.
  rewrite A5 in B5. injection B5 as <-. rewrite A6 in B6. injection B6 as <-.
  rewrite A7 in B7. injection B7 as <-. rewrite A8 in B8. injection B8 as <-.
  rewrite A9 in B9. injection B9 as <-. rewrite A10, B10. reflexivity.
Qed.

Lemma candidates_functional results idxs l1 l2 :
  Forall2 (candidate results) idxs l1 ->
  Forall2 (candidate results) idxs l2 -> l1 = l2.
Proof.
  intros H1. revert l2.
  induction H1 as [|i c idxs l1 Hic _ IH]; intros l2 H2;
    inversion H2 as [|? c' ? l2' Hic' Hrest]; subst; [reflexivity|].
  f_equal; [eapply candidate_functional; eassumption|apply IH; exact Hrest].
Qed.

Lemma format_results_well_formed results :
  well_formed results ->
  exists id_row cands,
    ids results !! 0%nat = Some id_row /\
    length cands = length id_row /\
    (forall i c, cands !! i = Some c -> candidate results i c) /\
    forall threshold,
      format_results results threshold = Ok (List.filter (meets threshold) cands).
Proof.
  intros Hwf. pose proof Hwf as (id_row & _ & _ & Hi & _).
  exists id_row.
  assert (exists cands, Forall2 (candidate results) (seq 0 (length id_row)) cands /\
            forall threshold acc,
              for_each (format_step results threshold) (seq 0 (length id_row)) acc
              = Ok (acc ++ List.filter (meets threshold) cands))
    as (cands & Hc & Hrun).
  { destruct (for_each_format results 0%Q (seq 0 (length id_row)) Hwf)
      as (cands & Hc & _).
    { intros i row Hin Hrow. rewrite Hi in Hrow. injection Hrow as <-.
      apply elem_of_seq in Hin. lia. }
    exists cands. split; [exact Hc|]. intros threshold acc.
    destruct (for_each_format results threshold (seq 0 (length id_row)) Hwf)
      as (cands' & Hc' & Hrun').
    { intros i row Hin Hrow. rewrite Hi in Hrow. injection Hrow as <-.
      apply elem_of_seq in Hin. lia. }
    rewrite Hrun'. rewrite (candidates_functional _ _ _ _ Hc' Hc). reflexivity. }
  exists cands. split; [exact Hi|]. split; [|split].
  - apply Forall2_length in Hc. rewrite length_seq in Hc. lia.
  - intros i c Hl.
    destruct (Forall2_lookup_r _ _ _ _ _ Hc Hl) as (j & Hj & Hcand).
    apply lookup_seq in Hj. destruct Hj as [-> _]. exact Hcand.
  - intros threshold. unfold format_results, index. rewrite Hi; simpl.
    apply (Hrun threshold []).
Qed.

Lemma format_results_none_meet results threshold :
  none_meets results threshold -> format_results results threshold = Ok [].
Proof.
  intros (id_row & Hi & Hall). unfold format_results, index.
  rewrite Hi; simpl.
  assert (forall idxs acc, (forall i, i ∈ idxs -> (i < length id_row)%nat) ->
            for_each (format_step results threshold) idxs acc = Ok acc) as H.
  { induction idxs as [|i idxs IH]; intros acc Hlt; [reflexivity|].
    destruct (Hall i) as (d & Hd & Hlow); [apply Hlt; left|].
    assert (format_step results threshold acc i = Ok acc) as Hstep.
    { unfold format_step. rewrite Hd; simpl.
      destruct (Qle_bool threshold (similarity d)) eqn:Hle; [|reflexivity].
      apply Qle_bool_iff in Hle. exfalso. eapply Qlt_not_le; eassumption. }
    cbn [for_each]. rewrite Hstep. simpl mbind.
    apply IH. intros j Hj. apply Hlt. right. exact Hj. }
  apply H. intros i Hin. apply elem_of_seq in Hin. lia.
Qed.

(** *** Similarity *)

Lemma similarity_formula d : (similarity d == 1 - d / 2)%Q.
Proof. reflexivity. Qed.

Lemma similarity_half d : (similarity d == 1 - d * (1 # 2))%Q.
Proof. unfold similarity. field. Qed.

(** The score is in the unit interval exactly for distances in [0,2]. *)
Lemma similarity_unit_interval d :
  (0 <= similarity d /\ similarity d <= 1 <-> 0 <= d /\ d <= 2)%Q.
Proof.
  rewrite similarity_half. unfold Qle, Qmult, Qminus, Qplus, Qopp. simpl.
  destruct d as [n m]. simpl. lia.
Qed.

Lemma similarity_antitone d1 d2 :
  (d1 <= d2 -> similarity d2 <= similarity d1)%Q.
Proof.
  rewrite !similarity_half. unfold Qle, Qmult, Qminus, Qplus, Qopp. simpl.
  destruct d1 as [n1 m1], d2 as [n2 m2]. simpl. nia.
Qed.

(** *** The contract of [query_documents] *)

(** C1: for a non-negative [top_k], whatever [query_documents] returns has
    at most [top_k] entries, each with a score of at least the threshold,
    in descending order of score; on a well-formed answer of the backend
    it does return; and when no candidate reaches the threshold it returns
    the empty list, without raising. *)
Theorem query_documents_contract
  (collection_query : string -> Z -> option (gmap string string) ->
                      result QueryResult)
  (query_text : string) (filters : option (gmap string string))
  (top_k : Z) (threshold : Q) :
  0 <= top_k ->
  (forall out,
     query_documents collection_query query_text filters top_k threshold = Ok out ->
     Z.of_nat (length out) <= top_k /\
     Forall (fun c => (threshold <= score c)%Q) out /\
     StronglySorted desc out) /\
  (forall results,
     collection_query query_text (top_k * 2) (where_arg filters) = Ok results ->
     (well_formed results ->
      exists out,
        query_documents collection_query query_text filters top_k threshold = Ok out) /\
     (none_meets results threshold ->
      query_documents collection_query query_text filters top_k threshold = Ok [])).
Proof.
  intros Hk. split.
  - intros out. unfold query_documents.
    destruct (collection_query _ _ _) as [results|e]; simpl; [|discriminate].
    destruct (format_results results threshold) as [chunks|e] eqn:Hf; simpl;
      [|discriminate].
    intros [= <-]. split; [apply slice_to_length, Hk|]. split.
    + eapply Forall_prefix; [apply slice_to_prefix|].
      rewrite sort_desc_perm. apply format_results_meets with results. exact Hf.
    + eapply StronglySorted_prefix; [apply slice_to_prefix|].
      apply sort_desc_sorted.
  - intros results Hq. unfold query_documents. rewrite Hq; simpl. split.
    + intros Hwf.
      destruct (format_results_well_formed results Hwf)
        as (id_row & cands & _ & _ & _ & Hrun).
      rewrite Hrun; simpl. eauto.
    + intros Hnone. rewrite (format_results_none_meet _ _ Hnone); simpl.
      unfold slice_to. simpl. rewrite !take_nil. destruct (0 <=? top_k); reflexivity.
Qed.

Lemma query_documents_contract_witness :
  0 <= 5 /\
  ((forall out,
     query_documents (constant_collection sample_results) "termination" None 5
       (3 # 10)%Q = Ok out ->
     Z.of_nat (length out) <= 5 /\
     Forall (fun c => ((3 # 10) <= score c)%Q) out /\
     StronglySorted desc out) /\
  (forall results,
     constant_collection sample_results "termination" (5 * 2) (where_arg None)
       = Ok results ->
     (well_formed results ->
      exists out,
        query_documents (constant_collection sample_results) "termination" None 5
          (3 # 10)%Q = Ok out) /\
     (none_meets results (3 # 10)%Q ->
      query_documents (constant_collection sample_results) "termination" None 5
        (3 # 10)%Q = Ok []))).
Proof.
  split; [lia|].
  apply (query_documents_contract (constant_collection sample_results)
           "termination" None 5 (3 # 10)%Q).
  lia.
Defined.

(** C2 (the code does not clamp): a candidate at distance 3 gets the score
    1 - 3/2 = -1/2, and [query_documents] hands it out as it is when the
    threshold lets it through. *)
Theorem similarity_not_clamped :
  (similarity 3 == - (1 # 2))%Q /\
  exists c,
    query_documents (constant_collection far_results) "governing law" None 5
      (- (1))%Q = Ok [c] /\
    (score c == - (1 # 2))%Q /\ ~ (0 <= score c)%Q.
Proof.
  split; [reflexivity|].
  eexists. split; [vm_compute; reflexivity|]. simpl.
  split; [reflexivity|]. intros H. vm_compute in H. apply H. reflexivity.
Qed.

(** C8: [query_documents] asks the backend for [top_k * 2] results, keeps
    the candidates whose similarity reaches the threshold, sorts them by
    descending similarity with equal scores left in backend order, and
    returns the first [top_k]. *)
Theorem query_documents_pipeline
  (collection_query : string -> Z -> option (gmap string string) ->
                      result QueryResult)
  (query_text : string) (filters : option (gmap string string))
  (top_k : Z) (threshold : Q) (results : QueryResult) :
  collection_query query_text (top_k * 2) (where_arg filters) = Ok results ->
  well_formed results ->
  exists id_row cands,
    ids results !! 0%nat = Some id_row /\
    length cands = length id_row /\
    (forall i c, cands !! i = Some c -> candidate results i c) /\
    let kept := List.filter (meets threshold) cands in
    let sorted := sort_desc kept in
    query_documents collection_query query_text filters top_k threshold
      = Ok (slice_to sorted top_k) /\
    (forall c, c ∈ kept <-> c ∈ cands /\ (threshold <= score c)%Q) /\
    sorted ≡ₚ kept /\
    StronglySorted desc sorted /\
    (forall q, List.filter (same_score q) sorted = List.filter (same_score q) kept) /\
    (0 <= top_k -> slice_to sorted top_k = take (Z.to_nat top_k) sorted).
Proof.
  intros Hq Hwf.
  destruct (format_results_well_formed results Hwf)
    as (id_row & cands & Hi & Hlen & Hcand & Hrun).
  exists id_row, cands. split; [exact Hi|]. split; [exact Hlen|].
  split; [exact Hcand|]. cbv zeta. split; [|split; [|split; [|split; [|split]]]].
  - unfold query_documents. rewrite Hq; simpl. rewrite Hrun; simpl. reflexivity.
  - intros c. rewrite !list_elem_of_In, filter_In. unfold meets.
    rewrite Qle_bool_iff. reflexivity.
  - apply sort_desc_perm.
  - apply sort_desc_sorted.
  - intros q. apply sort_desc_stable.
  - apply slice_to_nonneg.
Qed.

Lemma query_documents_pipeline_witness :
  exists id_row cands,
    ids sample_results !! 0%nat = Some id_row /\
    length cands = length id_row /\
    (forall i c, cands !! i = Some c -> candidate sample_results i c) /\
    let kept := List.filter (meets (3 # 10)%Q) cands in
    let sorted := sort_desc kept in
    query_documents (constant_collection sample_results) "termination" None 1
      (3 # 10)%Q = Ok (slice_to sorted 1) /\
    (forall c, c ∈ kept <-> c ∈ cands /\ ((3 # 10) <= score c)%Q) /\
    sorted ≡ₚ kept /\
    StronglySorted desc sorted /\
    (forall q, List.filter (same_score q) sorted = List.filter (same_score q) kept) /\
    (0 <= 1 -> slice_to sorted 1 = take (Z.to_nat 1) sorted).
Proof.
  apply (query_documents_pipeline (constant_collection sample_results)
           "termination" None 1 (3 # 10)%Q sample_results).
  - reflexivity.
  - exists ["wilson_chunk_0"; "wilson_chunk_1"; "nda_chunk_0"],
      [sample_meta "wilson" "Wilson Agreement";
       sample_meta "wilson" "Wilson Agreement";
       sample_meta "nda" "Mutual NDA"],
      ["The Supplier shall deliver"; "Payment is due"; "Each party shall keep"].
    repeat split; try reflexivity.
    + repeat constructor; vm_compute; eauto.
    + simpl. eexists. split; reflexivity.
Defined.

(** C10: without a ["distances"] entry every candidate is given the
    distance 0.5, hence the similarity 0.75, and passes every threshold up
    to 0.75 (the default 0.3 among them): the answer is the first [top_k]
    candidates in backend order. *)
Theorem query_documents_default_distance
  (collection_query : string -> Z -> option (gmap string string) ->
                      result QueryResult)
  (query_text : string) (filters : option (gmap string string))
  (top_k : Z) (threshold : Q) (results : QueryResult) :
  collection_query query_text (top_k * 2) (where_arg filters) = Ok results ->
  well_formed results ->
  distances results = None ->
  (threshold <= 3 # 4)%Q ->
  exists id_row cands,
    ids results !! 0%nat = Some id_row /\
    length cands = length id_row /\
    (forall i c, cands !! i = Some c ->
       candidate results i c /\
       distance_at results i = Ok (5 # 10)%Q /\
       (score c == 3 # 4)%Q /\ (threshold <= score c)%Q) /\
    query_documents collection_query query_text filters top_k threshold
      = Ok (slice_to cands top_k).
Proof.
  intros Hq Hwf Hnone Hthr.
  destruct (format_results_well_formed results Hwf)
    as (id_row & cands & Hi & Hlen & Hcand & Hrun).
  assert (forall i c, cands !! i = Some c -> (score c == 3 # 4)%Q) as Hscore.
  { intros i c Hl. destruct (Hcand i c Hl) as (? & ? & ? & ? & d & H).
    destruct H as (_ & _ & _ & _ & _ & _ & _ & _ & Hd & ->).
    unfold distance_at in Hd. rewrite Hnone in Hd. injection Hd as <-.
    reflexivity. }
  exists id_row, cands. split; [exact Hi|]. split; [exact Hlen|]. split.
  - intros i c Hl. split; [apply Hcand, Hl|]. split.
    + unfold distance_at. rewrite Hnone. reflexivity.
    + split; [eapply Hscore, Hl|]. rewrite (Hscore i c Hl). exact Hthr.
  - unfold query_documents. rewrite Hq; simpl. rewrite Hrun; simpl.
    assert (Forall (fun c => (score c == 3 # 4)%Q) cands) as Hall.
    { apply Forall_lookup. exact Hscore. }
    assert (List.filter (meets threshold) cands = cands) as ->.
    { clear -Hall Hthr. induction Hall as [|c l Hc _ IH]; [reflexivity|].
      simpl. rewrite IH. unfold meets.
      assert (Qle_bool threshold (score c) = true) as ->; [|reflexivity].
      apply Qle_bool_iff. rewrite Hc. exact Hthr. }
    rewrite (sort_desc_constant _ _ Hall). reflexivity.
Qed.

Lemma query_documents_default_distance_witness :
  exists id_row cands,
    ids sample_results_no_distances !! 0%nat = Some id_row /\
    length cands = length id_row /\
    (forall i c, cands !! i = Some c ->
       candidate sample_results_no_distances i c /\
       distance_at sample_results_no_distances i = Ok (5 # 10)%Q /\
       (score c == 3 # 4)%Q /\ (default_threshold <= score c)%Q) /\
    query_documents (constant_collection sample_results_no_distances)
      "termination" None default_top_k default_threshold
      = Ok (slice_to cands default_top_k).
Proof.
  apply (query_documents_default_distance
           (constant_collection sample_results_no_distances)
           "termination" None default_top_k default_threshold
           sample_results_no_distances).
  - reflexivity.
  - exists ["wilson_chunk_0"; "wilson_chunk_1"; "nda_chunk_0"],
      [sample_meta "wilson" "Wilson Agreement";
       sample_meta "wilson" "Wilson Agreement";
       sample_meta "nda" "Mutual NDA"],
      ["The Supplier shall deliver"; "Payment is due"; "Each party shall keep"].
    repeat split; try reflexivity.
    repeat constructor; vm_compute; eauto.
  - reflexivity.
  - vm_compute. discriminate.
Defined.

End RetrieverFacts.

(** ** Properties of the matcher *)

Module RegexFacts.
Import Regex.

(** *** Unfolding [replace] and [split_loop] *)

Lemma replace_unfold r f s :
  replace r f s =
  match exec r s with
  | None => s
  | Some (pre, m) =>
      pre ++ f (matched m) (group1 m) ++
      match matched m, rest m with
      | _ :: _, _ => replace r f (rest m)
      | [], [] => []
      | [], c :: rest' => c :: replace r f rest'
      end
  end.
Proof.
  funelim (replace r f s);
    repeat match goal with
    | H : exec _ _ = _ |- _ => rewrite H
    | H : matched _ = _ |- _ => rewrite H
    | H : rest _ = _ |- _ => rewrite H
    end; try reflexivity.
  rewrite app_nil_r. reflexivity.
Qed.

Lemma split_loop_unfold r pending s :
  split_loop r pending s =
  match s with
  | [] => [Some pending]
  | c :: s' =>
      match match_here r s with
      | None => split_loop r (pending ++ [c]) s'
      | Some m =>
          match matched m, pending with
          | _ :: _, _ => Some pending :: group1 m :: split_loop r [] (rest m)
          | [], [] => split_loop r [c] s'
          | [], _ :: _ => Some pending :: group1 m :: split_loop r [] s
          end
      end
  end.
Proof.
  funelim (split_loop r pending s);
    repeat match goal with
    | H : match_here _ _ = _ |- _ => rewrite H
    | H : matched _ = _ |- _ => rewrite H
    end; reflexivity.
Qed.


Lemma match_all_unfold r s :
  match_all r s =
  match exec r s with
  | None => []
  | Some (pre, m) =>
      m :: match matched m, rest m with
           | _ :: _, _ => match_all r (rest m)
           | [], [] => []
           | [], c :: rest' => match_all r rest'
           end
  end.
Proof.
  funelim (match_all r s);
    repeat match goal with
    | H : exec _ _ = _ |- _ => rewrite H
    | H : matched _ = _ |- _ => rewrite H
    | H : rest _ = _ |- _ => rewrite H
    end; reflexivity.
Qed.

(** *** The fuel of a repetition is never used up

    [rmatch] gives a repetition the length of its input as fuel; any
    larger amount gives the same result, so no match is lost to it. *)

Section Fuel.
Context {R : Type}.

Lemma repeat_matcher_ext
  (atom : str -> option str -> (str -> option str -> option R) -> option R)
  fuel :
  (forall s cap k k', (forall s1 c1, k s1 c1 = k' s1 c1) ->
     atom s cap k = atom s cap k') ->
  forall s cap k k', (forall s1 c1, k s1 c1 = k' s1 c1) ->
    repeat_matcher atom fuel s cap k = repeat_matcher atom fuel s cap k'.
Proof.
  intros Hatom. induction fuel as [|fuel IH]; intros s cap k k' Hk;
    cbn [repeat_matcher]; [apply Hk|].
  rewrite (Hk s cap). f_equal. apply Hatom. intros s1 c1.
  destruct (length s1 <? length s)%nat; [|reflexivity]. apply IH, Hk.
Qed.

Lemma rmatch_ext r s cap (k k' : str -> option str -> option R) :
  (forall s1 c1, k s1 c1 = k' s1 c1) -> rmatch r s cap k = rmatch r s cap k'.
Proof.
  revert s cap k k'.
  induction r as [c| | |c|r1 IH1 r2 IH2|r1 IH1|r1 IH1|r1 IH1|r1 IH1];
    intros s cap k k' Hk; cbn [rmatch].
  1-4: destruct s as [|x s]; cbn [one]; [reflexivity|];
       match goal with |- context [if ?b then _ else _] => destruct b end;
       [apply Hk|reflexivity].
  - apply IH1. intros s1 c1. apply IH2, Hk.
  - apply repeat_matcher_ext; [exact IH1|exact Hk].
  - rewrite (Hk s cap). f_equal. apply IH1. intros s1 c1.
    destruct (length s1 <? length s)%nat; [apply Hk|reflexivity].
  - apply IH1. intros s1 c1. apply Hk.
  - apply IH1, Hk.
Qed.

Lemma rmatch_none r s cap : rmatch r s cap (fun _ _ => @None R) = None.
Proof.
  destruct (rmatch r s cap (fun _ _ => None)) as [x|] eqn:H; [|reflexivity].
  apply rmatch_forward in H as (s1 & c1 & _ & H). discriminate.
Qed.

Lemma repeat_matcher_fuel r fuel1 fuel2 s cap
  (k : str -> option str -> option R) :
  (length s <= fuel1)%nat -> (length s <= fuel2)%nat ->
  repeat_matcher (rmatch r) fuel1 s cap k
  = repeat_matcher (rmatch r) fuel2 s cap k.
Proof.
  revert fuel2 s cap.
  induction fuel1 as [|fuel1 IH]; intros fuel2 s cap H1 H2.
  - destruct s; [|simpl in H1; lia]. destruct fuel2 as [|fuel2]; [reflexivity|].
    cbn [repeat_matcher length].
    rewrite (rmatch_ext r [] cap _ (fun _ _ => None)), rmatch_none;
      [reflexivity|].
    intros s1 c1. reflexivity.
  - destruct fuel2 as [|fuel2].
    + destruct s; [|simpl in H2; lia]. cbn [repeat_matcher length].
      rewrite (rmatch_ext r [] cap _ (fun _ _ => None)), rmatch_none;
        [reflexivity|].
      intros s1 c1. reflexivity.
    + cbn [repeat_matcher]. f_equal. apply rmatch_ext. intros s1 c1.
      destruct (length s1 <? length s)%nat eqn:Hlt; [|reflexivity].
      apply Nat.ltb_lt in Hlt. apply IH; lia.
Qed.

Lemma star_fuel r fuel s cap (k : str -> option str -> option R) :
  (length s <= fuel)%nat ->
  repeat_matcher (rmatch r) fuel s cap k = rmatch (Star r) s cap k.
Proof. intros H. cbn [rmatch]. apply repeat_matcher_fuel; [exact H|lia]. Qed.

End Fuel.

(** *** Prefixes and suffixes by a predicate *)

Lemma take_drop_while {A} (p : A -> bool) (l : list A) :
  take_while p l ++ drop_while p l = l.
Proof.
  induction l as [|a l IH]; [reflexivity|]. simpl.
  destruct (p a); [simpl; rewrite IH|]; reflexivity.
Qed.

Lemma take_while_all {A} (p : A -> bool) (l : list A) :
  Forall (fun a => p a = true) (take_while p l).
Proof.
  induction l as [|a l IH]; simpl; [constructor|].
  destruct (p a) eqn:Hp; constructor; assumption.
Qed.

Lemma drop_while_head {A} (p : A -> bool) (l : list A) a l' :
  drop_while p l = a :: l' -> p a = false.
Proof.
  induction l as [|b l IH]; simpl; [discriminate|].
  destruct (p b) eqn:Hp; [exact IH|]. intros [= <- <-]. exact Hp.
Qed.

Lemma take_while_app_stop {A} (p : A -> bool) (l : list A) a l' :
  Forall (fun x => p x = true) l -> p a = false ->
  take_while p (l ++ a :: l') = l.
Proof.
  intros Hl Ha. induction Hl as [|x l Hx _ IH]; simpl.
  - rewrite Ha. reflexivity.
  - rewrite Hx, IH. reflexivity.
Qed.

Lemma drop_while_app_stop {A} (p : A -> bool) (l : list A) a l' :
  Forall (fun x => p x = true) l -> p a = false ->
  drop_while p (l ++ a :: l') = a :: l'.
Proof.
  intros Hl Ha. induction Hl as [|x l Hx _ IH]; simpl.
  - rewrite Ha. reflexivity.
  - rewrite Hx, IH. reflexivity.
Qed.

(** Appending something that starts outside [p] does not move the cut. *)
Lemma take_while_app_out {A} (p : A -> bool) (l : list A) a l' :
  p a = false -> take_while p (l ++ a :: l') = take_while p l.
Proof.
  intros Ha. induction l as [|x l IH]; simpl.
  - rewrite Ha. reflexivity.
  - destruct (p x); [rewrite IH|]; reflexivity.
Qed.

Lemma drop_while_app_out {A} (p : A -> bool) (l : list A) a l' :
  p a = false -> drop_while p (l ++ a :: l') = drop_while p l ++ a :: l'.
Proof.
  intros Ha. induction l as [|x l IH]; simpl.
  - rewrite Ha. reflexivity.
  - destruct (p x); [rewrite IH|]; reflexivity.
Qed.

Lemma take_length_diff {A} (a b l : list A) :
  l = a ++ b -> take (length l - length b) l = a.
Proof.
  intros ->. rewrite length_app, Nat.add_sub. apply take_app_length.
Qed.

(** *** Characters *)

Lemma digit_not_close c : is_digit c = true -> not_close c = true.
Proof.
  unfold not_close. destruct (Ascii.eqb_spec "]" c) as [<-|]; [|reflexivity].
  vm_compute. discriminate.
Qed.

Lemma digit_not_open c : is_digit c = true -> Ascii.eqb "[" c = false.
Proof.
  destruct (Ascii.eqb_spec "[" c) as [<-|]; [|reflexivity].
  vm_compute. discriminate.
Qed.

Lemma digit_is_not_close c : is_digit c = true -> Ascii.eqb "]" c = false.
Proof. intros H. apply digit_not_close in H. unfold not_close in H.
  destruct (Ascii.eqb "]" c); [discriminate|reflexivity]. Qed.

Lemma no_close_suffix b' b : b' `suffix_of` b -> no_close b -> no_close b'.
Proof. intros [pre ->] H. apply Forall_app in H. tauto. Qed.

(** *** Greedy repetition of a character class *)

Section Greedy.
Context {R : Type}.

Lemma repeat_class (p : ascii -> bool) fuel s cap
  (k : str -> option str -> option R) :
  (length s <= fuel)%nat ->
  repeat_matcher (fun s cap k => one p s (fun s' => k s' cap)) fuel s cap k
  = greedy p s (fun s1 => k s1 cap).
Proof.
  revert s. induction fuel as [|fuel IH]; intros s Hlen.
  - destruct s; [reflexivity|simpl in Hlen; lia].
  - cbn [repeat_matcher]. destruct s as [|c s]; [reflexivity|].
    cbn [one greedy]. destruct (p c); [|reflexivity].
    assert ((length s <? length (c :: s))%nat = true) as ->.
    { apply Nat.ltb_lt. simpl. lia. }
    rewrite IH by (simpl in Hlen; lia). reflexivity.
Qed.

Lemma star_digit s cap (k : str -> option str -> option R) :
  rmatch (Star Digit) s cap k = greedy is_digit s (fun s1 => k s1 cap).
Proof. cbn [rmatch]. apply repeat_class. reflexivity. Qed.

Lemma star_not_lit c s cap (k : str -> option str -> option R) :
  rmatch (Star (NotLit c)) s cap k
  = greedy (fun x => negb (Ascii.eqb c x)) s (fun s1 => k s1 cap).
Proof. cbn [rmatch]. apply repeat_class. reflexivity. Qed.

(** When the continuation refuses every input that starts with a [p]
    character, only the longest prefix can do. *)
Lemma greedy_longest p s (k : str -> option R) :
  (forall c t, p c = true -> k (c :: t) = None) ->
  greedy p s k = k (drop_while p s).
Proof.
  intros Hk. induction s as [|c s IH]; [reflexivity|].
  cbn [greedy drop_while]. destruct (p c) eqn:Hp; [|reflexivity].
  rewrite IH. rewrite (Hk _ _ Hp). destruct (k (drop_while p s)); reflexivity.
Qed.

(** An optional greedy repetition is the repetition itself: the empty
    round the option rejects is the one it then takes by skipping. *)
Lemma greedy_guarded p (s0 s : str) (k : str -> option R) :
  (length s <= length s0)%nat ->
  or_else
    (greedy p s (fun s1 => if (length s1 <? length s0)%nat then k s1 else None))
    (if (length s <? length s0)%nat then None else k s)
  = or_else (greedy p s k) (if (length s <? length s0)%nat then None else k s).
Proof.
  induction s as [|c s IH]; intros Hlen.
  - cbn [greedy]. destruct (length [] <? length s0)%nat eqn:E; [reflexivity|].
    destruct (k []); reflexivity.
  - cbn [greedy]. destruct (p c).
    + assert ((length s <? length s0)%nat = true) as Hs.
      { apply Nat.ltb_lt. simpl in Hlen. lia. }
      specialize (IH ltac:(simpl in Hlen; lia)). rewrite Hs in IH.
      destruct (greedy p s k) as [x|] eqn:Hg.
      * destruct (greedy p s (fun s1 => if (length s1 <? length s0)%nat
                                        then k s1 else None)) eqn:Hg';
          simpl in IH; [|discriminate]. simpl. exact IH.
      * destruct (greedy p s (fun s1 => if (length s1 <? length s0)%nat
                                        then k s1 else None)) eqn:Hg';
          simpl in IH; [discriminate|]. simpl.
        destruct (S (length s) <? length s0)%nat; [reflexivity|].
        destruct (k (c :: s)); reflexivity.
    + cbn [length]. destruct (S (length s) <? length s0)%nat; [reflexivity|].
      destruct (k (c :: s)); reflexivity.
Qed.

Lemma opt_greedy p s (k : str -> option R) :
  or_else
    (greedy p s (fun s1 => if (length s1 <? length s)%nat then k s1 else None))
    (k s)
  = greedy p s k.
Proof.
  pose proof (greedy_guarded p s s k (Nat.le_refl _)) as H.
  rewrite Nat.ltb_irrefl in H. rewrite H.
  assert (forall t, or_else (greedy p t k) (k t) = greedy p t k) as Hidem.
  { intros t. destruct t as [|c t]; cbn [greedy].
    - destruct (k []); reflexivity.
    - destruct (p c); [|destruct (k (c :: t)); reflexivity].
      destruct (greedy p t k); [reflexivity|]. simpl.
      destruct (k (c :: t)); reflexivity. }
  apply Hidem.
Qed.

(** A character outside [p] at the front: no round at all. *)
Lemma greedy_stop p s (k : str -> option R) :
  match s with c :: _ => p c = false | [] => True end ->
  greedy p s k = k s.
Proof. destruct s as [|c s]; [reflexivity|]. simpl. intros ->. reflexivity. Qed.

Lemma greedy_run_stop p b e post (k : str -> option R) :
  Forall (fun c => p c = true) b -> p e = false ->
  (forall c t, p c = true -> k (c :: t) = None) ->
  greedy p (b ++ e :: post) k = k (e :: post).
Proof.
  intros Hb He Hk. rewrite greedy_longest by exact Hk.
  rewrite drop_while_app_stop by assumption. reflexivity.
Qed.

(** Scanning a run of [p] characters for a place where [k] accepts: [k]
    accepts exactly where a [q] character stands, always with [x]. *)
Lemma greedy_scan p q b e post (k : str -> option R) x :
  Forall (fun c => p c = true) b -> p e = false ->
  (forall b', b' `suffix_of` b ->
     k (b' ++ e :: post)
     = if match b' with c :: _ => q c | [] => false end then Some x else None) ->
  greedy p (b ++ e :: post) k = if existsb q b then Some x else None.
Proof.
  intros Hb He. induction Hb as [|c b Hc _ IH]; intros Hk.
  - cbn [app greedy existsb]. rewrite He. apply (Hk []). reflexivity.
  - cbn [app greedy existsb]. rewrite Hc.
    rewrite IH.
    2:{ intros b' Hsuf. apply Hk. apply suffix_cons_r. exact Hsuf. }
    pose proof (Hk (c :: b) ltac:(reflexivity)) as H. cbn [app] in H.
    rewrite H. destruct (existsb q b), (q c); reflexivity.
Qed.

(** The last place of a run where [k] accepts is the one that is taken. *)
Lemma greedy_last_hit p b1 d b2 e post (k : str -> option R) x :
  Forall (fun c => p c = true) b1 -> p d = true ->
  Forall (fun c => p c = true) b2 -> p e = false ->
  k (d :: b2 ++ e :: post) = Some x ->
  (forall b', b' `suffix_of` b2 -> k (b' ++ e :: post) = None) ->
  greedy p (b1 ++ d :: b2 ++ e :: post) k = Some x.
Proof.
  intros Hb1 Hd Hb2 He Hhit Hmiss.
  assert (greedy p (b2 ++ e :: post) k = None) as Hnone.
  { clear Hhit. induction Hb2 as [|c b2 Hc _ IH].
    - cbn [app greedy]. rewrite He. apply (Hmiss []). reflexivity.
    - cbn [app greedy]. rewrite Hc. rewrite IH.
      + simpl. apply (Hmiss (c :: b2)). reflexivity.
      + intros b' Hsuf. apply Hmiss. apply suffix_cons_r. exact Hsuf. }
  induction Hb1 as [|c b1 Hc _ IH].
  - cbn [app greedy]. rewrite Hd, Hnone. exact Hhit.
  - cbn [app greedy]. rewrite Hc, IH. reflexivity.
Qed.

(** When [k] accepts wherever the scan may stop, the longest prefix wins. *)
Lemma greedy_invariant (P : str -> Prop) p s (k : str -> option R) x :
  P s ->
  (forall c t, P (c :: t) -> p c = true -> P t) ->
  (forall u, P u -> k u = Some x) ->
  greedy p s k = Some x.
Proof.
  intros Hs Hstep Hk. induction s as [|c s IH]; cbn [greedy].
  - apply Hk, Hs.
  - destruct (p c) eqn:Hp; [|apply Hk, Hs].
    rewrite IH; [reflexivity|]. eapply Hstep; eassumption.
Qed.

(** One step of the matcher on each form of pattern. *)
Lemma rmatch_seq r1 r2 s cap (k : str -> option str -> option R) :
  rmatch (Seq r1 r2) s cap k
  = rmatch r1 s cap (fun s1 cap1 => rmatch r2 s1 cap1 k).
Proof. reflexivity. Qed.

Lemma rmatch_group r s cap (k : str -> option str -> option R) :
  rmatch (Group r) s cap k
  = rmatch r s cap (fun s1 _ => k s1 (Some (take (length s - length s1) s))).
Proof. reflexivity. Qed.

Lemma rmatch_lit c s cap (k : str -> option str -> option R) :
  rmatch (Lit c) s cap k = one (Ascii.eqb c) s (fun s' => k s' cap).
Proof. reflexivity. Qed.

Lemma rmatch_digit s cap (k : str -> option str -> option R) :
  rmatch Digit s cap k = one is_digit s (fun s' => k s' cap).
Proof. reflexivity. Qed.

Lemma opt_star_not_lit c s cap (k : str -> option str -> option R) :
  rmatch (Opt (NonCapture (Star (NotLit c)))) s cap k
  = greedy (fun x => negb (Ascii.eqb c x)) s (fun s1 => k s1 cap).
Proof.
  cbn [rmatch]. rewrite repeat_class by reflexivity. apply opt_greedy.
Qed.

Lemma star_space s cap (k : str -> option str -> option R) :
  rmatch (Star Space) s cap k = greedy is_space s (fun s1 => k s1 cap).
Proof. cbn [rmatch]. apply repeat_class. reflexivity. Qed.

(** The rest of a marker after its opening bracket, as the response
    display and the citation resolver have it: an optional run without a
    closing bracket, the captured digits, another such run, the closing
    bracket.  On a token whose last digit is [d] the capture is [d]
    alone. *)
Lemma marker_tail (k : str -> option str -> option R) b1 d b2 post cap x :
  no_close b1 -> is_digit d = true -> no_close b2 -> no_digit b2 ->
  k post (Some [d]) = Some x ->
  rmatch (Seq (Opt (NonCapture (Star (NotLit "]"))))
         (Seq (Group (Plus Digit))
         (Seq (Opt (NonCapture (Star (NotLit "]"))))
              (Lit "]"))))
    (b1 ++ d :: b2 ++ close :: post) cap k
  = Some x.
Proof.
  intros Hb1 Hd Hb2 Hnd Hk.
  rewrite rmatch_seq, opt_star_not_lit.
  apply greedy_last_hit;
    [exact Hb1|apply digit_not_close, Hd|exact Hb2|reflexivity|..].
  - rewrite rmatch_seq, rmatch_group. unfold Plus.
    rewrite rmatch_seq, rmatch_digit. cbn [one]. rewrite Hd.
    rewrite star_digit. rewrite greedy_stop.
    2:{ destruct Hnd; simpl; [reflexivity|assumption]. }
    rewrite rmatch_seq, opt_star_not_lit.
    rewrite greedy_run_stop; [|exact Hb2|reflexivity|].
    + rewrite rmatch_lit. cbn [one]. change (Ascii.eqb "]" close) with true.
      cbv iota.
      rewrite (take_length_diff [d] (b2 ++ close :: post)) by reflexivity.
      exact Hk.
    + intros c t Hc. rewrite rmatch_lit. cbn [one].
      destruct (Ascii.eqb "]" c); [discriminate|reflexivity].
  - intros b' Hsuf. rewrite rmatch_seq, rmatch_group. unfold Plus.
    rewrite rmatch_seq, rmatch_digit.
    destruct b' as [|c b'']; [reflexivity|]. cbn [app one].
    assert (is_digit c = false) as ->; [|reflexivity].
    destruct Hsuf as [pre ->]. unfold no_digit in Hnd.
    apply Forall_app in Hnd as [_ Hnd]. inversion Hnd; assumption.
Qed.

End Greedy.

End RegexFacts.

(** ** Properties of the Query page's renderer *)

Module QueryPageFacts.
Import Regex RegexFacts Types QueryPage.

Lemma match_here_bare s :
  match_here citationPattern s =
  match bare_marker s with
  | Some (ds, post) => Some (marker_match ds post)
  | None => None
  end.
Proof.
  unfold match_here, citationPattern, Plus, bare_marker.
  destruct s as [|c t]; [reflexivity|].
  cbn [rmatch one]. destruct (Ascii.eqb "[" c) eqn:Hc; [|reflexivity].
  apply Ascii.eqb_eq in Hc. subst c.
  destruct t as [|d t']; [reflexivity|].
  cbn [one take_while drop_while]. destruct (is_digit d) eqn:Hd; [|reflexivity].
  rewrite repeat_class by reflexivity.
  rewrite greedy_longest.
  2:{ intros c u Hcu. cbn [one]. rewrite (digit_is_not_close _ Hcu). reflexivity. }
  pose proof (take_drop_while is_digit t') as Hsplit.
  destruct (drop_while is_digit t') as [|e post] eqn:Hdrop.
  - reflexivity.
  - cbn [one]. destruct (Ascii.eqb "]" e) eqn:He; [|reflexivity].
    apply Ascii.eqb_eq in He. subst e.
    unfold marker_match. remember (take_while is_digit t') as ds eqn:Hds.
    clear Hds Hdrop. subst t'.
    rewrite (take_length_diff ("["%char :: d :: ds ++ ["]"%char]) post
               ("["%char :: d :: ds ++ "]"%char :: post)).
    2:{ simpl. rewrite <- app_assoc. reflexivity. }
    rewrite (take_length_diff (d :: ds) ("]"%char :: post)
               (d :: ds ++ "]"%char :: post)) by reflexivity.
    reflexivity.
Qed.

Lemma bare_marker_digits ds post :
  ds <> [] -> Forall (fun c => is_digit c = true) ds ->
  bare_marker ("["%char :: ds ++ "]"%char :: post) = Some (ds, post).
Proof.
  intros Hne Hds. unfold bare_marker. cbn [Ascii.eqb]. 
  change (Ascii.eqb "[" "[") with true. cbv iota.
  rewrite take_while_app_stop, drop_while_app_stop by (assumption || reflexivity).
  destruct ds as [|d ds]; [congruence|]. reflexivity.
Qed.

(** In front of an opening bracket a string matches as it does alone. *)
Lemma bare_marker_app c s w :
  bare_marker ((c :: s) ++ "["%char :: w)
  = match bare_marker (c :: s) with
    | Some (ds, post) => Some (ds, post ++ "["%char :: w)
    | None => None
    end.
Proof.
  unfold bare_marker. cbn [app]. destruct (Ascii.eqb "[" c); [|reflexivity].
  rewrite take_while_app_out, drop_while_app_out by reflexivity.
  destruct (take_while is_digit s) as [|d ds]; [reflexivity|].
  destruct (drop_while is_digit s) as [|e post]; [reflexivity|].
  cbn [app]. destruct (Ascii.eqb "]" e); reflexivity.
Qed.

Lemma exec_before_marker pre ds post :
  ds <> [] -> Forall (fun c => is_digit c = true) ds ->
  exec citationPattern (pre ++ "["%char :: ds ++ "]"%char :: post)
  = match exec citationPattern pre with
    | Some (p, m) => Some (p, extend ("["%char :: ds ++ "]"%char :: post) m)
    | None => Some (pre, marker_match ds post)
    end.
Proof.
  intros Hne Hds. induction pre as [|c pre IH].
  - cbn [app exec]. rewrite !match_here_bare.
    rewrite (bare_marker_digits ds post Hne Hds). reflexivity.
  - rewrite <- app_comm_cons. cbn [exec]. rewrite !match_here_bare.
    rewrite (app_comm_cons pre _ c) at 1. rewrite bare_marker_app.
    destruct (bare_marker (c :: pre)) as [[ds' post']|]; [reflexivity|].
    rewrite IH. destruct (exec citationPattern pre) as [[p m]|]; reflexivity.
Qed.

Lemma exec_matched_nonempty s p m :
  exec citationPattern s = Some (p, m) -> exists a w, matched m = a :: w.
Proof.
  revert p. induction s as [|c s IH]; intros p; cbn [exec];
    rewrite match_here_bare.
  - simpl. discriminate.
  - destruct (bare_marker (c :: s)) as [[ds post]|].
    + intros [= <- <-]. simpl. eauto.
    + destruct (exec citationPattern s) as [[p' m']|]; [|discriminate].
      intros [= <- <-]. eapply IH. reflexivity.
Qed.

(** The renderer works marker by marker: around a bare marker, the text
    before it and the text after it are rendered on their own. *)
Lemma render_around_marker citations pre ds post :
  ds <> [] -> all_digits ds ->
  renderResponseWithCitations (pre ++ token ds ++ post) citations
  = renderResponseWithCitations pre citations
    ++ replacer citations (token ds) (Some ds)
    ++ renderResponseWithCitations post citations.
Proof.
  intros Hne Hds. unfold renderResponseWithCitations, token, open, close.
  rewrite <- app_comm_cons, <- app_assoc. cbn [app].
  remember (length pre) as n eqn:Hn. revert pre Hn.
  induction n as [n IH] using lt_wf_ind. intros pre ->.
  rewrite (replace_unfold _ _ (pre ++ _)), (replace_unfold _ _ pre).
  rewrite (exec_before_marker pre ds post Hne Hds).
  destruct (exec citationPattern pre) as [[p m]|] eqn:He.
  - destruct (exec_matched_nonempty _ _ _ He) as (a & w & Hm).
    pose proof (exec_split _ _ _ _ He) as Hsplit.
    cbn [extend matched group1 rest]. rewrite Hm.
    rewrite (IH (length (rest m))) with (pre := rest m); [|..|reflexivity].
    + rewrite <- !app_assoc. reflexivity.
    + rewrite Hsplit, Hm, !length_app. simpl. lia.
  - cbn [marker_match matched group1 rest]. reflexivity.
Qed.

(** *** Tokens that are not bare markers *)

Lemma exec_none s :
  (forall t, t `suffix_of` s -> bare_marker t = None) ->
  exec citationPattern s = None.
Proof.
  induction s as [|c s IH]; intros Hnone; cbn [exec]; rewrite match_here_bare.
  - reflexivity.
  - rewrite (Hnone (c :: s)) by reflexivity.
    rewrite IH; [reflexivity|].
    intros t Hsuf. apply Hnone. apply suffix_cons_r. exact Hsuf.
Qed.

Lemma bare_marker_no_open s :
  match s with c :: _ => Ascii.eqb "[" c = false | [] => True end ->
  bare_marker s = None.
Proof. destruct s as [|c s]; [reflexivity|]. simpl. intros ->. reflexivity. Qed.

(** A token with something other than digits between its brackets. *)
Lemma bare_marker_decorated body post :
  no_close body -> existsb (fun c => negb (is_digit c)) body = true ->
  bare_marker ("["%char :: body ++ "]"%char :: post) = None.
Proof.
  intros Hclose Hdec. unfold bare_marker.
  change (Ascii.eqb "[" "[") with true. cbv iota.
  pose proof (take_drop_while is_digit body) as Hsplit.
  destruct (drop_while is_digit body) as [|x tail] eqn:Hdrop.
  - exfalso. rewrite app_nil_r in Hsplit.
    pose proof (take_while_all is_digit body) as Hall. rewrite Hsplit in Hall.
    apply existsb_exists in Hdec as (c & Hin & Hc).
    rewrite Forall_forall in Hall. apply list_elem_of_In in Hin.
    rewrite (Hall c Hin) in Hc. discriminate.
  - pose proof (drop_while_head _ _ _ _ Hdrop) as Hx.
    rewrite (drop_while_app_out is_digit body "]"%char post) by reflexivity.
    rewrite Hdrop. cbn [app].
    assert (Ascii.eqb "]" x = false) as ->.
    { unfold no_close in Hclose. rewrite <- Hsplit in Hclose.
      apply Forall_app in Hclose as [_ Hclose].
      inversion Hclose as [|? ? Hxc _]; subst.
      destruct (Ascii.eqb "]" x); [discriminate|reflexivity]. }
    destruct (take_while is_digit (body ++ "]"%char :: post)); reflexivity.
Qed.

Lemma render_decorated citations body :
  no_open body -> no_close body ->
  existsb (fun c => negb (is_digit c)) body = true ->
  renderResponseWithCitations (token body) citations = token body.
Proof.
  intros Hopen Hclose Hdec. unfold renderResponseWithCitations, token, open, close.
  rewrite replace_unfold, exec_none; [reflexivity|].
  intros t Hsuf. destruct t as [|c t]; [reflexivity|].
  apply suffix_cons_inv in Hsuf as [Heq|Hsuf].
  - rewrite Heq. apply bare_marker_decorated; assumption.
  - apply bare_marker_no_open. destruct Hsuf as [pre Heq].
    assert (c ∈ body ++ ["]"%char]) as Hin.
    { rewrite Heq. apply list_elem_of_In, in_or_app. right. left. reflexivity. }
    apply elem_of_app in Hin as [Hin|Hin].
    + unfold no_open in Hopen. rewrite Forall_forall in Hopen. apply Hopen, Hin.
    + apply list_elem_of_singleton in Hin. subst c. reflexivity.
Qed.

(** *** Numbers *)

Lemma parseInt_digits ds :
  ds <> [] -> Forall (fun c => is_digit c = true) ds ->
  exists n, parseInt ds = Some n /\ 0 <= n.
Proof.
  intros Hne Hds. unfold parseInt.
  assert (take_while is_digit ds = ds) as ->.
  { clear Hne. induction Hds as [|c ds Hc _ IH]; [reflexivity|].
    simpl. rewrite Hc, IH. reflexivity. }
  destruct ds as [|d ds]; [congruence|]. eexists. split; [reflexivity|].
  assert (forall l acc, Forall (fun c => is_digit c = true) l -> 0 <= acc ->
            0 <= fold_left (fun acc c => 10 * acc + digit_value c) l acc) as H.
  { induction l as [|c l IH]; intros acc Hl Hacc; [exact Hacc|].
    simpl. inversion Hl as [|? ? Hc Hl']; subst. apply IH; [exact Hl'|].
    unfold digit_value, is_digit in *.
    apply andb_true_iff in Hc as [Hc1 Hc2].
    apply Nat.leb_le in Hc1, Hc2. lia. }
  apply H; [exact Hds|lia].
Qed.

(** The replacer leaves a marker as it is unless its number is in range. *)
Lemma replacer_out_of_range citations match_ ds n :
  parseInt ds = Some n ->
  ~ (1 <= n <= Z.of_nat (length citations)) ->
  replacer citations match_ (Some ds) = match_.
Proof.
  intros Hn Hout. unfold replacer. cbn [to_string]. rewrite Hn.
  destruct ((0 <=? n - 1) && (n - 1 <? Z.of_nat (length citations))) eqn:Hr;
    [|reflexivity].
  exfalso. apply Hout. lia.
Qed.

(** Inside the range test, [citations[index]] is there. *)
Lemma replacer_lookup (citations : list Citation) (n : Z) :
  (0 <=? n - 1) && (n - 1 <? Z.of_nat (length citations)) = true ->
  is_Some (citations !! Z.to_nat (n - 1)).
Proof.
  intros H. apply andb_true_iff in H as [H1 H2].
  apply Z.leb_le in H1. apply Z.ltb_lt in H2.
  apply lookup_lt_is_Some. lia.
Qed.

End QueryPageFacts.

(** ** Properties of the response display's renderer *)

Module ResponseDisplayFacts.
Import Exn Regex RegexFacts Types ResponseDisplay.

(** *** Splitting keeps the text *)

(** The group of [splitPattern] spans the whole pattern: what it captures
    is the matched text. *)
Lemma group_whole r s m :
  match_here (Group r) s = Some m -> group1 m = Some (matched m).
Proof.
  unfold match_here. cbn [rmatch]. intros H.
  apply rmatch_forward in H as (s1 & cap1 & _ & H).
  injection H as <-. reflexivity.
Qed.

Lemma split_group_whole s m :
  match_here splitPattern s = Some m -> group1 m = Some (matched m).
Proof. apply group_whole. Qed.

Lemma split_loop_parts pending s :
  exists parts,
    split_loop splitPattern pending s = map Some parts /\
    concat parts = pending ++ s.
Proof.
  remember (2 * length s + (if pending is [] then 0 else 1))%nat as n eqn:Hn.
  revert pending s Hn. induction n as [n IH] using lt_wf_ind.
  intros pending s ->. rewrite split_loop_unfold.
  destruct s as [|c s'].
  - exists [pending]. simpl. rewrite !app_nil_r. split; reflexivity.
  - destruct (match_here splitPattern (c :: s')) as [m|] eqn:Hm.
    + pose proof (split_group_whole _ _ Hm) as Hg.
      pose proof (match_here_split _ _ _ Hm) as Hs.
      destruct (matched m) as [|a w] eqn:Hw.
      * destruct pending as [|b pending'].
        -- edestruct (IH (2 * length s' + 1)%nat) with (pending := [c]) (s := s')
             as (parts & Hp & Hc); [simpl; lia|reflexivity|].
           exists parts. split; [exact Hp|]. rewrite Hc. reflexivity.
        -- edestruct (IH (2 * length (c :: s') + 0)%nat)
             with (pending := @nil ascii) (s := c :: s')
             as (parts & Hp & Hc); [simpl; lia|reflexivity|].
           exists ((b :: pending') :: [] :: parts). rewrite Hg. split.
           ++ simpl. rewrite Hp. reflexivity.
           ++ simpl. rewrite Hc. reflexivity.
      * edestruct (IH (2 * length (rest m) + 0)%nat)
          with (pending := @nil ascii) (s := rest m)
          as (parts & Hp & Hc); [|reflexivity|].
        { apply (f_equal length) in Hs. rewrite length_app in Hs.
          simpl in Hs. destruct pending; simpl; lia. }
        exists (pending :: (a :: w) :: parts). rewrite Hg. split.
        -- simpl. rewrite Hp. reflexivity.
        -- cbn [concat]. rewrite Hc, Hs. reflexivity.
    + edestruct (IH (2 * length s' + 1)%nat) with (pending := pending ++ [c])
        (s := s') as (parts & Hp & Hc); [| |].
      { destruct pending; simpl; lia. }
      { destruct pending; reflexivity. }
      exists parts. split; [exact Hp|]. rewrite Hc, <- app_assoc. reflexivity.
Qed.

Lemma split_parts text :
  exists parts,
    split splitPattern text = map Some parts /\ concat parts = text.
Proof.
  destruct text as [|c s].
  - exists [[]]. split; reflexivity.
  - apply (split_loop_parts [] (c :: s)).
Qed.

(** *** What the two patterns match *)

Lemma closing_tail (k : str -> option str -> option match_result) b post cap :
  no_close b ->
  rmatch (Seq (Star (NotLit "]")) (Lit "]")) (b ++ close :: post) cap k
  = k post cap.
Proof.
  intros Hb. rewrite rmatch_seq, star_not_lit.
  rewrite greedy_run_stop; [reflexivity|exact Hb|reflexivity|].
  intros c t Hc. rewrite rmatch_lit. cbn [one].
  destruct (Ascii.eqb "]" c); [discriminate|reflexivity].
Qed.

Lemma closing_tail_opt (k : str -> option str -> option match_result) b post cap :
  no_close b ->
  rmatch (Seq (Opt (NonCapture (Star (NotLit "]")))) (Lit "]"))
    (b ++ close :: post) cap k
  = k post cap.
Proof.
  intros Hb. rewrite rmatch_seq, opt_star_not_lit.
  rewrite greedy_run_stop; [reflexivity|exact Hb|reflexivity|].
  intros c t Hc. rewrite rmatch_lit. cbn [one].
  destruct (Ascii.eqb "]" c); [discriminate|reflexivity].
Qed.

(** [splitPattern] matches at an opening bracket exactly when a digit
    stands before the next closing bracket, and then takes the token up
    to that bracket. *)
Lemma match_here_token body post :
  no_close body ->
  match_here splitPattern (token body ++ post)
  = if existsb is_digit body
    then Some {| matched := token body; group1 := Some (token body);
                 rest := post |}
    else None.
Proof.
  intros Hbody. unfold match_here, splitPattern, token.
  rewrite <- app_comm_cons, <- app_assoc. cbn [app].
  rewrite rmatch_group, rmatch_seq, rmatch_lit. cbn [one].
  change (Ascii.eqb "[" open) with true. cbv iota.
  rewrite rmatch_seq, star_not_lit.
  apply greedy_scan; [exact Hbody|reflexivity|].
  intros b' Hsuf. pose proof (no_close_suffix _ _ Hsuf Hbody) as Hb'.
  unfold Plus. rewrite !rmatch_seq, rmatch_digit.
  destruct b' as [|c b'']; [reflexivity|]. cbn [app one].
  destruct (is_digit c) eqn:Hc; [|reflexivity].
  rewrite star_digit.
  apply greedy_invariant
    with (P := fun u => exists b3, no_close b3 /\ u = b3 ++ close :: post).
  - exists b''. split; [|reflexivity]. inversion Hb'; assumption.
  - intros c' t (b3 & Hb3 & Heq) Hc'. destruct b3 as [|c3 b3].
    + injection Heq as -> ->. discriminate.
    + injection Heq as -> ->. exists b3. split; [|reflexivity].
      inversion Hb3; assumption.
  - intros u (b3 & Hb3 & ->). rewrite (closing_tail _ b3 post None Hb3).
    rewrite (take_length_diff (open :: body ++ [close]) post).
    + reflexivity.
    + rewrite <- app_comm_cons, <- app_assoc. reflexivity.
Qed.

(** [citationPattern] on a token captures the last digit before the
    closing bracket, and that digit alone. *)
Lemma match_here_citation b1 d b2 post :
  no_close b1 -> is_digit d = true -> no_close b2 -> no_digit b2 ->
  match_here citationPattern (token (b1 ++ d :: b2) ++ post)
  = Some {| matched := token (b1 ++ d :: b2); group1 := Some [d];
            rest := post |}.
Proof.
  intros Hb1 Hd Hb2 Hnd. unfold match_here, citationPattern, token.
  rewrite <- app_comm_cons, <- !app_assoc. cbn [app].
  rewrite rmatch_seq, rmatch_lit. cbn [one].
  change (Ascii.eqb "[" open) with true. cbv iota.
  apply marker_tail; try assumption.
  rewrite (take_length_diff (open :: b1 ++ d :: b2 ++ [close]) post).
  - reflexivity.
  - rewrite <- app_comm_cons, <- !app_assoc. cbn [app].
    rewrite <- !app_assoc. reflexivity.
Qed.

(** *** Rendering the parts *)

Lemma map_indexed_parts citations parts index :
  map_indexed (render_part citations) index (map Some parts)
  = Ok (imap (fun i => render_text citations (index + i)) parts).
Proof.
  revert index. induction parts as [|part parts IH]; intros index;
    [reflexivity|].
  cbn [map map_indexed imap]. rewrite IH, Nat.add_0_r.
  assert (render_part citations index (Some part)
          = Ok (render_text citations index part)) as ->.
  { unfold render_part, render_text.
    destruct (cited citations part); reflexivity. }
  simpl. do 2 f_equal. apply imap_ext. intros i x _. simpl. f_equal. lia.
Qed.

Lemma children_render_text citations index part :
  children_of (render_text citations index part) = part.
Proof. unfold render_text. destruct (cited citations part); reflexivity. Qed.

(** A citation is only ever found at a position inside the list. *)
Lemma cited_in_range citations part c :
  cited citations part = Some c ->
  exists pre m ds n,
    exec citationPattern part = Some (pre, m) /\
    group1 m = Some ds /\ parseInt ds = Some n /\
    1 <= n <= Z.of_nat (length citations) /\
    citations !! Z.to_nat (n - 1) = Some c.
Proof.
  unfold cited.
  destruct (exec citationPattern part) as [[pre m]|] eqn:He; [|discriminate].
  destruct (group1 m) as [ds|] eqn:Hg; simpl.
  - destruct (parseInt ds) as [n|] eqn:Hn; [|discriminate].
    destruct ((0 <=? n - 1) && (n - 1 <? Z.of_nat (length citations))) eqn:Hr;
      [|discriminate].
    intros Hc. exists pre, m, ds, n. repeat split; try assumption; lia.
  - vm_compute. discriminate.
Qed.

(** *** A lone token *)

Lemma parseInt_digit d : is_digit d = true -> parseInt [d] = Some (digit_value d).
Proof. intros Hd. unfold parseInt. simpl. rewrite Hd. reflexivity. Qed.

Lemma cited_token citations b1 d b2 :
  no_close b1 -> is_digit d = true -> no_close b2 -> no_digit b2 ->
  cited citations (token (b1 ++ d :: b2)) = nth_citation citations (digit_value d).
Proof.
  intros Hb1 Hd Hb2 Hnd. unfold cited.
  pose proof (match_here_citation b1 d b2 [] Hb1 Hd Hb2 Hnd) as Hm.
  rewrite app_nil_r in Hm.
  assert (exec citationPattern (token (b1 ++ d :: b2))
          = Some ([], {| matched := token (b1 ++ d :: b2); group1 := Some [d];
                         rest := [] |})) as ->.
  { unfold token in *. cbn [exec]. rewrite Hm. reflexivity. }
  cbn [group1 to_string]. rewrite (parseInt_digit d Hd). unfold nth_citation.
  replace ((0 <=? digit_value d - 1)
           && (digit_value d - 1 <? Z.of_nat (length citations)))
    with ((1 <=? digit_value d) && (digit_value d <=? Z.of_nat (length citations)))
    by lia.
  reflexivity.
Qed.

Lemma split_token body :
  no_close body -> existsb is_digit body = true ->
  split splitPattern (token body) = [Some []; Some (token body); Some []].
Proof.
  intros Hb Hd. pose proof (match_here_token body [] Hb) as Hm.
  rewrite app_nil_r, Hd in Hm. unfold split, token in *.
  rewrite split_loop_unfold, Hm. cbn [matched group1 rest].
  rewrite split_loop_unfold. reflexivity.
Qed.

Lemma render_token citations b1 d b2 :
  no_close b1 -> is_digit d = true -> no_close b2 -> no_digit b2 ->
  renderResponseWithCitations citations (token (b1 ++ d :: b2))
  = Ok [PlainSpan 0 [];
        match nth_citation citations (digit_value d) with
        | Some c => CitationRef 1 (chunk_id c) (token (b1 ++ d :: b2))
        | None => PlainSpan 1 (token (b1 ++ d :: b2))
        end;
        PlainSpan 2 []].
Proof.
  intros Hb1 Hd Hb2 Hnd. unfold renderResponseWithCitations.
  rewrite split_token.
  - cbn [map_indexed render_part]. 
    rewrite (cited_token citations b1 d b2 Hb1 Hd Hb2 Hnd).
    change (cited citations []) with (@None Citation).
    destruct (nth_citation citations (digit_value d)); reflexivity.
  - apply Forall_app. split; [exact Hb1|].
    constructor; [apply digit_not_close, Hd|exact Hb2].
  - rewrite existsb_app. simpl. rewrite Hd. apply orb_true_r.
Qed.

End ResponseDisplayFacts.

(** ** Citation markers in the front end *)

Module CitationMarkers.
Import Exn Regex RegexFacts Types.
Import QueryPageFacts ResponseDisplayFacts.

Lemma map_imap_children {A} (f : nat -> A -> ResponseDisplay.node)
  (l : list A) (g : A -> str) :
  (forall i a, ResponseDisplay.children_of (f i a) = g a) ->
  map ResponseDisplay.children_of (imap f l) = map g l.
Proof.
  revert f. induction l as [|a l IH]; intros f Hf; [reflexivity|].
  cbn [imap map]. rewrite Hf. f_equal. apply IH. intros i b. apply Hf.
Qed.

Lemma Forall_imap {A B} (P : B -> Prop) (f : nat -> A -> B) (l : list A) :
  (forall i a, P (f i a)) -> Forall P (imap f l).
Proof.
  revert f. induction l as [|a l IH]; intros f Hf; cbn [imap]; constructor.
  - apply Hf.
  - apply IH. intros i b. apply Hf.
Qed.

Lemma render_text_sound citations index part :
  ResponseDisplay.node_sound citations
    (ResponseDisplay.render_text citations index part).
Proof.
  unfold ResponseDisplay.render_text.
  destruct (ResponseDisplay.cited citations part) as [c|] eqn:Hc; [|exact I].
  destruct (cited_in_range _ _ _ Hc)
    as (pre & m & ds & n & H1 & H2 & H3 & H4 & H5).
  exists pre, m, ds, n, c. repeat split; try assumption; lia.
Qed.

(** C4 (the Query page does not do it): with one citation at hand, the
    response display makes the same reference of [[1]] and of
    [[Source 1]]; the Query page makes a reference of [[1]] but finds no
    marker in [[Source 1]] and leaves it the text it was. *)
Theorem query_page_ignores_decorated_marker :
  ResponseDisplay.renderResponseWithCitations [wilson_citation]
    (lit "See [1].")
  = Ok [ResponseDisplay.PlainSpan 0 (lit "See ");
        ResponseDisplay.CitationRef 1 "wilson_chunk_0" (lit "[1]");
        ResponseDisplay.PlainSpan 2 (lit ".")] /\
  ResponseDisplay.renderResponseWithCitations [wilson_citation]
    (lit "See [Source 1].")
  = Ok [ResponseDisplay.PlainSpan 0 (lit "See ");
        ResponseDisplay.CitationRef 1 "wilson_chunk_0" (lit "[Source 1]");
        ResponseDisplay.PlainSpan 2 (lit ".")] /\
  QueryPage.renderResponseWithCitations (lit "See [1].") [wilson_citation]
  = lit "See " ++ QueryPage.citation_span wilson_citation (lit "1") ++ lit "." /\
  exec QueryPage.citationPattern (lit "See [Source 1].") = None /\
  QueryPage.renderResponseWithCitations (lit "See [Source 1].")
    [wilson_citation] = lit "See [Source 1].".
Proof. repeat split; vm_compute; reflexivity. Qed.

(** The two renderers on a bracketed token in general: the response
    display takes any token with a digit in it for a marker and resolves
    it by the last digit before the closing bracket, so [[1]] and
    [[Source 1]] are the same reference to the first citation; the Query
    page takes bare [[digits]] only and leaves a decorated token as
    text. *)
Theorem decorated_markers (citations : list Citation) (b1 : str) (d : ascii)
  (b2 : str) :
  no_close b1 -> is_digit d = true -> no_close b2 -> no_digit b2 ->
  ResponseDisplay.renderResponseWithCitations citations (token (b1 ++ d :: b2))
  = Ok [ResponseDisplay.PlainSpan 0 [];
        match ResponseDisplay.nth_citation citations (digit_value d) with
        | Some c => ResponseDisplay.CitationRef 1 (chunk_id c)
                      (token (b1 ++ d :: b2))
        | None => ResponseDisplay.PlainSpan 1 (token (b1 ++ d :: b2))
        end;
        ResponseDisplay.PlainSpan 2 []] /\
  (forall c, citations !! 0%nat = Some c ->
     ResponseDisplay.renderResponseWithCitations citations (lit "[1]")
     = Ok [ResponseDisplay.PlainSpan 0 [];
           ResponseDisplay.CitationRef 1 (chunk_id c) (lit "[1]");
           ResponseDisplay.PlainSpan 2 []] /\
     ResponseDisplay.renderResponseWithCitations citations (lit "[Source 1]")
     = Ok [ResponseDisplay.PlainSpan 0 [];
           ResponseDisplay.CitationRef 1 (chunk_id c) (lit "[Source 1]");
           ResponseDisplay.PlainSpan 2 []] /\
     QueryPage.renderResponseWithCitations (lit "[1]") citations
     = QueryPage.citation_span c (lit "1")) /\
  (no_open (b1 ++ d :: b2) ->
   existsb (fun c => negb (is_digit c)) (b1 ++ d :: b2) = true ->
   QueryPage.renderResponseWithCitations (token (b1 ++ d :: b2)) citations
   = token (b1 ++ d :: b2)).
Proof.
  intros Hb1 Hd Hb2 Hnd. split; [|split].
  - apply render_token; assumption.
  - intros c Hc.
    assert (ResponseDisplay.nth_citation citations 1 = Some c) as Hone.
    { unfold ResponseDisplay.nth_citation. destruct citations as [|c' l]; [discriminate|].
      injection Hc as ->. cbn [length].
      assert ((1 <=? 1) && (1 <=? Z.of_nat (S (length l))) = true) as ->.
      { apply andb_true_intro. split; apply Z.leb_le; lia. }
      reflexivity. }
    split; [|split].
    + pose proof (render_token citations [] "1"%char []) as H.
      change (digit_value "1") with 1 in H. rewrite Hone in H.
      apply H; repeat constructor.
    + pose proof (render_token citations (lit "Source ") "1"%char []) as H.
      change (digit_value "1") with 1 in H. rewrite Hone in H.
      apply H; repeat constructor.
    + pose proof (render_around_marker citations [] (lit "1") []) as H.
      change ([] ++ token (lit "1") ++ []) with (lit "[1]") in H.
      rewrite H; [|discriminate|repeat constructor].
      unfold QueryPage.renderResponseWithCitations.
      rewrite replace_unfold. change (exec QueryPage.citationPattern [])
        with (@None (str * match_result)).
      rewrite app_nil_r. cbn [app]. unfold QueryPage.replacer.
      change (parseInt (to_string (Some (lit "1")))) with (Some 1).
      cbv zeta.
      destruct citations as [|c' l]; [discriminate|]. injection Hc as ->.
      assert ((0 <=? 1 - 1) && (1 - 1 <? Z.of_nat (length (c :: l))) = true)
        as ->.
      { apply andb_true_intro. split; [apply Z.leb_le|apply Z.ltb_lt];
          cbn [length]; lia. }
      reflexivity.
  - intros Hopen Hdec. apply render_decorated; [exact Hopen| |exact Hdec].
    apply Forall_app. split; [exact Hb1|].
    constructor; [apply digit_not_close, Hd|exact Hb2].
Qed.

Lemma decorated_markers_example :
  ResponseDisplay.renderResponseWithCitations [wilson_citation; nda_citation]
    (token (lit "Source " ++ "2"%char :: lit ", p. "))
  = Ok [ResponseDisplay.PlainSpan 0 [];
        match ResponseDisplay.nth_citation [wilson_citation; nda_citation] (digit_value "2") with
        | Some c => ResponseDisplay.CitationRef 1 (chunk_id c)
                      (token (lit "Source " ++ "2"%char :: lit ", p. "))
        | None => ResponseDisplay.PlainSpan 1
                    (token (lit "Source " ++ "2"%char :: lit ", p. "))
        end;
        ResponseDisplay.PlainSpan 2 []] /\
  (forall c, [wilson_citation; nda_citation] !! 0%nat = Some c ->
     ResponseDisplay.renderResponseWithCitations
       [wilson_citation; nda_citation] (lit "[1]")
     = Ok [ResponseDisplay.PlainSpan 0 [];
           ResponseDisplay.CitationRef 1 (chunk_id c) (lit "[1]");
           ResponseDisplay.PlainSpan 2 []] /\
     ResponseDisplay.renderResponseWithCitations
       [wilson_citation; nda_citation] (lit "[Source 1]")
     = Ok [ResponseDisplay.PlainSpan 0 [];
           ResponseDisplay.CitationRef 1 (chunk_id c) (lit "[Source 1]");
           ResponseDisplay.PlainSpan 2 []] /\
     QueryPage.renderResponseWithCitations (lit "[1]")
       [wilson_citation; nda_citation]
     = QueryPage.citation_span c (lit "1")) /\
  (no_open (lit "Source " ++ "2"%char :: lit ", p. ") ->
   existsb (fun c => negb (is_digit c))
     (lit "Source " ++ "2"%char :: lit ", p. ") = true ->
   QueryPage.renderResponseWithCitations
     (token (lit "Source " ++ "2"%char :: lit ", p. "))
     [wilson_citation; nda_citation]
   = token (lit "Source " ++ "2"%char :: lit ", p. ")).
Proof.
  apply (decorated_markers [wilson_citation; nda_citation]
           (lit "Source ") "2"%char (lit ", p. ")).
  - repeat constructor.
  - reflexivity.
  - repeat constructor.
  - repeat constructor.
Defined.

(** C5: a marker whose number is outside the citation list stays in the
    output as the text it was, and no reference is made for it.  On the
    Query page the text around such a marker is rendered on its own and
    the marker is copied, and the list is read only at an index inside
    it; the response display never throws, keeps every character of the
    text, makes a reference only for a number inside the list, and
    renders a token with a number outside it as a plain span. *)
Theorem unresolvable_markers_inert :
  (forall citations pre ds post n,
     ds <> [] -> all_digits ds -> parseInt ds = Some n ->
     ~ (1 <= n <= Z.of_nat (length citations)) ->
     QueryPage.renderResponseWithCitations (pre ++ token ds ++ post) citations
     = QueryPage.renderResponseWithCitations pre citations
       ++ token ds
       ++ QueryPage.renderResponseWithCitations post citations) /\
  (forall (citations : list Citation) n,
     (0 <=? n - 1) && (n - 1 <? Z.of_nat (length citations)) = true ->
     is_Some (citations !! Z.to_nat (n - 1))) /\
  (forall citations text,
     exists nodes,
       ResponseDisplay.renderResponseWithCitations citations text = Ok nodes /\
       concat (map ResponseDisplay.children_of nodes) = text /\
       Forall (ResponseDisplay.node_sound citations) nodes) /\
  (forall citations b1 d b2,
     no_close b1 -> is_digit d = true -> no_close b2 -> no_digit b2 ->
     ~ (1 <= digit_value d <= Z.of_nat (length citations)) ->
     ResponseDisplay.renderResponseWithCitations citations
       (token (b1 ++ d :: b2))
     = Ok [ResponseDisplay.PlainSpan 0 [];
           ResponseDisplay.PlainSpan 1 (token (b1 ++ d :: b2));
           ResponseDisplay.PlainSpan 2 []]).
Proof.
  split; [|split; [|split]].
  - intros citations pre ds post n Hne Hds Hn Hout.
    rewrite (render_around_marker citations pre ds post Hne Hds).
    rewrite (replacer_out_of_range citations (token ds) ds n Hn Hout).
    reflexivity.
  - apply replacer_lookup.
  - intros citations text.
    destruct (split_parts text) as (parts & Hsplit & Hconcat).
    exists (imap (fun i => ResponseDisplay.render_text citations (0 + i)) parts).
    unfold ResponseDisplay.renderResponseWithCitations.
    rewrite Hsplit, map_indexed_parts. split; [reflexivity|]. split.
    + rewrite <- Hconcat. f_equal.
      rewrite (map_imap_children _ _ id); [apply map_id|].
      intros i p. apply children_render_text.
    + apply Forall_imap. intros i p. apply render_text_sound.
  - intros citations b1 d b2 Hb1 Hd Hb2 Hnd Hout.
    rewrite (render_token citations b1 d b2 Hb1 Hd Hb2 Hnd).
    unfold ResponseDisplay.nth_citation.
    destruct ((1 <=? digit_value d)
              && (digit_value d <=? Z.of_nat (length citations))) eqn:Hr;
      [|reflexivity].
    exfalso. apply Hout. lia.
Qed.

Lemma unresolvable_markers_inert_witness :
  QueryPage.renderResponseWithCitations
    (lit "Per [1] and " ++ token (lit "7") ++ lit ".") [wilson_citation]
  = QueryPage.renderResponseWithCitations (lit "Per [1] and ") [wilson_citation]
    ++ token (lit "7")
    ++ QueryPage.renderResponseWithCitations (lit ".") [wilson_citation] /\
  ResponseDisplay.renderResponseWithCitations [wilson_citation]
    (token (lit "Source " ++ "7"%char :: []))
  = Ok [ResponseDisplay.PlainSpan 0 [];
        ResponseDisplay.PlainSpan 1 (token (lit "Source " ++ "7"%char :: []));
        ResponseDisplay.PlainSpan 2 []].
Proof.
  destruct unresolvable_markers_inert as (Hq & _ & _ & Hd). split.
  - apply (Hq [wilson_citation] (lit "Per [1] and ") (lit "7") (lit ".") 7).
    + discriminate.
    + repeat constructor.
    + reflexivity.
    + simpl. lia.
  - apply (Hd [wilson_citation] (lit "Source ") "7"%char []).
    + repeat constructor.
    + reflexivity.
    + constructor.
    + constructor.
    + vm_compute. intros [_ H]. apply H. reflexivity.
Defined.

(** A marker of two digits: the response display resolves [[12]] by its
    last digit, to the second citation; the Query page reads the number
    12 and, with two citations only, leaves the marker as text. *)
Example two_digit_marker :
  ResponseDisplay.renderResponseWithCitations [wilson_citation; nda_citation]
    (lit "[12]")
  = Ok [ResponseDisplay.PlainSpan 0 [];
        ResponseDisplay.CitationRef 1 "nda_chunk_3" (lit "[12]");
        ResponseDisplay.PlainSpan 2 []] /\
  QueryPage.renderResponseWithCitations (lit "[12]")
    [wilson_citation; nda_citation] = lit "[12]".
Proof. split; vm_compute; reflexivity. Qed.

End CitationMarkers.

(** ** Properties of the chunker *)

Module ChunkerFacts.
Import Exn Regex Chunker.

Lemma windows_unfold size k start t :
  windows size (S k) start t =
  if (length t <=? size)%nat
  then [{| text := take size t; start_offset := start;
           end_offset := start + length t |}]
  else {| text := take size t; start_offset := start;
          end_offset := start + size |}
       :: windows size (S k) (start + S k) (drop (S k) t).
Proof.
  funelim (windows size (S k) start t);
    match goal with H : (_ <=? _)%nat = _ |- _ => rewrite H end; reflexivity.
Qed.

(** The [i]-th window starts [i] strides in and is [size] long, or ends
    with the text. *)
Lemma windows_lookup size k :
  (S k <= size)%nat ->
  forall t start i c,
    windows size (S k) start t !! i = Some c ->
    start_offset c = (start + i * S k)%nat /\
    end_offset c = (start + Nat.min (i * S k + size) (length t))%nat /\
    text c = take size (drop (i * S k) t) /\
    ((S i < length (windows size (S k) start t))%nat ->
     (i * S k + size < length t)%nat).
Proof.
  intros Hk t. remember (length t) as n eqn:Hn. revert t Hn.
  induction n as [n IH] using lt_wf_ind. intros t -> start i c.
  rewrite windows_unfold.
  destruct (length t <=? size)%nat eqn:Hlen.
  - apply Nat.leb_le in Hlen. destruct i as [|i]; [|discriminate].
    intros [= <-]. cbn [start_offset end_offset text length drop].
    repeat split; try lia.
  - apply Nat.leb_gt in Hlen. destruct i as [|i].
    + intros [= <-]. cbn [start_offset end_offset text drop length].
      repeat split; lia.
    + cbn [lookup list_lookup]. intros Hc.
      apply (IH (length (drop (S k) t)) ltac:(rewrite length_drop; lia)
               (drop (S k) t) eq_refl) in Hc.
      destruct Hc as (Hs & He & Ht & Hlast). rewrite length_drop in He, Hlast.
      rewrite drop_drop in Ht. cbn [length].
      repeat split; [lia|lia|rewrite Ht; f_equal; f_equal; lia|].
      intros H. apply Nat.succ_lt_mono in H. apply Hlast in H. lia.
Qed.

(** The last window ends where the text ends. *)
Lemma windows_last size k t start :
  (S k <= size)%nat ->
  exists c,
    last (windows size (S k) start t) = Some c /\
    end_offset c = (start + length t)%nat.
Proof.
  intros Hk. remember (length t) as n eqn:Hn. revert t Hn start.
  induction n as [n IH] using lt_wf_ind. intros t -> start.
  rewrite windows_unfold.
  destruct (length t <=? size)%nat eqn:Hlen.
  - eexists. split; reflexivity.
  - apply Nat.leb_gt in Hlen.
    destruct (IH (length (drop (S k) t))) with (t := drop (S k) t)
      (start := (start + S k)%nat) as (c & Hc & He);
      [rewrite length_drop; lia|reflexivity|].
    exists c. split.
    + rewrite last_cons, Hc. reflexivity.
    + rewrite He, length_drop. lia.
Qed.

(** Removing the overlap from every window after the first. *)
Lemma windows_reassemble size k overlap t start :
  size = (S k + overlap)%nat ->
  reassemble (Z.of_nat overlap) (windows size (S k) start t) = t.
Proof.
  intros Hsize. remember (length t) as n eqn:Hn. revert t Hn start.
  induction n as [n IH] using lt_wf_ind. intros t -> start.
  rewrite windows_unfold.
  destruct (length t <=? size)%nat eqn:Hlen.
  - apply Nat.leb_le in Hlen. cbn [reassemble map concat text].
    rewrite app_nil_r. apply take_ge. exact Hlen.
  - apply Nat.leb_gt in Hlen. cbn [reassemble text].
    specialize (IH (length (drop (S k) t))
                  ltac:(rewrite length_drop; lia) (drop (S k) t) eq_refl
                  (start + S k)%nat).
    rewrite Nat2Z.id in *.
    assert (concat (map (fun c' => drop overlap (text c'))
                      (windows size (S k) (start + S k) (drop (S k) t)))
            = drop overlap (drop (S k) t)) as ->.
    { rewrite <- IH at 2.
      rewrite (windows_unfold size k (start + S k) (drop (S k) t)).
      destruct (length (drop (S k) t) <=? size)%nat;
        cbn [reassemble map concat text]; rewrite ?Nat2Z.id;
        (rewrite drop_app_le; [reflexivity|]);
        rewrite length_take, length_drop; lia. }
    rewrite drop_drop. replace (S k + overlap)%nat with size by lia.
    apply take_drop.
Qed.

(** C6: for [0 <= overlap < size] the chunker cuts windows of [size]
    characters, each [size - overlap] characters after the one before,
    the last one ending with the text and possibly shorter; a text of
    2400 characters with size 1000 and overlap 200 gives the three
    chunks [0,1000), [800,1800), [1600,2400). *)
Theorem chunk_windows (t : str) (size overlap : Z) :
  0 <= overlap < size ->
  exists chunks,
    chunk t size overlap = Ok chunks /\
    (forall i c, chunks !! i = Some c ->
       Z.of_nat (start_offset c) = Z.of_nat i * (size - overlap) /\
       Z.of_nat (end_offset c)
       = Z.min (Z.of_nat i * (size - overlap) + size) (Z.of_nat (length t)) /\
       text c = take (Z.to_nat size) (drop (start_offset c) t) /\
       ((S i < length chunks)%nat ->
        Z.of_nat (length (text c)) = size /\
        Z.of_nat (end_offset c) < Z.of_nat (length t))) /\
    (t <> [] ->
     exists c, last chunks = Some c /\ end_offset c = length t) /\
    (length t = 2400%nat -> size = 1000 -> overlap = 200 ->
     map offsets chunks
     = [(0%nat, 1000%nat); (800%nat, 1800%nat); (1600%nat, 2400%nat)]).
Proof.
  intros Hcfg. unfold chunk.
  assert ((size <=? 0) || (overlap <? 0) || (size <=? overlap) = false) as ->.
  { apply orb_false_intro; [apply orb_false_intro|];
      [apply Z.leb_gt|apply Z.ltb_ge|apply Z.leb_gt]; lia. }
  destruct t as [|a t].
  - exists []. split; [reflexivity|]. split; [|split].
    + intros i c Hc. discriminate.
    + congruence.
    + discriminate.
  - remember (a :: t) as s eqn:Hs.
    destruct (Z.to_nat (size - overlap)) as [|k] eqn:Hk; [lia|].
    eexists. split; [reflexivity|]. split; [|split].
    + intros i c Hc.
      pose proof Hc as Hc'. apply windows_lookup in Hc' as (H1 & H2 & H3 & H4);
        [|lia].
      split; [lia|]. split; [lia|]. split.
      * rewrite H3, H1. reflexivity.
      * intros Hi. specialize (H4 Hi). rewrite H3, length_take, length_drop. lia.
    + intros _. destruct (windows_last (Z.to_nat size) k s 0) as (c & Hc & He);
        [lia|].
      exists c. split; [exact Hc|]. rewrite He. reflexivity.
    + intros Hlen -> ->. change (Z.to_nat (1000 - 200)) with 800%nat in Hk.
      injection Hk as <-.
      rewrite windows_unfold.
      assert ((length s <=? Z.to_nat 1000)%nat = false) as ->
        by (apply Nat.leb_gt; lia).
      rewrite windows_unfold.
      assert ((length (drop 800 s) <=? Z.to_nat 1000)%nat = false) as ->
        by (apply Nat.leb_gt; rewrite length_drop; lia).
      rewrite windows_unfold.
      assert ((length (drop 800 (drop 800 s)) <=? Z.to_nat 1000)%nat = true)
        as -> by (apply Nat.leb_le; rewrite !length_drop; lia).
      cbn [map offsets start_offset end_offset]. rewrite !length_drop, Hlen.
      reflexivity.
Qed.

Lemma chunk_windows_witness :
  exists chunks,
    chunk (repeat "x"%char 2400) 1000 200 = Ok chunks /\
    (forall i c, chunks !! i = Some c ->
       Z.of_nat (start_offset c) = Z.of_nat i * (1000 - 200) /\
       Z.of_nat (end_offset c)
       = Z.min (Z.of_nat i * (1000 - 200) + 1000)
           (Z.of_nat (length (repeat "x"%char 2400))) /\
       text c = take (Z.to_nat 1000)
                  (drop (start_offset c) (repeat "x"%char 2400)) /\
       ((S i < length chunks)%nat ->
        Z.of_nat (length (text c)) = 1000 /\
        Z.of_nat (end_offset c) < Z.of_nat (length (repeat "x"%char 2400)))) /\
    (repeat "x"%char 2400 <> [] ->
     exists c, last chunks = Some c /\
       end_offset c = length (repeat "x"%char 2400)) /\
    (length (repeat "x"%char 2400) = 2400%nat -> 1000 = 1000 -> 200 = 200 ->
     map offsets chunks
     = [(0%nat, 1000%nat); (800%nat, 1800%nat); (1600%nat, 2400%nat)]).
Proof.
  apply (chunk_windows (repeat "x"%char 2400) 1000 200). lia.
Defined.

(** C7: for [0 <= overlap < size], the chunk texts put together, each
    chunk after the first without its first [overlap] characters, are
    the text again. *)
Theorem chunk_round_trip (t : str) (size overlap : Z) :
  0 <= overlap < size ->
  exists chunks,
    chunk t size overlap = Ok chunks /\ reassemble overlap chunks = t.
Proof.
  intros Hcfg. unfold chunk.
  assert ((size <=? 0) || (overlap <? 0) || (size <=? overlap) = false) as ->.
  { apply orb_false_intro; [apply orb_false_intro|];
      [apply Z.leb_gt|apply Z.ltb_ge|apply Z.leb_gt]; lia. }
  destruct t as [|a t]; [exists []; split; reflexivity|].
  eexists. split; [reflexivity|].
  destruct (Z.to_nat (size - overlap)) as [|k] eqn:Hk; [lia|].
  rewrite <- (Z2Nat.id overlap) at 1 by lia.
  apply windows_reassemble. lia.
Qed.

Lemma chunk_round_trip_witness :
  exists chunks,
    chunk (lit "The Supplier shall deliver the goods.") 16 4 = Ok chunks /\
    reassemble 4 chunks = lit "The Supplier shall deliver the goods.".
Proof.
  apply (chunk_round_trip (lit "The Supplier shall deliver the goods.") 16 4).
  lia.
Defined.

(** The Wilson Agreement scenario on one text of 2400 characters. *)
Example wilson_agreement_chunks :
  exists chunks,
    chunk (repeat "x"%char 2400) 1000 200 = Ok chunks /\
    map offsets chunks
    = [(0%nat, 1000%nat); (800%nat, 1800%nat); (1600%nat, 2400%nat)].
Proof. eexists. split; vm_compute; reflexivity. Qed.

End ChunkerFacts.

(** ** Properties of the citation resolver *)

Module CitationResolverFacts.
Import Regex RegexFacts Types CitationResolver.

Lemma distinct_elem seen cs c : c ∈ distinct seen cs -> c ∈ cs.
Proof.
  revert seen. induction cs as [|d cs IH]; intros seen; cbn [distinct].
  - intros H. exact H.
  - destruct (decide (chunk_id d ∈ seen)).
    + intros H. right. eapply IH, H.
    + intros H. apply elem_of_cons in H as [->|H]; [left|right; eapply IH, H].
Qed.

Lemma distinct_fresh seen cs c :
  c ∈ distinct seen cs -> chunk_id c ∉ seen.
Proof.
  revert seen. induction cs as [|d cs IH]; intros seen; cbn [distinct].
  - intros H. inversion H.
  - destruct (decide (chunk_id d ∈ seen)) as [Hin|Hout].
    + apply IH.
    + intros H. apply elem_of_cons in H as [->|H]; [exact Hout|].
      apply IH in H. intros Hc. apply H. right. exact Hc.
Qed.

Lemma distinct_NoDup seen cs : NoDup (map chunk_id (distinct seen cs)).
Proof.
  revert seen. induction cs as [|d cs IH]; intros seen; cbn [distinct].
  - constructor.
  - destruct (decide (chunk_id d ∈ seen)); [apply IH|].
    cbn [map]. constructor; [|apply IH].
    intros Hin. apply list_elem_of_fmap in Hin as (c & Heq & Hc).
    apply distinct_fresh in Hc. apply Hc. rewrite Heq. left.
Qed.

Lemma distinct_nil cs : distinct [] cs = [] <-> cs = [].
Proof.
  destruct cs as [|c cs]; [tauto|]. cbn [distinct].
  destruct (decide (chunk_id c ∈ [])) as [Hin|_]; [inversion Hin|].
  split; discriminate.
Qed.

Lemma omap_nil {A B} (f : A -> option B) (l : list A) :
  omap f l = [] <-> forall x, x ∈ l -> f x = None.
Proof.
  induction l as [|a l IH]; cbn [omap list_omap].
  - split; [intros _ x Hx; inversion Hx|reflexivity].
  - destruct (f a) eqn:Hfa.
    + split; [discriminate|]. intros H. rewrite (H a) in Hfa by left.
      discriminate.
    + rewrite IH. split.
      * intros H x Hx. apply elem_of_cons in Hx as [->|Hx]; auto.
      * intros H x Hx. apply H. right. exact Hx.
Qed.

(** *** The markers of a text *)

Lemma digit_not_space c : is_digit c = true -> is_space c = false.
Proof.
  destruct c as [[] [] [] [] [] [] [] []]; vm_compute; congruence.
Qed.

(** The grammar on a token: the last digit before the closing bracket is
    what is captured. *)
Lemma match_here_marker b1 d b2 post :
  no_close b1 -> is_digit d = true -> no_close b2 -> no_digit b2 ->
  match_here markerPattern (token (b1 ++ d :: b2) ++ post)
  = Some {| matched := token (b1 ++ d :: b2); group1 := Some [d];
            rest := post |}.
Proof.
  intros Hb1 Hd Hb2 Hnd. unfold match_here, markerPattern, token.
  rewrite <- app_comm_cons, <- !app_assoc. cbn [app].
  rewrite rmatch_seq, rmatch_lit. cbn [one].
  change (Ascii.eqb "[" open) with true. cbv iota.
  rewrite rmatch_seq, star_space.
  apply greedy_invariant
    with (P := fun u => exists b, no_close b /\ u = b ++ d :: b2 ++ close :: post).
  - exists b1. split; [exact Hb1|reflexivity].
  - intros c t (b & Hb & Heq) Hc. destruct b as [|c' b].
    + injection Heq as -> ->. rewrite (digit_not_space _ Hd) in Hc.
      discriminate.
    + injection Heq as -> ->. exists b. split; [|reflexivity].
      inversion Hb; assumption.
  - intros u (b & Hb & ->). apply marker_tail; try assumption.
    rewrite (take_length_diff (open :: b1 ++ d :: b2 ++ [close]) post).
    + reflexivity.
    + rewrite <- app_comm_cons, <- !app_assoc. cbn [app].
      rewrite <- !app_assoc. reflexivity.
Qed.

Lemma match_here_no_open s :
  match s with c :: _ => Ascii.eqb "[" c = false | [] => True end ->
  match_here markerPattern s = None.
Proof.
  unfold match_here, markerPattern. rewrite rmatch_seq, rmatch_lit.
  destruct s as [|c s]; [reflexivity|]. cbn [one]. intros ->. reflexivity.
Qed.

Lemma exec_front r s m : match_here r s = Some m -> exec r s = Some ([], m).
Proof. intros H. destruct s; cbn [exec]; rewrite H; reflexivity. Qed.

Lemma exec_skip pre s :
  no_open pre ->
  exec markerPattern (pre ++ s)
  = match exec markerPattern s with
    | Some (p, m) => Some (pre ++ p, m)
    | None => None
    end.
Proof.
  intros Hpre. induction Hpre as [|c pre Hc _ IH].
  - cbn [app]. destruct (exec markerPattern s) as [[p m]|]; reflexivity.
  - rewrite <- app_comm_cons. cbn [exec].
    rewrite match_here_no_open by exact Hc. rewrite IH.
    destruct (exec markerPattern s) as [[p m]|]; reflexivity.
Qed.

Lemma exec_no_open s : no_open s -> exec markerPattern s = None.
Proof.
  induction 1 as [|c s Hc _ IH]; cbn [exec].
  - reflexivity.
  - rewrite match_here_no_open by exact Hc. rewrite IH. reflexivity.
Qed.

Lemma marker_numbers_no_open s : no_open s -> marker_numbers s = [].
Proof.
  intros H. unfold marker_numbers.
  rewrite match_all_unfold, (exec_no_open s H). reflexivity.
Qed.

(** A token in front of which no bracket opens is the first marker. *)
Lemma marker_numbers_token pre b1 d b2 post :
  no_open pre ->
  no_close b1 -> is_digit d = true -> no_close b2 -> no_digit b2 ->
  marker_numbers (pre ++ token (b1 ++ d :: b2) ++ post)
  = digit_value d :: marker_numbers post.
Proof.
  intros Hpre Hb1 Hd Hb2 Hnd. unfold marker_numbers.
  rewrite match_all_unfold.
  rewrite exec_skip by exact Hpre.
  rewrite (exec_front _ _ _ (match_here_marker b1 d b2 post Hb1 Hd Hb2 Hnd)).
  cbn [matched rest token]. cbn [omap list_omap group1 to_string].
  unfold parseInt. cbn [take_while]. rewrite Hd. cbn [take_while fold_left].
  reflexivity.
Qed.

(** An answer with the markers [[1]] and [[2]] and no other bracket. *)
Lemma marker_numbers_one_two pre mid post :
  no_open pre -> no_open mid -> no_open post ->
  marker_numbers (pre ++ lit "[1]" ++ mid ++ lit "[2]" ++ post) = [1; 2].
Proof.
  intros Hpre Hmid Hpost.
  change (lit "[1]") with (token ([] ++ "1"%char :: [])).
  change (lit "[2]") with (token ([] ++ "2"%char :: [])).
  rewrite marker_numbers_token; try assumption; try constructor.
  rewrite marker_numbers_token; try assumption; try constructor.
  rewrite marker_numbers_no_open by exact Hpost. reflexivity.
Qed.

(** *** First appearances *)

(** The citations that [distinct] keeps are the entries at the positions
    where a chunk appears for the first time and is not yet seen, in
    ascending order of position. *)
Lemma distinct_positions seen cs :
  exists ps : list nat,
    StronglySorted lt ps /\
    (forall i, i ∈ ps <->
       exists c, cs !! i = Some c /\ (chunk_id c ∉ seen) /\
         forall j c', (j < i)%nat -> cs !! j = Some c' ->
           chunk_id c' <> chunk_id c) /\
    Forall2 (fun p c => cs !! p = Some c) ps (distinct seen cs).
Proof.
  revert seen. induction cs as [|d cs IH]; intros seen.
  - exists []. split; [constructor|]. split; [|constructor].
    intros i. split; [intros H; inversion H|].
    intros (c & Hc & _). discriminate.
  - assert (forall ps' : list nat, StronglySorted lt ps' ->
              StronglySorted lt (map S ps')) as Hmap.
    { induction 1 as [|p ps' _ IHs Hp]; cbn [map]; constructor.
      - exact IHs.
      - apply Forall_fmap. eapply Forall_impl; [exact Hp|].
        intros q Hq. simpl. lia. }
    assert (forall (ps' : list nat) l,
              Forall2 (fun p c => cs !! p = Some c) ps' l ->
              Forall2 (fun p c => (d :: cs) !! p = Some c) (map S ps') l)
      as Hshift.
    { intros ps' l H. apply Forall2_fmap_l.
      eapply Forall2_impl; [exact H|]. intros p c Hp. exact Hp. }
    cbn [distinct]. destruct (decide (chunk_id d ∈ seen)) as [Hin|Hout].
    + destruct (IH seen) as (ps & Hs & Hm & Hf).
      exists (map S ps). split; [apply Hmap, Hs|]. split; [|apply Hshift, Hf].
      intros i. rewrite list_elem_of_fmap. split.
      * intros (i' & -> & Hi'). apply Hm in Hi' as (c & Hc & Hn & Hfirst).
        exists c. split; [exact Hc|]. split; [exact Hn|].
        intros [|j] c' Hj Hc'.
        -- injection Hc' as <-. intros Heq. apply Hn. rewrite <- Heq. exact Hin.
        -- apply (Hfirst j); [lia|exact Hc'].
      * intros (c & Hc & Hn & Hfirst). destruct i as [|i'].
        -- injection Hc as <-. contradiction.
        -- exists i'. split; [reflexivity|]. apply Hm.
           exists c. split; [exact Hc|]. split; [exact Hn|].
           intros j c' Hj Hc'. apply (Hfirst (S j)); [lia|exact Hc'].
    + destruct (IH (chunk_id d :: seen)) as (ps & Hs & Hm & Hf).
      exists (0%nat :: map S ps). split; [|split].
      * constructor; [apply Hmap, Hs|].
        apply Forall_fmap, Forall_forall. intros q _. simpl. lia.
      * intros i. rewrite elem_of_cons, list_elem_of_fmap. split.
        -- intros [->|(i' & -> & Hi')].
           ++ exists d. split; [reflexivity|]. split; [exact Hout|].
              intros j c' Hj. lia.
           ++ apply Hm in Hi' as (c & Hc & Hn & Hfirst).
              exists c. split; [exact Hc|]. split.
              ** intros Hs'. apply Hn. right. exact Hs'.
              ** intros [|j] c' Hj Hc'.
                 --- injection Hc' as <-. intros Heq. apply Hn.
                     rewrite <- Heq. left.
                 --- apply (Hfirst j); [lia|exact Hc'].
        -- intros (c & Hc & Hn & Hfirst). destruct i as [|i'].
           ++ left. reflexivity.
           ++ right. exists i'. split; [reflexivity|]. apply Hm.
              exists c. split; [exact Hc|]. split.
              ** intros Hs'. apply elem_of_cons in Hs' as [Heq|Hs'].
                 --- apply (Hfirst 0%nat d); [lia|reflexivity|].
                     symmetry. exact Heq.
                 --- exact (Hn Hs').
              ** intros j c' Hj Hc'. apply (Hfirst (S j)); [lia|exact Hc'].
      * constructor; [reflexivity|apply Hshift, Hf].
Qed.

(** Every chunk that a marker resolves to is cited. *)
Lemma distinct_complete seen cs c :
  c ∈ cs -> chunk_id c ∉ seen ->
  exists c', c' ∈ distinct seen cs /\ chunk_id c' = chunk_id c.
Proof.
  revert seen. induction cs as [|d cs IH]; intros seen Hc Hn.
  - inversion Hc.
  - cbn [distinct]. destruct (decide (chunk_id d ∈ seen)) as [Hin|Hout].
    + apply elem_of_cons in Hc as [->|Hc]; [contradiction|].
      apply IH; assumption.
    + destruct (decide (chunk_id d = chunk_id c)) as [Heq|Hne].
      * exists d. split; [left|exact Heq].
      * apply elem_of_cons in Hc as [->|Hc]; [congruence|].
        destruct (IH (chunk_id d :: seen) Hc) as (c' & Hc' & Hid).
        { intros Hs. apply elem_of_cons in Hs as [Hs|Hs]; [congruence|].
          exact (Hn Hs). }
        exists c'. split; [right; exact Hc'|exact Hid].
Qed.

Lemma lookup_index_spec (citation_index_map : list Citation) n c :
  lookup_index citation_index_map n = Some c <->
  1 <= n <= Z.of_nat (length citation_index_map) /\
  citation_index_map !! Z.to_nat (n - 1) = Some c.
Proof.
  unfold lookup_index.
  destruct ((1 <=? n) && (n <=? Z.of_nat (length citation_index_map))) eqn:Hr.
  - apply andb_prop in Hr as [H1 H2]. apply Z.leb_le in H1, H2.
    split; [intros H; split; [lia|exact H]|intros [_ H]; exact H].
  - split; [discriminate|]. intros [[H1 H2] _]. exfalso.
    apply Z.leb_le in H1, H2. rewrite H1, H2 in Hr. discriminate.
Qed.

Lemma total_sum cs :
  total cs = foldr Qplus 0%Q (map relevance_score cs).
Proof.
  unfold total. induction cs as [|c cs IH]; [reflexivity|].
  cbn [foldr map]. rewrite IH. reflexivity.
Qed.

Lemma confidence_one c : (confidence [c] == relevance_score c)%Q.
Proof.
  unfold confidence, total. cbn [foldr length].
  change (inject_Z (Z.of_nat 1)) with 1%Q. field.
Qed.

(** C3: the citations are the chunks that the markers of the answer
    resolve to, one per distinct chunk, in order of first appearance; the
    confidence is the sum of their relevance scores divided by their
    number when a marker resolves, and 0 with an empty citation list when
    none does; an answer with the markers [[1]] and [[2]] against a map
    that holds index 1 only (any text with these two markers and no
    other opening bracket) gives that one citation and its relevance as
    the confidence. *)
Theorem resolve_confidence (answer_text : str)
  (citation_index_map : list Citation) :
  let citations := fst (resolve answer_text citation_index_map) in
  let confidence_score := snd (resolve answer_text citation_index_map) in
  let hits :=
    omap (lookup_index citation_index_map) (marker_numbers answer_text) in
  (citations <> [] ->
   (confidence_score
    == foldr Qplus 0 (map relevance_score citations)
       / inject_Z (Z.of_nat (length citations)))%Q) /\
  (citations = [] -> confidence_score = 0%Q) /\
  (citations = [] <->
   forall n, n ∈ marker_numbers answer_text ->
     lookup_index citation_index_map n = None) /\
  NoDup (map chunk_id citations) /\
  (forall c, c ∈ citations ->
     exists n, n ∈ marker_numbers answer_text /\
       lookup_index citation_index_map n = Some c) /\
  (forall c,
     marker_numbers answer_text = [1; 2] -> citation_index_map = [c] ->
     citations = [c] /\ (confidence_score == relevance_score c)%Q) /\
  (forall pre mid post,
     no_open pre -> no_open mid -> no_open post ->
     marker_numbers (pre ++ lit "[1]" ++ mid ++ lit "[2]" ++ post) = [1; 2]) /\
  (forall n c,
     lookup_index citation_index_map n = Some c <->
     1 <= n <= Z.of_nat (length citation_index_map) /\
     citation_index_map !! Z.to_nat (n - 1) = Some c) /\
  (exists ps : list nat,
     StronglySorted lt ps /\
     (forall i, i ∈ ps <->
        exists c, hits !! i = Some c /\
          forall j c', (j < i)%nat -> hits !! j = Some c' ->
            chunk_id c' <> chunk_id c) /\
     Forall2 (fun p c => hits !! p = Some c) ps citations) /\
  (forall n c,
     n ∈ marker_numbers answer_text ->
     lookup_index citation_index_map n = Some c ->
     exists c', c' ∈ citations /\ chunk_id c' = chunk_id c).
Proof.
  cbv zeta. unfold resolve. cbn [fst snd].
  set (resolved := omap (lookup_index citation_index_map)
                     (marker_numbers answer_text)).
  split; [|split; [|split; [|split; [|split; [|split; [|split; [|split;
    [|split]]]]]]]].
  - unfold confidence. rewrite total_sum.
    destruct (distinct [] resolved); [congruence|]. intros _. reflexivity.
  - intros ->. reflexivity.
  - split.
    + intros H. apply (proj1 (distinct_nil _)) in H.
      apply (proj1 (omap_nil _ _)). exact H.
    + intros H. apply (proj2 (distinct_nil _)).
      apply (proj2 (omap_nil _ _)). exact H.
  - apply distinct_NoDup.
  - intros c Hc. apply distinct_elem in Hc.
    apply list_elem_of_omap in Hc as (n & Hn & Hl). eauto.
  - intros c H H0. subst resolved. rewrite H, H0. cbn [omap list_omap].
    unfold lookup_index. cbn [length]. simpl.
    split; [reflexivity|apply confidence_one].
  - intros pre mid post. apply marker_numbers_one_two.
  - apply lookup_index_spec.
  - destruct (distinct_positions [] resolved) as (ps & Hs & Hm & Hf).
    exists ps. split; [exact Hs|]. split; [|exact Hf].
    intros i. rewrite Hm. split.
    + intros (c & Hc & _ & Hfirst). eauto.
    + intros (c & Hc & Hfirst). exists c. split; [exact Hc|].
      split; [intros H; inversion H|exact Hfirst].
  - intros n c Hn Hl. apply distinct_complete.
    + apply list_elem_of_omap. eauto.
    + intros H. inversion H.
Qed.

Lemma resolve_confidence_witness :
  fst (resolve (lit "The term is five years [1], renewable once [2].")
         [wilson_citation]) = [wilson_citation] /\
  (snd (resolve (lit "The term is five years [1], renewable once [2].")
          [wilson_citation]) == relevance_score wilson_citation)%Q.
Proof.
  destruct (resolve_confidence
              (lit "The term is five years [1], renewable once [2].")
              [wilson_citation]) as (_ & _ & _ & _ & _ & H & Hm & _).
  apply (H wilson_citation); [|reflexivity].
  apply (Hm (lit "The term is five years ") (lit ", renewable once ")
            (lit ".")); repeat constructor.
Defined.

End CitationResolverFacts.

(** ** Properties of the ingestion orchestrator *)

Module IngestionFacts.
Import Exn Regex Ingestion.

Lemma delete_document_own (doc : string) (idx : gmap (string * nat) Entry)
  (n : nat) :
  delete_document doc idx !! (doc, n) = None.
Proof.
  unfold delete_document. apply map_lookup_filter_None. right.
  intros e _ H. apply H. reflexivity.
Qed.

Lemma delete_document_other (doc : string) (idx : gmap (string * nat) Entry)
  (other : string) (n : nat) :
  other <> doc -> delete_document doc idx !! (other, n) = idx !! (other, n).
Proof.
  intros Hne. unfold delete_document.
  destruct (idx !! (other, n)) as [e|] eqn:He.
  - apply map_lookup_filter_Some. split; [exact He|exact Hne].
  - apply map_lookup_filter_None. left. exact He.
Qed.

Section WithCollaborators.
Variable write_ok : string * nat -> bool.

Lemma upsert_other (doc other : string) (n m : nat) (entries : list Entry)
  (idx : gmap (string * nat) Entry) :
  other <> doc ->
  (upsert write_ok doc n entries idx).1 !! (other, m) = idx !! (other, m).
Proof.
  intros Hne. revert n idx. induction entries as [|e entries IH]; intros n idx;
    cbn [upsert]; [reflexivity|].
  destruct (write_ok (doc, n)); [|reflexivity].
  rewrite IH. apply lookup_insert_ne. congruence.
Qed.

Lemma upsert_below (doc : string) (n m : nat) (entries : list Entry)
  (idx : gmap (string * nat) Entry) :
  (m < n)%nat ->
  (upsert write_ok doc n entries idx).1 !! (doc, m) = idx !! (doc, m).
Proof.
  revert n idx. induction entries as [|e entries IH]; intros n idx Hlt;
    cbn [upsert]; [reflexivity|].
  destruct (write_ok (doc, n)); [|reflexivity].
  rewrite IH by lia. apply lookup_insert_ne. intros [= ->]. lia.
Qed.

Lemma upsert_written (doc : string) (n : nat) (entries : list Entry)
  (idx : gmap (string * nat) Entry) (i : nat) e :
  (upsert write_ok doc n entries idx).2 = true ->
  entries !! i = Some e ->
  (upsert write_ok doc n entries idx).1 !! (doc, (n + i)%nat) = Some e.
Proof.
  revert n idx i. induction entries as [|e' entries IH]; intros n idx i;
    cbn [upsert]; [discriminate 2|].
  destruct (write_ok (doc, n)); [|discriminate].
  intros Hok. destruct i as [|i]; cbn [lookup list_lookup].
  - intros [= ->]. rewrite Nat.add_0_r, upsert_below by lia.
    apply lookup_insert_eq.
  - intros He. replace (n + S i)%nat with (S n + i)%nat by lia.
    apply IH; assumption.
Qed.

Lemma upsert_ok (doc : string) (n : nat) (entries : list Entry)
  (idx : gmap (string * nat) Entry) :
  (upsert write_ok doc n entries idx).2 = true <->
  forall i, (i < length entries)%nat -> write_ok (doc, (n + i)%nat) = true.
Proof.
  revert n idx. induction entries as [|e entries IH]; intros n idx;
    cbn [upsert length].
  - split; [intros _ i Hi; lia|reflexivity].
  - destruct (write_ok (doc, n)) eqn:Hw.
    + rewrite IH. split.
      * intros H i Hi. destruct i as [|i].
        -- rewrite Nat.add_0_r. exact Hw.
        -- replace (n + S i)%nat with (S n + i)%nat by lia. apply H. lia.
      * intros H i Hi. replace (S n + i)%nat with (n + S i)%nat by lia.
        apply H. lia.
    + split; [discriminate|]. intros H.
      specialize (H 0%nat ltac:(lia)). rewrite Nat.add_0_r in H. congruence.
Qed.

Lemma upsert_fails (doc : string) (n : nat) (entries : list Entry)
  (idx : gmap (string * nat) Entry) :
  (upsert write_ok doc n entries idx).2 = false ->
  exists i, (i < length entries)%nat /\ write_ok (doc, (n + i)%nat) = false.
Proof.
  revert n idx. induction entries as [|e entries IH]; intros n idx;
    cbn [upsert length]; [discriminate|].
  destruct (write_ok (doc, n)) eqn:Hw.
  - intros H. destruct (IH _ _ H) as (i & Hi & Hf).
    exists (S i). split; [lia|].
    replace (n + S i)%nat with (S n + i)%nat by lia. exact Hf.
  - intros _. exists 0%nat. split; [lia|]. rewrite Nat.add_0_r. exact Hw.
Qed.

End WithCollaborators.

(** C9: however an ingestion ends, the document is [processed] with every
    one of its chunks in the index, or [error] with none, and it is
    [error] exactly when some step failed; in no state the ingestion goes
    through is the document [error] while a chunk of it is in the index
    (the rollback comes before the mark); and the chunks of other
    documents are left as they were. *)
Theorem ingest_all_or_nothing
  (extract : str -> result str) (embed : str -> result (list Q))
  (write_ok : string * nat -> bool) (chunk_size chunk_overlap : Z)
  (doc : string) (file : str) (st : State) :
  let trace :=
    ingest extract embed write_ok chunk_size chunk_overlap doc file st in
  let complete (s : State) :=
    exists entries,
      prepare extract embed chunk_size chunk_overlap file = Ok entries /\
      forall n e, entries !! n = Some e -> index s !! (doc, n) = Some e in
  let empty (s : State) := forall n, index s !! (doc, n) = None in
  (exists final,
     last trace = Some final /\
     ((status final !! doc = Some processed /\ complete final) \/
      (status final !! doc = Some error /\ empty final)) /\
     (some_step_fails extract embed write_ok chunk_size chunk_overlap doc file
      <-> status final !! doc = Some error)) /\
  (forall s, s ∈ trace -> status s !! doc = Some error -> empty s) /\
  (forall s, s ∈ trace -> status s !! doc = Some processed -> complete s) /\
  (forall s other n, s ∈ trace -> other <> doc ->
     index s !! (other, n) = index st !! (other, n)).
Proof.
  cbv zeta. unfold ingest.
  destruct (prepare extract embed chunk_size chunk_overlap file)
    as [entries|e] eqn:Hprep.
  - destruct (upsert write_ok doc 0 entries (index (set_status doc processing st)))
      as [idx ok] eqn:Hup.
    assert (forall other n, other <> doc -> idx !! (other, n) = index st !! (other, n))
      as Hother.
    { intros other n Hne.
      pose proof (upsert_other write_ok doc other 0 n entries
                    (index (set_status doc processing st)) Hne) as H.
      rewrite Hup in H. exact H. }
    destruct ok.
    + assert (forall n e, entries !! n = Some e -> idx !! (doc, n) = Some e)
        as Hall.
      { intros n e He.
        pose proof (upsert_written write_ok doc 0 entries
                      (index (set_status doc processing st)) n e) as H.
        rewrite Hup in H. apply H; [reflexivity|exact He]. }
      repeat apply conj.
      * eexists. split; [reflexivity|]. split; [left; split|].
        -- cbn. apply lookup_insert_eq.
        -- exists entries. split; [reflexivity|exact Hall].
        -- unfold some_step_fails. rewrite Hprep. cbn.
           rewrite lookup_insert_eq. split; [|discriminate].
           intros (n & Hn & Hf).
           pose proof (proj1 (upsert_ok write_ok doc 0 entries
                         (index (set_status doc processing st)))) as H.
           rewrite Hup in H. specialize (H eq_refl n Hn). cbn in H.
           congruence.
      * intros s Hs Herr n.
        repeat (apply elem_of_cons in Hs as [->|Hs]); cbn in Herr;
          try (rewrite lookup_insert_eq in Herr; discriminate).
        inversion Hs.
      * intros s Hs Hproc.
        repeat (apply elem_of_cons in Hs as [->|Hs]); cbn in Hproc;
          try (rewrite lookup_insert_eq in Hproc; discriminate);
          [|inversion Hs].
        exists entries. split; [reflexivity|exact Hall].
      * intros s other n Hs Hne.
        repeat (apply elem_of_cons in Hs as [->|Hs]); cbn;
          try reflexivity; try (apply Hother; exact Hne).
        inversion Hs.
    + repeat apply conj.
      * eexists. split; [reflexivity|]. split; [right; split|].
        -- cbn. apply lookup_insert_eq.
        -- intros n. cbn. apply delete_document_own.
        -- unfold some_step_fails. rewrite Hprep. cbn.
           rewrite lookup_insert_eq. split; [reflexivity|]. intros _.
           pose proof (upsert_fails write_ok doc 0 entries
                         (index (set_status doc processing st))) as H.
           rewrite Hup in H. exact (H eq_refl).
      * intros s Hs Herr n.
        repeat (apply elem_of_cons in Hs as [->|Hs]); cbn in Herr |- *;
          try (rewrite lookup_insert_eq in Herr; discriminate);
          try apply delete_document_own.
        inversion Hs.
      * intros s Hs Hproc.
        repeat (apply elem_of_cons in Hs as [->|Hs]); cbn in Hproc;
          try (rewrite lookup_insert_eq in Hproc; discriminate).
        inversion Hs.
      * intros s other n Hs Hne.
        repeat (apply elem_of_cons in Hs as [->|Hs]); cbn;
          try reflexivity; try (apply Hother; exact Hne);
          try (rewrite delete_document_other by exact Hne; apply Hother, Hne).
        inversion Hs.
  - repeat apply conj.
    + eexists. split; [reflexivity|]. split; [right; split|].
      * cbn. apply lookup_insert_eq.
      * intros n. cbn. apply delete_document_own.
      * unfold some_step_fails. rewrite Hprep. cbn.
        rewrite lookup_insert_eq. split; [reflexivity|exact (fun _ => I)].
    + intros s Hs Herr n.
      repeat (apply elem_of_cons in Hs as [->|Hs]); cbn in Herr |- *;
        try (rewrite lookup_insert_eq in Herr; discriminate);
        try apply delete_document_own.
      inversion Hs.
    + intros s Hs Hproc.
      repeat (apply elem_of_cons in Hs as [->|Hs]); cbn in Hproc;
        try (rewrite lookup_insert_eq in Hproc; discriminate).
      inversion Hs.
    + intros s other n Hs Hne.
      repeat (apply elem_of_cons in Hs as [->|Hs]); cbn;
        try reflexivity;
        try (rewrite delete_document_other by exact Hne; reflexivity).
      inversion Hs.
Qed.

(** An ingestion whose second index write fails: one chunk is written,
    then deleted again, and only then is the document marked [error]. *)
Example ingest_failed_write :
  let trace :=
    ingest (fun file => Ok file) (fun _ => Ok [1%Q; 0%Q])
      (fun key => (key.2 <? 1)%nat) 16 4 "wilson"
      (lit "The Supplier shall deliver the goods.")
      {| index := ∅; status := ∅ |} in
  map (fun s => (size (index s), status s !! "wilson")) trace
  = [(0%nat, Some processing); (1%nat, Some processing);
     (0%nat, Some processing); (0%nat, Some error)].
Proof. vm_compute. reflexivity. Qed.

End IngestionFacts.

(** ** The retriever at its edges *)

Module RetrieverEdges.
Import Py Retriever RetrieverShape RetrieverFacts.

(** *** Sorting and filtering commute *)

Lemma filter_insert_drop t c l :
  meets t c = false ->
  List.filter (meets t) (insert_desc c l) = List.filter (meets t) l.
Proof.
  intros Hc. induction l as [|d l IH]; simpl.
  - rewrite Hc. reflexivity.
  - destruct (Qle_bool (score d) (score c)); simpl.
    + rewrite Hc. reflexivity.
    + rewrite IH. reflexivity.
Qed.

Lemma meets_above t c d :
  meets t c = true -> Qle_bool (score d) (score c) = false -> meets t d = true.
Proof.
  unfold meets. intros Hc Hd. apply Qle_bool_iff. apply Qle_bool_iff in Hc.
  destruct (Qlt_le_dec (score c) (score d)) as [Hlt|Hle].
  - apply Qlt_le_weak. eapply Qle_lt_trans; eassumption.
  - apply Qle_bool_iff in Hle. congruence.
Qed.

Lemma Forall_filter_list {A} (P : A -> Prop) (p : A -> bool) (l : list A) :
  Forall P l -> Forall P (List.filter p l).
Proof.
  induction 1 as [|a l Ha _ IH]; simpl; [constructor|].
  destruct (p a); [constructor; assumption|assumption].
Qed.

Lemma filter_insert_keep t c l :
  meets t c = true -> StronglySorted desc l ->
  List.filter (meets t) (insert_desc c l)
  = insert_desc c (List.filter (meets t) l).
Proof.
  intros Hc. induction 1 as [|d l Hl IH Hd]; simpl.
  - rewrite Hc. reflexivity.
  - destruct (Qle_bool (score d) (score c)) eqn:Hle.
    + cbn [List.filter]. rewrite Hc. symmetry. apply insert_desc_head.
      apply (Forall_filter_list _ (meets t) (d :: l)). constructor.
      * apply Qle_bool_iff. exact Hle.
      * eapply Forall_impl; [exact Hd|]. intros x Hx. unfold desc in Hx.
        apply Qle_bool_iff in Hle. eapply Qle_trans; eassumption.
    + cbn [List.filter]. rewrite (meets_above t c d Hc Hle), IH.
      cbn [insert_desc]. rewrite Hle. reflexivity.
Qed.

Lemma sort_desc_filter t l :
  List.filter (meets t) (sort_desc l) = sort_desc (List.filter (meets t) l).
Proof.
  induction l as [|c l IH]; [reflexivity|]. cbn [sort_desc List.filter].
  destruct (meets t c) eqn:Hc.
  - rewrite filter_insert_keep by (exact Hc || apply sort_desc_sorted).
    rewrite IH. reflexivity.
  - rewrite filter_insert_drop by exact Hc. exact IH.
Qed.

Lemma sort_desc_sorted_id l : StronglySorted desc l -> sort_desc l = l.
Proof.
  induction 1 as [|c l Hl IH Hc]; [reflexivity|]. cbn [sort_desc].
  rewrite IH. apply insert_desc_head. exact Hc.
Qed.

(** In a descending list the entries that reach a threshold come first. *)
Lemma filter_sorted_none t c l :
  meets t c = false -> Forall (desc c) l -> List.filter (meets t) l = [].
Proof.
  intros Hc. induction 1 as [|d l Hd _ IH]; [reflexivity|]. simpl.
  destruct (meets t d) eqn:Hm; [|exact IH]. exfalso.
  unfold meets in *. apply Qle_bool_iff in Hm.
  assert (Qle_bool t (score c) = true) as H; [|congruence].
  apply Qle_bool_iff. eapply Qle_trans; eassumption.
Qed.

Lemma take_filter_sorted t (n : nat) l :
  StronglySorted desc l ->
  take n (List.filter (meets t) l) = List.filter (meets t) (take n l).
Proof.
  intros Hl. revert n. induction Hl as [|c l Hl IH Hc]; intros n.
  - destruct n; reflexivity.
  - destruct n as [|n]; [reflexivity|]. cbn [List.filter take].
    destruct (meets t c) eqn:Hm.
    + cbn [take]. rewrite IH. reflexivity.
    + rewrite (filter_sorted_none t c l Hm Hc).
      rewrite (filter_sorted_none t c (take n l) Hm).
      * destruct n; reflexivity.
      * eapply Forall_prefix; [apply prefix_take|exact Hc].
Qed.

Lemma filter_sorted_prefix t l :
  StronglySorted desc l ->
  List.filter (meets t) l = take (length (List.filter (meets t) l)) l.
Proof.
  induction 1 as [|c l Hl IH Hc]; [reflexivity|]. cbn [List.filter].
  destruct (meets t c) eqn:Hm.
  - cbn [length take]. rewrite <- IH. reflexivity.
  - rewrite (filter_sorted_none t c l Hm Hc). reflexivity.
Qed.

(** *** The loop under two thresholds *)

Lemma make_chunk_score results i s c :
  make_chunk results i s = Ok c -> score c = s.
Proof.
  unfold make_chunk. intros Hc.
  repeat match type of Hc with
  | (mbind _ ?m) = _ => destruct m; simpl in Hc; [|discriminate]
  end.
  injection Hc as <-. reflexivity.
Qed.

Lemma format_step_raise results t1 t2 acc i acc' :
  (t1 <= t2)%Q ->
  format_step results t1 acc i = Ok acc' ->
  format_step results t2 (List.filter (meets t2) acc) i
  = Ok (List.filter (meets t2) acc').
Proof.
  unfold format_step. intros Ht H.
  destruct (distance_at results i) as [d|e]; [|discriminate].
  cbn [mbind result_bind] in *.
  destruct (Qle_bool t1 (similarity d)) eqn:H1.
  - destruct (make_chunk results i (similarity d)) as [c|e] eqn:Hc;
      [|discriminate].
    injection H as <-. rewrite List.filter_app. cbn [List.filter].
    assert (meets t2 c = Qle_bool t2 (similarity d)) as ->.
    { unfold meets. rewrite (make_chunk_score _ _ _ _ Hc). reflexivity. }
    destruct (Qle_bool t2 (similarity d)).
    + reflexivity.
    + rewrite app_nil_r. reflexivity.
  - injection H as <-.
    destruct (Qle_bool t2 (similarity d)) eqn:H2; [|reflexivity]. exfalso.
    apply Qle_bool_iff in H2.
    assert (Qle_bool t1 (similarity d) = true) as H; [|congruence].
    apply Qle_bool_iff. eapply Qle_trans; eassumption.
Qed.

Lemma for_each_raise results t1 t2 idxs acc r :
  (t1 <= t2)%Q ->
  for_each (format_step results t1) idxs acc = Ok r ->
  for_each (format_step results t2) idxs (List.filter (meets t2) acc)
  = Ok (List.filter (meets t2) r).
Proof.
  intros Ht. revert acc. induction idxs as [|i idxs IH]; intros acc; simpl.
  - intros [= <-]. reflexivity.
  - destruct (format_step results t1 acc i) as [acc'|e] eqn:Hs; simpl;
      [|discriminate].
    rewrite (format_step_raise _ _ _ _ _ _ Ht Hs). simpl. apply IH.
Qed.

Lemma format_results_raise results t1 t2 l :
  (t1 <= t2)%Q ->
  format_results results t1 = Ok l ->
  format_results results t2 = Ok (List.filter (meets t2) l).
Proof.
  unfold format_results. intros Ht.
  destruct (index (ids results) 0) as [row|e]; simpl; [|discriminate].
  apply (for_each_raise results t1 t2 _ [] l Ht).
Qed.

(** *** Scores and distances *)

Lemma format_results_scores results threshold chunks :
  format_results results threshold = Ok chunks ->
  Forall (fun c => exists i d, distance_at results i = Ok d /\
                               score c = similarity d) chunks.
Proof.
  unfold format_results.
  destruct (index (ids results) 0) as [row|e]; simpl; [|discriminate].
  apply for_each_invariant; [|constructor].
  intros acc i acc' Hacc. unfold format_step.
  destruct (distance_at results i) as [d|e] eqn:Hd; simpl; [|discriminate].
  destruct (Qle_bool threshold (similarity d)); simpl.
  - destruct (make_chunk results i (similarity d)) as [c|e] eqn:Hc; simpl;
      [|discriminate].
    intros [= <-]. apply Forall_app. split; [exact Hacc|].
    constructor; [|constructor]. exists i, d.
    split; [exact Hd|]. eapply make_chunk_score; exact Hc.
  - intros [= <-]. exact Hacc.
Qed.

(** *** Lists by position *)

Lemma StronglySorted_by_lookup {A} (R : A -> A -> Prop) (l : list A) :
  (forall i j x y, (i < j)%nat -> l !! i = Some x -> l !! j = Some y -> R x y) ->
  StronglySorted R l.
Proof.
  induction l as [|a l IH]; intros H; constructor.
  - apply IH. intros i j x y Hij Hx Hy. apply (H (S i) (S j)); [lia|assumption..].
  - apply Forall_lookup. intros j y Hy. apply (H 0%nat (S j)); [lia|reflexivity|exact Hy].
Qed.

Lemma StronglySorted_at {A} (R : A -> A -> Prop) (l : list A) i j x y :
  StronglySorted R l -> (i < j)%nat ->
  l !! i = Some x -> l !! j = Some y -> R x y.
Proof.
  intros Hl. revert i j. induction Hl as [|a l Hl IH Ha]; intros i j Hij Hx Hy.
  - discriminate.
  - destruct j as [|j]; [lia|]. destruct i as [|i].
    + injection Hx as <-. rewrite Forall_lookup in Ha. eapply Ha. exact Hy.
    + apply (IH i j); [lia|assumption..].
Qed.

(** *** Incomplete metadata *)

Lemma has_keys_true meta :
  has_keys meta = true ->
  exists did title,
    meta !! "document_id" = Some did /\ meta !! "document_title" = Some title.
Proof.
  unfold has_keys. intros H. apply andb_prop in H as [H1 H2].
  apply bool_decide_eq_true in H1 as [did H1].
  apply bool_decide_eq_true in H2 as [title H2]. eauto.
Qed.

Lemma has_keys_false meta :
  has_keys meta = false ->
  meta !! "document_id" = None \/
  (exists did, meta !! "document_id" = Some did) /\
  meta !! "document_title" = None.
Proof.
  unfold has_keys. intros H.
  destruct (meta !! "document_id") as [did|] eqn:H1; [|left; reflexivity].
  right. split; [eauto|].
  destruct (meta !! "document_title") as [title|] eqn:H2; [|reflexivity].
  rewrite !bool_decide_eq_true_2 in H by eauto. discriminate.
Qed.

Lemma make_chunk_rows results id_row meta_row doc_row i s meta :
  rows results id_row meta_row doc_row ->
  meta_row !! i = Some meta ->
  if has_keys meta
  then exists c, make_chunk results i s = Ok c
  else make_chunk results i s = Raise KeyError.
Proof.
  intros (Hi & Hm & Hd & Hlm & Hld & _) Hmeta.
  pose proof (lookup_lt_Some _ _ _ Hmeta) as Hlt.
  destruct (lookup_lt_is_Some_2 id_row i) as [cid Hcid]; [lia|].
  destruct (lookup_lt_is_Some_2 doc_row i) as [txt Htxt]; [lia|].
  unfold make_chunk, index, getitem.
  rewrite Hi, Hm, Hd. cbn [mbind result_bind].
  rewrite Hcid, Hmeta, Htxt. cbn [mbind result_bind].
  destruct (has_keys meta) eqn:Hk.
  - apply has_keys_true in Hk as (did & title & H1 & H2).
    rewrite H1, H2. cbn [mbind result_bind]. eauto.
  - apply has_keys_false in Hk as [H1|[[did H1] H2]].
    + rewrite H1. reflexivity.
    + rewrite H1, H2. reflexivity.
Qed.

Lemma distance_at_rows results id_row meta_row doc_row i :
  rows results id_row meta_row doc_row -> (i < length id_row)%nat ->
  exists d, distance_at results i = Ok d.
Proof.
  intros (_ & _ & _ & _ & _ & Hdist) Hlt. unfold distance_at, index.
  destruct (distances results) as [ds|]; [|eauto].
  destruct Hdist as (row & Hrow & Hlen). rewrite Hrow; simpl.
  destruct (lookup_lt_is_Some_2 row i) as [d Hd]; [lia|].
  rewrite Hd. eauto.
Qed.

Lemma incomplete_dec results threshold meta_row i :
  incomplete results threshold meta_row i \/
  ~ incomplete results threshold meta_row i.
Proof.
  unfold incomplete.
  destruct (distance_at results i) as [d|e] eqn:Hd;
    [|right; intros (d & meta & H & _); discriminate].
  destruct (meta_row !! i) as [meta|] eqn:Hm;
    [|right; intros (d' & meta & _ & _ & H & _); discriminate].
  destruct (Qlt_le_dec (similarity d) threshold) as [Hlt|Hle].
  - right. intros (d' & meta' & [= <-] & Hle & _).
    eapply Qlt_not_le; eassumption.
  - destruct (has_keys meta) eqn:Hk.
    + right. intros (d' & meta' & _ & _ & [= <-] & Hk'). congruence.
    + left. exists d, meta. auto.
Qed.

Lemma for_each_rows results threshold id_row meta_row doc_row idxs acc :
  rows results id_row meta_row doc_row ->
  (forall i, i ∈ idxs -> (i < length id_row)%nat) ->
  ((exists i, i ∈ idxs /\ incomplete results threshold meta_row i) /\
   for_each (format_step results threshold) idxs acc = Raise KeyError) \/
  ((forall i, i ∈ idxs -> ~ incomplete results threshold meta_row i) /\
   exists r, for_each (format_step results threshold) idxs acc = Ok r).
Proof.
  intros Hrows. revert acc. induction idxs as [|i idxs IH]; intros acc Hlt.
  - right. split; [intros i Hi; inversion Hi|]. simpl. eauto.
  - assert (i < length id_row)%nat as Hi by (apply Hlt; left).
    destruct (distance_at_rows _ _ _ _ i Hrows Hi) as [d Hd].
    pose proof Hrows as (_ & _ & _ & Hlm & _).
    destruct (lookup_lt_is_Some_2 meta_row i) as [meta Hmeta]; [lia|].
    pose proof (make_chunk_rows _ _ _ _ i (similarity d) meta Hrows Hmeta) as Hmk.
    assert (forall j, j ∈ idxs -> (j < length id_row)%nat)
      as Hlt' by (intros j Hj; apply Hlt; right; exact Hj).
    assert (format_step results threshold acc i
            = if Qle_bool threshold (similarity d)
              then c ← make_chunk results i (similarity d); mret (acc ++ [c])
              else mret acc) as Hstep.
    { unfold format_step. rewrite Hd. reflexivity. }
    cbn [for_each]. rewrite Hstep. clear Hstep.
    destruct (Qle_bool threshold (similarity d)) eqn:Hle.
    + destruct (has_keys meta) eqn:Hk.
      * destruct Hmk as [c Hc]. rewrite Hc. cbn [mbind result_bind mret result_ret].
        destruct (IH (acc ++ [c]) Hlt') as [[(j & Hj & Hbad) Hr]|[Hgood Hr]].
        -- left. split; [|exact Hr]. exists j. split; [right; exact Hj|exact Hbad].
        -- right. split; [|exact Hr]. intros j Hj.
           apply elem_of_cons in Hj as [->|Hj]; [|apply Hgood; exact Hj].
           intros (d' & meta' & _ & _ & Hm' & Hk').
           rewrite Hmeta in Hm'. injection Hm' as <-. congruence.
      * rewrite Hmk. left. split; [|reflexivity].
        exists i. split; [left|]. exists d, meta.
        split; [exact Hd|]. split; [apply Qle_bool_iff; exact Hle|]. auto.
    + cbn [mbind result_bind mret result_ret].
      destruct (IH acc Hlt') as [[(j & Hj & Hbad) Hr]|[Hgood Hr]].
      * left. split; [|exact Hr]. exists j. split; [right; exact Hj|exact Hbad].
      * right. split; [|exact Hr]. intros j Hj.
        apply elem_of_cons in Hj as [->|Hj]; [|apply Hgood; exact Hj].
        intros (d' & meta' & Hd' & Hle' & _).
        rewrite Hd in Hd'. injection Hd' as <-.
        apply Qle_bool_iff in Hle'. congruence.
Qed.

(** *** The [where] argument *)

Lemma where_clause_copy f : where_clause (Some f) = f.
Proof.
  unfold where_clause.
  apply (map_fold_weak_ind (fun r m => r = m)); [reflexivity|].
  intros i x m r Hi -> . reflexivity.
Qed.

(** *** Sample answers *)

Lemma sample_results_well_formed : well_formed sample_results.
Proof.
  exists ["wilson_chunk_0"; "wilson_chunk_1"; "nda_chunk_0"],
    [sample_meta "wilson" "Wilson Agreement";
     sample_meta "wilson" "Wilson Agreement";
     sample_meta "nda" "Mutual NDA"],
    ["The Supplier shall deliver"; "Payment is due"; "Each party shall keep"].
  repeat split; try reflexivity.
  - repeat constructor; vm_compute; eauto.
  - simpl. eexists. split; reflexivity.
Qed.

Lemma ranked_results_well_formed : well_formed ranked_results.
Proof.
  exists ["wilson_chunk_0"; "nda_chunk_0"; "wilson_chunk_1"],
    [sample_meta "wilson" "Wilson Agreement";
     sample_meta "nda" "Mutual NDA";
     sample_meta "wilson" "Wilson Agreement"],
    ["The Supplier shall deliver"; "Each party shall keep"; "Payment is due"].
  repeat split; try reflexivity.
  - repeat constructor; vm_compute; eauto.
  - simpl. eexists. split; reflexivity.
Qed.

Lemma sample_results_distances i d :
  distance_at sample_results i = Ok d -> (0 <= d)%Q /\ (d <= 2)%Q.
Proof.
  destruct i as [|[|[|i]]]; vm_compute; intros H; try discriminate;
    injection H as <-; split; discriminate.
Qed.

Lemma untitled_results_rows :
  rows untitled_results ["wilson_chunk_0"; "wilson_chunk_1"]
    [sample_meta "wilson" "Wilson Agreement"; <["document_id" := "wilson"]> ∅]
    ["The Supplier shall deliver"; "Payment is due"].
Proof.
  repeat split; try reflexivity. simpl. eexists. split; reflexivity.
Qed.

(** *** Properties *)

(** X1: a negative [top_k] does not give an empty answer: [chunks[:top_k]]
    then drops the last [-top_k] entries of the sorted list of candidates
    that reach the threshold, and everything before them is returned. *)
Theorem query_documents_negative_top_k
  (collection_query : string -> Z -> option (gmap string string) ->
                      result QueryResult)
  (query_text : string) (filters : option (gmap string string))
  (top_k : Z) (threshold : Q) (results : QueryResult) :
  top_k < 0 ->
  collection_query query_text (top_k * 2) (where_arg filters) = Ok results ->
  well_formed results ->
  exists id_row cands,
    ids results !! 0%nat = Some id_row /\
    length cands = length id_row /\
    (forall i c, cands !! i = Some c -> candidate results i c) /\
    let kept := List.filter (meets threshold) cands in
    let n := (length kept - Z.to_nat (- top_k))%nat in
    query_documents collection_query query_text filters top_k threshold
    = Ok (take n (sort_desc kept)) /\
    length (take n (sort_desc kept)) = n.
Proof.
  intros Hneg Hq Hwf.
  destruct (format_results_well_formed results Hwf)
    as (id_row & cands & Hi & Hlen & Hcand & Hrun).
  exists id_row, cands. split; [exact Hi|]. split; [exact Hlen|].
  split; [exact Hcand|]. cbv zeta.
  pose proof (Permutation_length (sort_desc_perm (List.filter (meets threshold) cands)))
    as Hperm.
  split.
  - unfold query_documents. rewrite Hq. cbn [mbind result_bind].
    rewrite Hrun. cbn [mbind result_bind mret result_ret]. unfold slice_to.
    destruct (0 <=? top_k) eqn:Hk; [apply Z.leb_le in Hk; lia|].
    do 2 f_equal. rewrite Hperm. lia.
  - rewrite length_take, Hperm. lia.
Qed.

Lemma query_documents_negative_top_k_witness :
  exists id_row cands,
    ids sample_results !! 0%nat = Some id_row /\
    length cands = length id_row /\
    (forall i c, cands !! i = Some c -> candidate sample_results i c) /\
    let kept := List.filter (meets (1 # 10)%Q) cands in
    let n := (length kept - Z.to_nat (- -1))%nat in
    query_documents (constant_collection sample_results) "termination" None (-1)
      (1 # 10)%Q = Ok (take n (sort_desc kept)) /\
    length (take n (sort_desc kept)) = n.
Proof.
  apply (query_documents_negative_top_k (constant_collection sample_results)
           "termination" None (-1) (1 # 10)%Q sample_results).
  - lia.
  - reflexivity.
  - exact sample_results_well_formed.
Defined.

(** X2: raising the threshold only removes entries from an answer: for a
    non-negative [top_k], the answer at a higher threshold is the answer
    at the lower one without the entries below the higher threshold, in
    the same order; and whenever the query at the lower threshold returns,
    so does the query at the higher one. *)
Theorem query_documents_threshold_monotone
  (collection_query : string -> Z -> option (gmap string string) ->
                      result QueryResult)
  (query_text : string) (filters : option (gmap string string))
  (top_k : Z) (t1 t2 : Q) (out1 : list Chunk) :
  0 <= top_k -> (t1 <= t2)%Q ->
  query_documents collection_query query_text filters top_k t1 = Ok out1 ->
  query_documents collection_query query_text filters top_k t2
  = Ok (List.filter (meets t2) out1).
Proof.
  intros Hk Ht. unfold query_documents.
  destruct (collection_query query_text (top_k * 2) (where_arg filters))
    as [results|e]; [|discriminate].
  cbn [mbind result_bind].
  destruct (format_results results t1) as [l1|e] eqn:H1; [|discriminate].
  cbn [mbind result_bind mret result_ret]. intros [= <-].
  rewrite (format_results_raise _ _ _ _ Ht H1).
  cbn [mbind result_bind mret result_ret]. f_equal.
  rewrite !slice_to_nonneg by exact Hk.
  rewrite <- sort_desc_filter. apply take_filter_sorted, sort_desc_sorted.
Qed.

Lemma query_documents_threshold_monotone_witness :
  query_documents (constant_collection sample_results) "termination" None 5
    (3 # 10)%Q
  = Ok (List.filter (meets (3 # 10)%Q)
          (sort_desc
             [{| chunk_id := "wilson_chunk_0"; document_id := "wilson";
                 document_title := "Wilson Agreement";
                 text := "The Supplier shall deliver";
                 score := similarity (4 # 10) |};
              {| chunk_id := "wilson_chunk_1"; document_id := "wilson";
                 document_title := "Wilson Agreement";
                 text := "Payment is due";
                 score := similarity (16 # 10) |};
              {| chunk_id := "nda_chunk_0"; document_id := "nda";
                 document_title := "Mutual NDA";
                 text := "Each party shall keep";
                 score := similarity (4 # 10) |}])).
Proof.
  apply (query_documents_threshold_monotone (constant_collection sample_results)
           "termination" None 5 (1 # 10)%Q (3 # 10)%Q).
  - lia.
  - discriminate.
  - reflexivity.
Defined.

(** X3: when the backend ranks its candidates by ascending distance, as a
    nearest-neighbour search does, the candidates that reach the threshold
    are the first [m] of them for some [m], the sort moves nothing, and
    the answer is cut from these first [m] candidates in backend order. *)
Theorem query_documents_ranked_backend
  (collection_query : string -> Z -> option (gmap string string) ->
                      result QueryResult)
  (query_text : string) (filters : option (gmap string string))
  (top_k : Z) (threshold : Q) (results : QueryResult)
  (ds : list (list Q)) (row : list Q) :
  collection_query query_text (top_k * 2) (where_arg filters) = Ok results ->
  well_formed results ->
  distances results = Some ds -> ds !! 0%nat = Some row ->
  StronglySorted Qle row ->
  exists cands m,
    length cands = length row /\
    (forall i c, cands !! i = Some c -> candidate results i c) /\
    List.filter (meets threshold) cands = take m cands /\
    query_documents collection_query query_text filters top_k threshold
    = Ok (slice_to (take m cands) top_k).
Proof.
  intros Hq Hwf Hds Hrow Hsorted.
  destruct (format_results_well_formed results Hwf)
    as (id_row & cands & Hi & Hlen & Hcand & Hrun).
  assert (length row = length id_row) as Hlr.
  { destruct Hwf as (id_row' & ? & ? & Hi' & _ & _ & _ & _ & _ & Hd).
    rewrite Hds in Hd. destruct Hd as (row' & Hrow' & Hl).
    congruence. }
  assert (forall i c, cands !! i = Some c ->
            exists d, row !! i = Some d /\ score c = similarity d) as Hscore.
  { intros i c Hc. destruct (Hcand i c Hc)
      as (? & ? & ? & ? & d & _ & _ & _ & _ & _ & _ & _ & _ & Hd & Hs).
    exists d. split; [|exact Hs]. unfold distance_at, index in Hd.
    rewrite Hds, Hrow in Hd. cbn [mbind result_bind] in Hd.
    destruct (row !! i); [congruence|discriminate]. }
  assert (StronglySorted desc cands) as Hdesc.
  { apply StronglySorted_by_lookup. intros i j x y Hij Hx Hy.
    destruct (Hscore i x Hx) as (dx & Hdx & Hsx).
    destruct (Hscore j y Hy) as (dy & Hdy & Hsy).
    unfold desc. rewrite Hsx, Hsy. apply similarity_antitone.
    exact (StronglySorted_at Qle row i j dx dy Hsorted Hij Hdx Hdy). }
  exists cands, (length (List.filter (meets threshold) cands)).
  split; [congruence|]. split; [exact Hcand|].
  split; [apply filter_sorted_prefix; exact Hdesc|].
  unfold query_documents. rewrite Hq. cbn [mbind result_bind].
  rewrite Hrun. cbn [mbind result_bind mret result_ret].
  rewrite <- sort_desc_filter, (sort_desc_sorted_id cands Hdesc).
  rewrite <- filter_sorted_prefix by exact Hdesc. reflexivity.
Qed.

Lemma query_documents_ranked_backend_witness :
  exists cands m,
    length cands = length [(4 # 10)%Q; (8 # 10)%Q; (16 # 10)%Q] /\
    (forall i c, cands !! i = Some c -> candidate ranked_results i c) /\
    List.filter (meets (3 # 10)%Q) cands = take m cands /\
    query_documents (constant_collection ranked_results) "termination" None 5
      (3 # 10)%Q = Ok (slice_to (take m cands) 5).
Proof.
  apply (query_documents_ranked_backend (constant_collection ranked_results)
           "termination" None 5 (3 # 10)%Q ranked_results
           [[(4 # 10)%Q; (8 # 10)%Q; (16 # 10)%Q]]).
  - reflexivity.
  - exact ranked_results_well_formed.
  - reflexivity.
  - reflexivity.
  - repeat constructor; discriminate.
Defined.

(** X4: every score handed out is the similarity of a distance of the backend
    answer (or of the default distance), so when these distances lie
    between 0 and 2 the scores lie between 0 and 1. *)
Theorem query_documents_scores_in_unit_interval
  (collection_query : string -> Z -> option (gmap string string) ->
                      result QueryResult)
  (query_text : string) (filters : option (gmap string string))
  (top_k : Z) (threshold : Q) (results : QueryResult) (out : list Chunk) :
  collection_query query_text (top_k * 2) (where_arg filters) = Ok results ->
  (forall i d, distance_at results i = Ok d -> (0 <= d)%Q /\ (d <= 2)%Q) ->
  query_documents collection_query query_text filters top_k threshold = Ok out ->
  Forall (fun c => (exists i d, distance_at results i = Ok d /\
                                score c = similarity d) /\
                   (0 <= score c)%Q /\ (score c <= 1)%Q) out.
Proof.
  intros Hq Hd. unfold query_documents. rewrite Hq. cbn [mbind result_bind].
  destruct (format_results results threshold) as [chunks|e] eqn:Hf;
    [|discriminate].
  cbn [mbind result_bind mret result_ret]. intros [= <-].
  eapply Forall_prefix; [apply slice_to_prefix|].
  rewrite (sort_desc_perm chunks).
  eapply Forall_impl; [exact (format_results_scores _ _ _ Hf)|].
  intros c (i & d & Hi & Hs). split; [eauto|].
  rewrite Hs. apply similarity_unit_interval. eapply Hd. exact Hi.
Qed.

Lemma query_documents_scores_in_unit_interval_witness :
  Forall (fun c => (exists i d, distance_at sample_results i = Ok d /\
                                score c = similarity d) /\
                   (0 <= score c)%Q /\ (score c <= 1)%Q)
    [{| chunk_id := "wilson_chunk_0"; document_id := "wilson";
        document_title := "Wilson Agreement";
        text := "The Supplier shall deliver";
        score := similarity (4 # 10) |}].
Proof.
  apply (query_documents_scores_in_unit_interval
           (constant_collection sample_results) "termination" None 1
           (3 # 10)%Q sample_results).
  - reflexivity.
  - exact sample_results_distances.
  - reflexivity.
Defined.

(** X5: the metadata of a candidate is read only when the candidate reaches
    the threshold.  On an answer whose rows have one length, the query
    raises [KeyError] as soon as one candidate that reaches the threshold
    lacks ["document_id"] or ["document_title"], whatever [top_k] is; and
    it returns when every candidate that reaches the threshold has both,
    whatever the metadata of the others. *)
Theorem query_documents_incomplete_metadata
  (collection_query : string -> Z -> option (gmap string string) ->
                      result QueryResult)
  (query_text : string) (filters : option (gmap string string))
  (top_k : Z) (threshold : Q) (results : QueryResult)
  (id_row : list string) (meta_row : list (gmap string string))
  (doc_row : list string) :
  collection_query query_text (top_k * 2) (where_arg filters) = Ok results ->
  rows results id_row meta_row doc_row ->
  ((exists i, incomplete results threshold meta_row i) ->
   query_documents collection_query query_text filters top_k threshold
   = Raise KeyError) /\
  ((forall i, ~ incomplete results threshold meta_row i) ->
   exists out,
     query_documents collection_query query_text filters top_k threshold
     = Ok out).
Proof.
  intros Hq Hrows. unfold query_documents. rewrite Hq.
  cbn [mbind result_bind]. unfold format_results, index.
  pose proof Hrows as (Hi & _ & _ & Hlm & _). rewrite Hi.
  cbn [mbind result_bind].
  destruct (for_each_rows results threshold id_row meta_row doc_row
              (seq 0 (length id_row)) [] Hrows)
    as [[_ Hr]|[Hgood [r Hr]]].
  { intros i Hin. apply elem_of_seq in Hin. lia. }
  - rewrite Hr. split; [reflexivity|].
    intros Hnone. exfalso.
    destruct (for_each_rows results threshold id_row meta_row doc_row
                (seq 0 (length id_row)) [] Hrows)
      as [[(i & _ & Hbad) _]|[_ [r Hr']]].
    { intros i Hin. apply elem_of_seq in Hin. lia. }
    + exact (Hnone i Hbad).
    + congruence.
  - rewrite Hr. cbn [mbind result_bind mret result_ret].
    split; [|eauto]. intros (i & Hbad). exfalso.
    apply (Hgood i); [|exact Hbad]. apply elem_of_seq.
    destruct Hbad as (_ & meta & _ & _ & Hm & _).
    apply lookup_lt_Some in Hm. lia.
Qed.

Lemma query_documents_incomplete_metadata_witness :
  query_documents (constant_collection untitled_results) "payment" None 5
    (1 # 10)%Q = Raise KeyError /\
  exists out,
    query_documents (constant_collection untitled_results) "payment" None 5
      (3 # 10)%Q = Ok out.
Proof.
  split.
  - apply (query_documents_incomplete_metadata
             (constant_collection untitled_results) "payment" None 5
             (1 # 10)%Q untitled_results _ _ _ eq_refl untitled_results_rows).
    exists 1%nat, (16 # 10)%Q, (<["document_id" := "wilson"]> ∅).
    repeat split; discriminate.
  - apply (query_documents_incomplete_metadata
             (constant_collection untitled_results) "payment" None 5
             (3 # 10)%Q untitled_results _ _ _ eq_refl untitled_results_rows).
    intros [|[|i]] (d & meta & Hd & Hle & Hm & Hk); vm_compute in Hd, Hm.
    + injection Hm as <-. vm_compute in Hk. discriminate.
    + injection Hd as <-. apply Hle. reflexivity.
    + discriminate.
Defined.

(** X6: the one call to the backend is
    [collection.query(query_texts=[query_text], n_results=top_k * 2,
    where=w)], where [w] is [None] when [filters] is [None] or an empty
    dict and a dict equal to [filters] otherwise.  What [query_documents]
    returns is decided by the answer to that call alone: its exception
    is passed on, and its result is formatted, sorted and cut; so an
    empty filter and no filter are the same query. *)
Theorem query_documents_where_argument
  (collection_query : string -> Z -> option (gmap string string) ->
                      result QueryResult)
  (query_text : string) (filters : option (gmap string string))
  (top_k : Z) (threshold : Q) :
  let w :=
    match filters with
    | Some f => if decide (f = ∅) then None else Some f
    | None => None
    end in
  query_documents collection_query query_text filters top_k threshold
  = match collection_query query_text (top_k * 2) w with
    | Ok results =>
        match format_results results threshold with
        | Ok chunks => Ok (slice_to (sort_desc chunks) top_k)
        | Raise e => Raise e
        end
    | Raise e => Raise e
    end /\
  (forall e,
     collection_query query_text (top_k * 2) w = Raise e ->
     query_documents collection_query query_text filters top_k threshold
     = Raise e) /\
  (forall w', w' <> w ->
     query_documents
       (fun q n x => if decide (x = w') then Raise ConfigurationError
                     else collection_query q n x)
       query_text filters top_k threshold
     = query_documents collection_query query_text filters top_k threshold) /\
  (forall filters',
     where_arg filters' =
     match filters' with
     | Some f => if decide (f = ∅) then None else Some f
     | None => None
     end) /\
  query_documents collection_query query_text (Some ∅) top_k threshold
  = query_documents collection_query query_text None top_k threshold.
Proof.
  assert (forall filters',
     where_arg filters' =
     match filters' with
     | Some f => if decide (f = ∅) then None else Some f
     | None => None
     end) as H.
  { intros [f|]; [|reflexivity]. unfold where_arg.
    rewrite where_clause_copy. reflexivity. }
  cbv zeta.
  assert (forall cq,
    query_documents cq query_text filters top_k threshold
    = match cq query_text (top_k * 2)
              (match filters with
               | Some f => if decide (f = ∅) then None else Some f
               | None => None
               end) with
      | Ok results =>
          match format_results results threshold with
          | Ok chunks => Ok (slice_to (sort_desc chunks) top_k)
          | Raise e => Raise e
          end
      | Raise e => Raise e
      end) as Hcall.
  { intros cq. unfold query_documents. rewrite H.
    destruct (cq query_text (top_k * 2) _) as [results|e]; [|reflexivity].
    cbn [mbind result_bind].
    destruct (format_results results threshold); reflexivity. }
  split; [apply Hcall|]. split; [|split; [|split; [exact H|]]].
  - intros e He. rewrite Hcall, He. reflexivity.
  - intros w' Hne. rewrite !Hcall.
    destruct (decide (_ = w')) as [Heq|_]; [|reflexivity].
    exfalso. apply Hne. symmetry. exact Heq.
  - unfold query_documents. rewrite !H.
    destruct (decide (∅ = ∅)) as [_|Hne]; [reflexivity|].
    exfalso. apply Hne. reflexivity.
Qed.

End RetrieverEdges.

(** ** The three renderers compared *)

Module RendererFacts.
Import Exn Regex RegexFacts Types.
Import QueryPageFacts ResponseDisplayFacts.



(** *** Bare markers *)

Lemma bare_marker_inv s ds post :
  QueryPage.bare_marker s = Some (ds, post) ->
  s = token ds ++ post /\ ds <> [] /\ all_digits ds.
Proof.
  unfold QueryPage.bare_marker. destruct s as [|c t]; [discriminate|].
  destruct (Ascii.eqb "[" c) eqn:Hc; [|discriminate].
  apply Ascii.eqb_eq in Hc. subst c.
  pose proof (take_drop_while is_digit t) as Hsplit.
  pose proof (take_while_all is_digit t) as Hall.
  destruct (take_while is_digit t) as [|d ds']; [discriminate|].
  destruct (drop_while is_digit t) as [|e post']; [discriminate|].
  destruct (Ascii.eqb "]" e) eqn:He; [|discriminate].
  apply Ascii.eqb_eq in He. subst e. intros [= <- <-].
  split; [|split; [discriminate|exact Hall]].
  unfold token, open, close. rewrite <- Hsplit.
  cbn [app]. rewrite <- app_assoc. reflexivity.
Qed.

(** The split pattern of the plain display matches a bare marker, and
    captures all of it. *)
Lemma match_here_simple s :
  match_here SimpleDisplay.splitPattern s =
  match QueryPage.bare_marker s with
  | Some (ds, post) =>
      Some {| matched := token ds; group1 := Some (token ds); rest := post |}
  | None => None
  end.
Proof.
  unfold match_here, SimpleDisplay.splitPattern, Plus, QueryPage.bare_marker.
  destruct s as [|c t]; [reflexivity|].
  cbn [rmatch one]. destruct (Ascii.eqb "[" c) eqn:Hc; [|reflexivity].
  apply Ascii.eqb_eq in Hc. subst c.
  destruct t as [|d t']; [reflexivity|].
  cbn [one take_while drop_while]. destruct (is_digit d) eqn:Hd; [|reflexivity].
  rewrite repeat_class by reflexivity.
  rewrite greedy_longest.
  2:{ intros c u Hcu. cbn [one]. rewrite (digit_is_not_close _ Hcu). reflexivity. }
  pose proof (take_drop_while is_digit t') as Hsplit.
  destruct (drop_while is_digit t') as [|e post] eqn:Hdrop.
  - reflexivity.
  - cbn [one]. destruct (Ascii.eqb "]" e) eqn:He; [|reflexivity].
    apply Ascii.eqb_eq in He. subst e.
    remember (take_while is_digit t') as ds eqn:Hds.
    clear Hds Hdrop. subst t'.
    rewrite (take_length_diff (token (d :: ds)) post
               ("["%char :: d :: ds ++ "]"%char :: post)).
    2:{ unfold token, open, close. simpl. rewrite <- app_assoc. reflexivity. }
    reflexivity.
Qed.

Lemma exec_marker ds :
  ds <> [] -> all_digits ds ->
  exec SimpleDisplay.citationPattern (token ds)
  = Some ([], QueryPage.marker_match ds []).
Proof.
  intros Hne Hds.
  change SimpleDisplay.citationPattern with QueryPage.citationPattern.
  unfold token, open, close. destruct ds as [|d ds]; [congruence|].
  cbn [app exec]. rewrite match_here_bare.
  change ("["%char :: d :: ds ++ ["]"%char])
    with ("["%char :: (d :: ds) ++ "]"%char :: []).
  rewrite (bare_marker_digits (d :: ds) [] Hne Hds). reflexivity.
Qed.

(** *** Text without a marker *)

Lemma unmarked_exec s :
  SimpleDisplay.unmarked s -> exec QueryPage.citationPattern s = None.
Proof. apply exec_none. Qed.

Lemma unmarked_query_page citations s :
  SimpleDisplay.unmarked s -> QueryPage.renderResponseWithCitations s citations = s.
Proof.
  intros H. unfold QueryPage.renderResponseWithCitations.
  rewrite replace_unfold, (unmarked_exec s H). reflexivity.
Qed.

Lemma unmarked_cited citations s :
  SimpleDisplay.unmarked s -> SimpleDisplay.cited citations s = None.
Proof.
  intros H. unfold SimpleDisplay.cited.
  change SimpleDisplay.citationPattern with QueryPage.citationPattern.
  rewrite (unmarked_exec s H). reflexivity.
Qed.

Lemma no_open_unmarked s : no_open s -> SimpleDisplay.unmarked s.
Proof.
  intros H t [pre ->]. apply Forall_app in H as [_ H].
  apply bare_marker_no_open. destruct t as [|c t]; [exact I|].
  inversion H; assumption.
Qed.

(** *** The plain display, part by part *)

Lemma map_indexed_simple citations parts index :
  ResponseDisplay.map_indexed (SimpleDisplay.render_part citations) index
    (map Some parts)
  = Ok (imap (fun i => SimpleDisplay.render_text citations (index + i)) parts).
Proof.
  revert index. induction parts as [|part parts IH]; intros index;
    [reflexivity|].
  cbn [map ResponseDisplay.map_indexed imap SimpleDisplay.render_part].
  cbn [mbind result_bind]. rewrite IH, Nat.add_0_r.
  cbn [mbind result_bind mret result_ret].
  do 2 f_equal. apply imap_ext. intros i x _. simpl. f_equal. lia.
Qed.

Lemma children_simple citations index part :
  SimpleDisplay.children_of (SimpleDisplay.render_text citations index part)
  = part.
Proof.
  unfold SimpleDisplay.render_text.
  destruct (SimpleDisplay.cited citations part); reflexivity.
Qed.

Lemma to_html_key citations index part :
  SimpleDisplay.to_html (SimpleDisplay.render_text citations index part)
  = SimpleDisplay.to_html (SimpleDisplay.render_text citations 0 part).
Proof.
  unfold SimpleDisplay.render_text.
  destruct (SimpleDisplay.cited citations part); reflexivity.
Qed.

Lemma to_html_unmarked citations index part :
  SimpleDisplay.unmarked part ->
  SimpleDisplay.to_html (SimpleDisplay.render_text citations index part) = part.
Proof.
  intros H. unfold SimpleDisplay.render_text.
  rewrite (unmarked_cited citations part H). reflexivity.
Qed.

Lemma range_checks (n len : Z) :
  (0 <=? n - 1) && (n - 1 <? len) = (1 <=? n) && (n <=? len).
Proof.
  destruct (0 <=? n - 1) eqn:H1, (n - 1 <? len) eqn:H2,
    (1 <=? n) eqn:H3, (n <=? len) eqn:H4; try reflexivity; exfalso;
    rewrite ?Z.leb_le, ?Z.leb_gt, ?Z.ltb_lt, ?Z.ltb_ge in *; lia.
Qed.

Lemma cited_marker citations ds n :
  ds <> [] -> all_digits ds -> parseInt ds = Some n ->
  SimpleDisplay.cited citations (token ds)
  = SimpleDisplay.nth_citation citations n.
Proof.
  intros Hne Hds Hn. unfold SimpleDisplay.cited, SimpleDisplay.nth_citation.
  rewrite (exec_marker ds Hne Hds).
  cbn [QueryPage.marker_match group1 to_string]. rewrite Hn.
  cbv zeta. rewrite range_checks. reflexivity.
Qed.

(** A marker is rendered to the HTML that the Query page's replacer
    returns for it. *)
Lemma to_html_marker citations index ds :
  ds <> [] -> all_digits ds ->
  SimpleDisplay.to_html (SimpleDisplay.render_text citations index (token ds))
  = QueryPage.replacer citations (token ds) (Some ds).
Proof.
  intros Hne Hds. unfold SimpleDisplay.render_text, SimpleDisplay.cited.
  rewrite (exec_marker ds Hne Hds).
  cbn [QueryPage.marker_match group1]. unfold QueryPage.replacer.
  destruct (parseInt (to_string (Some ds))) as [n|]; [|reflexivity].
  cbv zeta.
  destruct ((0 <=? n - 1) && (n - 1 <? Z.of_nat (length citations)));
    [|reflexivity].
  destruct (citations !! Z.to_nat (n - 1)) as [c|]; [|reflexivity].
  unfold SimpleDisplay.to_html. cbn [to_string]. do 7 f_equal.
  unfold token, open, close, lit. simpl. rewrite <- app_assoc. reflexivity.
Qed.

Lemma unmarked_pending pending ds post :
  (forall t, t <> [] -> t `suffix_of` pending ->
     QueryPage.bare_marker (t ++ token ds ++ post) = None) ->
  SimpleDisplay.unmarked pending.
Proof.
  intros Hinv t Hsuf. destruct t as [|c t]; [reflexivity|].
  specialize (Hinv (c :: t) ltac:(discriminate) Hsuf).
  change ((c :: t) ++ token ds ++ post)
    with ((c :: t) ++ "["%char :: (ds ++ [close]) ++ post) in Hinv.
  rewrite bare_marker_app in Hinv.
  destruct (QueryPage.bare_marker (c :: t)) as [[ds' post']|];
    [discriminate|reflexivity].
Qed.

Lemma split_loop_html citations pending s :
  (forall t, t <> [] -> t `suffix_of` pending ->
     QueryPage.bare_marker (t ++ s) = None) ->
  exists parts,
    split_loop SimpleDisplay.splitPattern pending s = map Some parts /\
    concat parts = pending ++ s /\
    SimpleDisplay.parts_html citations parts
    = QueryPage.renderResponseWithCitations (pending ++ s) citations.
Proof.
  remember (length s) as n eqn:Hn. revert pending s Hn.
  induction n as [n IH] using lt_wf_ind. intros pending s -> Hinv.
  rewrite split_loop_unfold. destruct s as [|c s'].
  - assert (SimpleDisplay.unmarked pending) as Hun.
    { intros t Hsuf. destruct t as [|c t]; [reflexivity|].
      specialize (Hinv (c :: t) ltac:(discriminate) Hsuf).
      rewrite app_nil_r in Hinv. exact Hinv. }
    exists [pending]. split; [reflexivity|]. rewrite app_nil_r.
    split; [simpl; apply app_nil_r|].
    unfold SimpleDisplay.parts_html. cbn [map concat].
    rewrite app_nil_r, (to_html_unmarked _ _ _ Hun).
    symmetry. apply unmarked_query_page. exact Hun.
  - rewrite match_here_simple.
    destruct (QueryPage.bare_marker (c :: s')) as [[ds post]|] eqn:Hb.
    + apply bare_marker_inv in Hb as (Heq & Hne & Hds).
      cbn [matched group1 rest]. rewrite Heq in Hinv |- *.
      assert (SimpleDisplay.unmarked pending) as Hun
        by (eapply unmarked_pending; exact Hinv).
      destruct (IH (length post)) with (pending := @nil ascii) (s := post)
        as (parts & Hp & Hc & Hh).
      { apply (f_equal length) in Heq. rewrite length_app in Heq.
        unfold token in Heq. simpl in Heq.
        rewrite ?length_app. unfold token. simpl. lia. }
      { reflexivity. }
      { intros t Ht Hsuf. apply suffix_nil_inv in Hsuf. congruence. }
      exists (pending :: token ds :: parts). split; [|split].
      * unfold token at 1. cbn [map]. rewrite Hp. reflexivity.
      * cbn [concat]. rewrite Hc. reflexivity.
      * unfold SimpleDisplay.parts_html in *. cbn [map concat].
        rewrite Hh, (to_html_unmarked _ _ _ Hun), (to_html_marker _ _ _ Hne Hds).
        rewrite (render_around_marker citations pending ds post Hne Hds).
        rewrite (unmarked_query_page citations pending Hun). reflexivity.
    + destruct (IH (length s')) with (pending := pending ++ [c]) (s := s')
        as (parts & Hp & Hc & Hh).
      { simpl. lia. }
      { reflexivity. }
      { intros t Ht Hsuf. destruct t as [|x t0 _] using rev_ind; [congruence|].
        pose proof (suffix_snoc_inv_1 _ _ _ _ Hsuf) as ->.
        apply suffix_snoc_inv_2 in Hsuf. rewrite <- app_assoc. cbn [app].
        destruct t0 as [|y t0]; [exact Hb|].
        apply Hinv; [discriminate|exact Hsuf]. }
      exists parts. rewrite <- app_assoc in Hc, Hh. cbn [app] in Hc, Hh.
      split; [exact Hp|]. split; [exact Hc|exact Hh].
Qed.

Lemma map_to_html citations parts index :
  concat (map SimpleDisplay.to_html
            (imap (fun i => SimpleDisplay.render_text citations (index + i))
                  parts))
  = SimpleDisplay.parts_html citations parts.
Proof.
  unfold SimpleDisplay.parts_html. f_equal.
  revert index. induction parts as [|part parts IH]; intros index;
    [reflexivity|].
  cbn [imap map]. rewrite to_html_key. f_equal.
  rewrite <- (IH (S index)). f_equal. apply imap_ext. intros i x _. simpl.
  f_equal. lia.
Qed.

Lemma map_children citations parts index :
  map SimpleDisplay.children_of
    (imap (fun i => SimpleDisplay.render_text citations (index + i)) parts)
  = parts.
Proof.
  revert index. induction parts as [|part parts IH]; intros index;
    [reflexivity|].
  cbn [imap map]. rewrite children_simple. f_equal.
  rewrite <- (IH (S index)) at 2. f_equal. apply imap_ext. intros i x _. simpl.
  f_equal. lia.
Qed.

(** *** Properties *)

(** X7: the plain display and the Query page treat every text alike.  The
    plain display never throws; the texts of its nodes, put together, are
    the input; and writing each reference node as the Query page's
    [<span>] for its target gives, for every text and every list of
    citations, the very HTML the Query page computes: the two link the
    same markers to the same chunks and leave the same text around
    them. *)
Theorem plain_display_agrees_with_query_page
  (citations : list Citation) (text : str) :
  exists nodes,
    SimpleDisplay.renderResponseWithCitations citations text = Ok nodes /\
    concat (map SimpleDisplay.children_of nodes) = text /\
    concat (map SimpleDisplay.to_html nodes)
    = QueryPage.renderResponseWithCitations text citations.
Proof.
  assert (exists parts,
            split SimpleDisplay.splitPattern text = map Some parts /\
            concat parts = text /\
            SimpleDisplay.parts_html citations parts
            = QueryPage.renderResponseWithCitations text citations)
    as (parts & Hp & Hc & Hh).
  { destruct text as [|c s].
    - exists [[]]. repeat split; reflexivity.
    - apply (split_loop_html citations [] (c :: s)).
      intros t Ht Hsuf. apply suffix_nil_inv in Hsuf. congruence. }
  exists (imap (fun i => SimpleDisplay.render_text citations (0 + i)) parts).
  unfold SimpleDisplay.renderResponseWithCitations.
  rewrite Hp, map_indexed_simple. split; [reflexivity|].
  rewrite map_children, map_to_html. split; assumption.
Qed.

(** X8: in the plain display a bare marker stands for the citation whose
    number its digits spell, all of them: [[12]] is a reference to the
    twelfth citation when there are twelve, and plain text otherwise. *)
Theorem plain_display_reads_whole_number
  (citations : list Citation) (ds : str) (n : Z) :
  ds <> [] -> all_digits ds -> parseInt ds = Some n ->
  SimpleDisplay.renderResponseWithCitations citations (token ds)
  = Ok [SimpleDisplay.PlainSpan 0 [];
        match SimpleDisplay.nth_citation citations n with
        | Some c => SimpleDisplay.CitationRef 1 (SimpleDisplay.tooltip c)
                      (chunk_id c) (token ds)
        | None => SimpleDisplay.PlainSpan 1 (token ds)
        end;
        SimpleDisplay.PlainSpan 2 []].
Proof.
  intros Hne Hds Hn. unfold SimpleDisplay.renderResponseWithCitations.
  assert (split SimpleDisplay.splitPattern (token ds)
          = map Some [[]; token ds; []]) as ->.
  { unfold split, token. rewrite split_loop_unfold, match_here_simple.
    change (open :: ds ++ [close]) with ("["%char :: ds ++ "]"%char :: []).
    rewrite (bare_marker_digits ds [] Hne Hds).
    cbn [matched group1 rest]. unfold token at 1.
    rewrite split_loop_unfold. reflexivity. }
  rewrite map_indexed_simple. cbn [imap Nat.add compose].
  assert (SimpleDisplay.cited citations [] = None) as Hnil by reflexivity.
  unfold SimpleDisplay.render_text.
  rewrite Hnil, (cited_marker citations ds n Hne Hds Hn).
  destruct (SimpleDisplay.nth_citation citations n); reflexivity.
Qed.

Lemma plain_display_reads_whole_number_witness :
  SimpleDisplay.renderResponseWithCitations [wilson_citation; nda_citation]
    (token (lit "12"))
  = Ok [SimpleDisplay.PlainSpan 0 [];
        match SimpleDisplay.nth_citation [wilson_citation; nda_citation] 12 with
        | Some c => SimpleDisplay.CitationRef 1 (SimpleDisplay.tooltip c)
                      (chunk_id c) (token (lit "12"))
        | None => SimpleDisplay.PlainSpan 1 (token (lit "12"))
        end;
        SimpleDisplay.PlainSpan 2 []].
Proof.
  apply (plain_display_reads_whole_number [wilson_citation; nda_citation]
           (lit "12") 12).
  - discriminate.
  - repeat constructor.
  - reflexivity.
Defined.

(** X9: in the display with the enhanced pattern a marker of several digits
    stands for the citation of its last digit alone: the first group
    [[^\]]*] of the pattern takes every digit but the last. *)
Theorem enhanced_display_reads_last_digit
  (citations : list Citation) (ds : str) (d : ascii) :
  all_digits ds -> is_digit d = true ->
  ResponseDisplay.renderResponseWithCitations citations (token (ds ++ [d]))
  = Ok [ResponseDisplay.PlainSpan 0 [];
        match ResponseDisplay.nth_citation citations (digit_value d) with
        | Some c => ResponseDisplay.CitationRef 1 (chunk_id c)
                      (token (ds ++ [d]))
        | None => ResponseDisplay.PlainSpan 1 (token (ds ++ [d]))
        end;
        ResponseDisplay.PlainSpan 2 []].
Proof.
  intros Hds Hd. apply (render_token citations ds d []).
  - eapply Forall_impl; [exact Hds|]. intros c Hc.
    apply digit_not_close in Hc. exact Hc.
  - exact Hd.
  - constructor.
  - constructor.
Qed.

Lemma enhanced_display_reads_last_digit_witness :
  ResponseDisplay.renderResponseWithCitations [wilson_citation; nda_citation]
    (token (lit "1" ++ ["2"%char]))
  = Ok [ResponseDisplay.PlainSpan 0 [];
        match ResponseDisplay.nth_citation [wilson_citation; nda_citation]
                (digit_value "2") with
        | Some c => ResponseDisplay.CitationRef 1 (chunk_id c)
                      (token (lit "1" ++ ["2"%char]))
        | None => ResponseDisplay.PlainSpan 1 (token (lit "1" ++ ["2"%char]))
        end;
        ResponseDisplay.PlainSpan 2 []].
Proof.
  apply (enhanced_display_reads_last_digit [wilson_citation; nda_citation]
           (lit "1") "2"%char).
  - repeat constructor.
  - reflexivity.
Defined.

(** X10: the Query page escapes nothing: a text without an opening bracket
    comes back as it is, whatever markup it holds, and is what the page
    sets as inner HTML. *)
Theorem query_page_passes_text_through
  (citations : list Citation) (text : str) :
  no_open text ->
  QueryPage.renderResponseWithCitations text citations = text.
Proof. intros H. apply unmarked_query_page, no_open_unmarked, H. Qed.

Lemma query_page_passes_text_through_witness :
  QueryPage.renderResponseWithCitations
    (lit "<img src=x onerror=alert(1)>") [wilson_citation]
  = lit "<img src=x onerror=alert(1)>".
Proof.
  apply (query_page_passes_text_through [wilson_citation]
           (lit "<img src=x onerror=alert(1)>")).
  repeat constructor.
Defined.

End RendererFacts.

(** ** The Query page's state *)

Module QueryPageStateFacts.
Import Regex RegexFacts Types JS QueryPageState.

(** *** [trim] *)

Lemma drop_while_all {A} (p : A -> bool) (l : list A) :
  Forall (fun a => p a = true) l -> drop_while p l = [].
Proof.
  induction 1 as [|a l Ha _ IH]; [reflexivity|]. simpl. rewrite Ha. exact IH.
Qed.

(** What [trim] removes is white space, on both sides. *)
Lemma trim_decompose s :
  exists l r,
    s = l ++ trim s ++ r /\
    Forall (fun c => is_space c = true) l /\
    Forall (fun c => is_space c = true) r.
Proof.
  unfold trim. set (a := drop_while is_space s).
  exists (take_while is_space s),
         (rev (take_while is_space (rev a))).
  split; [|split].
  - rewrite <- rev_app_distr, take_drop_while, rev_involutive.
    symmetry. apply take_drop_while.
  - apply take_while_all.
  - apply List.Forall_rev, take_while_all.
Qed.

(** What [trim] leaves neither begins nor ends with white space. *)
Lemma trim_ends s :
  match trim s with
  | a :: _ => is_space a = false
  | [] => True
  end /\
  match rev (trim s) with
  | z :: _ => is_space z = false
  | [] => True
  end.
Proof.
  unfold trim. set (a := drop_while is_space s).
  set (b := drop_while is_space (rev a)). split.
  - destruct (rev b) as [|x u] eqn:Hb; [exact I|].
    pose proof (take_drop_while is_space (rev a)) as H. fold b in H.
    apply (f_equal (@rev ascii)) in H.
    rewrite rev_app_distr, rev_involutive, Hb in H. simpl in H.
    apply (drop_while_head is_space s x
             (u ++ rev (take_while is_space (rev a)))).
    fold a. symmetry. exact H.
  - rewrite rev_involutive. destruct b as [|z u] eqn:Hb; [exact I|].
    eapply drop_while_head. exact Hb.
Qed.

Lemma trim_empty s :
  trim s = [] <-> Forall (fun c => is_space c = true) s.
Proof.
  split.
  - intros H. destruct (trim_decompose s) as (l & r & Hs & Hl & Hr).
    rewrite H in Hs. rewrite Hs. apply Forall_app. split; assumption.
  - intros H. unfold trim. rewrite (drop_while_all _ _ H). reflexivity.
Qed.

Lemma last_of_rev {A} (l : list A) z u :
  rev l = z :: u -> l = rev u ++ [z].
Proof.
  intros H. apply (f_equal (@rev A)) in H. rewrite rev_involutive in H.
  exact H.
Qed.

(** *** Properties *)

(** X11: [handleSubmit] sends nothing, and changes nothing, when the query is
    empty or all white space.  Otherwise it sends one request: the query
    without the white space around it, which begins and ends with a
    character that is not white space.  At the end [loading] is off; a
    response replaces the one shown and clears the error, a failure sets
    the error and leaves the response shown before in place. *)
Theorem handleSubmit_sends_trimmed_query
  (queryDocuments : str -> outcome Api.QueryResponse) (st : State) :
  (Forall (fun c => is_space c = true) (query st) ->
   handleSubmit queryDocuments st = ([], st)) /\
  (~ Forall (fun c => is_space c = true) (query st) ->
   exists l q r st',
     handleSubmit queryDocuments st = ([q], st') /\
     query st = l ++ q ++ r /\
     Forall (fun c => is_space c = true) l /\
     Forall (fun c => is_space c = true) r /\
     (exists a q', q = a :: q' /\ is_space a = false) /\
     (exists z q', q = q' ++ [z] /\ is_space z = false) /\
     query st' = query st /\ loading st' = false /\
     match queryDocuments q with
     | Returns resp => answer st' = Some resp /\ error st' = None
     | Throws =>
         answer st' = answer st /\
         error st' = Some "Failed to process your query. Please try again."
     end).
Proof.
  split.
  - intros H. unfold handleSubmit. rewrite (proj2 (trim_empty _) H).
    reflexivity.
  - intros H. destruct (trim_decompose (query st)) as (l & r & Hs & Hl & Hr).
    destruct (trim_ends (query st)) as [Hhead Hlast].
    destruct (trim (query st)) as [|a q'] eqn:Ht.
    { exfalso. apply H, trim_empty. exact Ht. }
    exists l, (a :: q'), r.
    unfold handleSubmit. rewrite Ht. cbn [truthy_str negb].
    destruct (rev (a :: q')) as [|z u] eqn:Hrev.
    { apply (f_equal (@length ascii)) in Hrev.
      rewrite length_rev in Hrev. discriminate. }
    apply last_of_rev in Hrev.
    destruct (queryDocuments (a :: q')) as [resp|]; eexists;
      (split; [reflexivity|]); repeat split; eauto.
Qed.

(** X12: the colour of the confidence chip and the percentage in its label
    never disagree by more than the rounding: a green chip shows at
    least 80, an amber one between 50 and 80, a red one at most 50; a
    higher score never gives a worse colour.  The rounding is visible: a
    score of 0.795 is shown as 80 in amber. *)
Theorem confidence_color_matches_percent (score : Q) :
  (getConfidenceColor score = success -> 80 <= confidence_percent score) /\
  (getConfidenceColor score = warning ->
   50 <= confidence_percent score <= 80) /\
  (getConfidenceColor score = error_color -> confidence_percent score <= 50) /\
  (forall score', (score <= score')%Q ->
     (getConfidenceColor score = success ->
      getConfidenceColor score' = success) /\
     (getConfidenceColor score' = error_color ->
      getConfidenceColor score = error_color)) /\
  confidence_percent (795 # 1000) = 80 /\
  getConfidenceColor (795 # 1000) = warning.
Proof.
  assert (forall n x, (inject_Z n <= x + (1 # 2))%Q -> n <= Math_round x) as Hlow.
  { intros n x H. unfold Math_round. rewrite <- (Qfloor_Z n).
    apply Qfloor_resp_le. exact H. }
  assert (forall n x, (x + (1 # 2) < inject_Z (n + 1))%Q -> Math_round x <= n)
    as Hhigh.
  { intros n x H. unfold Math_round.
    pose proof (Qfloor_le (x + (1 # 2))) as Hf.
    assert (inject_Z (Qfloor (x + (1 # 2))) < inject_Z (n + 1))%Q as Hlt
      by (eapply Qle_lt_trans; eassumption).
    rewrite <- Zlt_Qlt in Hlt. lia. }
  unfold getConfidenceColor, confidence_percent.
  repeat split.
  - destruct (Qle_bool (8 # 10) score) eqn:H8.
    + intros _. apply Qle_bool_iff in H8. apply Hlow.
      change (inject_Z 80) with (80 # 1)%Q. lra.
    + destruct (Qle_bool (5 # 10) score); discriminate.
  - destruct (Qle_bool (8 # 10) score) eqn:H8; [discriminate|].
    destruct (Qle_bool (5 # 10) score) eqn:H5; [|discriminate].
    apply Qle_bool_iff in H5. apply Hlow.
    change (inject_Z 50) with (50 # 1)%Q. lra.
  - destruct (Qle_bool (8 # 10) score) eqn:H8; [discriminate|].
    destruct (Qle_bool (5 # 10) score) eqn:H5; [|discriminate].
    assert (~ (8 # 10 <= score)%Q) as Hn
      by (rewrite <- Qle_bool_iff; congruence).
    apply Hhigh. change (inject_Z (80 + 1)) with (81 # 1)%Q. lra.
  - destruct (Qle_bool (8 # 10) score) eqn:H8; [discriminate|].
    destruct (Qle_bool (5 # 10) score) eqn:H5; [discriminate|].
    assert (~ (5 # 10 <= score)%Q) as Hn
      by (rewrite <- Qle_bool_iff; congruence).
    intros _. apply Hhigh. change (inject_Z (50 + 1)) with (51 # 1)%Q. lra.
  - destruct (Qle_bool (8 # 10) score) eqn:H8.
    + intros _. apply Qle_bool_iff in H8.
      assert (Qle_bool (8 # 10) score' = true) as ->; [|reflexivity].
      apply Qle_bool_iff. lra.
    + destruct (Qle_bool (5 # 10) score); discriminate.
  - destruct (Qle_bool (8 # 10) score') eqn:H8; [discriminate|].
    destruct (Qle_bool (5 # 10) score') eqn:H5; [discriminate|].
    intros _.
    assert (~ (5 # 10 <= score')%Q) as Hn
      by (rewrite <- Qle_bool_iff; congruence).
    assert (Qle_bool (8 # 10) score = false) as ->.
    { destruct (Qle_bool (8 # 10) score) eqn:Hb; [|reflexivity].
      apply Qle_bool_iff in Hb. exfalso. apply Hn. lra. }
    assert (Qle_bool (5 # 10) score = false) as ->; [|reflexivity].
    destruct (Qle_bool (5 # 10) score) eqn:Hb; [|reflexivity].
    apply Qle_bool_iff in Hb. exfalso. apply Hn. lra.
Qed.

End QueryPageStateFacts.

(** ** The upload form *)

Module FileUploadFacts.
Import JS FileUpload.

Lemma truthy_iff s : truthy s = true <-> s <> "".
Proof. unfold truthy. apply bool_decide_eq_true. Qed.

Lemma truthy_false s : truthy s = false -> s = "".
Proof.
  unfold truthy. intros H. apply bool_decide_eq_false in H.
  destruct (decide (s = "")) as [->|Hne]; [reflexivity|]. exfalso. exact (H Hne).
Qed.

Lemma elem_of_append_if key value formData (k : string) (e : entry) :
  (k, e) ∈ append_if key value formData <->
  (k, e) ∈ formData \/ (k = key /\ e = Text value /\ value <> "").
Proof.
  unfold append_if. destruct (truthy value) eqn:Hv.
  - apply truthy_iff in Hv. rewrite elem_of_app, list_elem_of_singleton.
    split; intros [H|H]; auto.
    + injection H as -> ->. auto.
    + destruct H as (-> & -> & _). auto.
  - apply truthy_false in Hv. subst value. split; [auto|].
    intros [H|(_ & _ & H)]; [exact H|congruence].
Qed.

Lemma keys_append_if key value formData :
  map fst (append_if key value formData)
  = map fst formData ++ (if truthy value then [key] else []).
Proof.
  unfold append_if. destruct (truthy value).
  - rewrite map_app. reflexivity.
  - rewrite app_nil_r. reflexivity.
Qed.

Lemma head_append_if key value formData x :
  formData !! 0%nat = Some x -> append_if key value formData !! 0%nat = Some x.
Proof.
  unfold append_if. intros H. destruct (truthy value); [|exact H].
  apply lookup_app_l_Some. exact H.
Qed.

Lemma build_form_entries (f : File) (st : State) :
  build_form f st !! 0%nat = Some ("file", Blob f) /\
  (forall k e, (k, e) ∈ build_form f st <->
     (k = "file" /\ e = Blob f) \/
     (k = "title" /\ e = Text (title st) /\ title st <> "") \/
     (k = "document_type" /\ e = Text (documentType st) /\
      documentType st <> "") \/
     (k = "jurisdiction" /\ e = Text (jurisdiction st) /\
      jurisdiction st <> "") \/
     (k = "date" /\ e = Text (date st) /\ date st <> "")).
Proof.
  split.
  - unfold build_form. repeat apply head_append_if. reflexivity.
  - intros k e. unfold build_form.
    rewrite !elem_of_append_if, list_elem_of_singleton.
    split.
    + intros [[[[H|H]|H]|H]|H]; [injection H as -> ->|..]; tauto.
    + intros [[-> ->]|[H|[H|[H|H]]]]; tauto.
Qed.

Lemma handleUpload_requests
  (uploadDocument : list (string * entry) -> outcome Api.DocumentResponse)
  (onUploadSuccess : outcome unit) (f : File) (st : State) :
  file st = Some f ->
  (handleUpload uploadDocument onUploadSuccess st).1 = [build_form f st].
Proof.
  intros Hf. unfold handleUpload. rewrite Hf. cbv zeta.
  destruct (uploadDocument (build_form f st)); [|reflexivity].
  destruct onUploadSuccess; reflexivity.
Qed.

(** *** Properties *)

(** X13: the form data posted with a file: the file comes first; a field of
    the form is sent exactly when it is not empty, under its own key and
    with its value, so that no empty text is ever sent; and no key occurs
    twice. *)
Theorem upload_form_sends_no_blank_field (f : File) (st : State) :
  build_form f st !! 0%nat = Some ("file", Blob f) /\
  (forall k e, (k, e) ∈ build_form f st <->
     (k = "file" /\ e = Blob f) \/
     (k = "title" /\ e = Text (title st) /\ title st <> "") \/
     (k = "document_type" /\ e = Text (documentType st) /\
      documentType st <> "") \/
     (k = "jurisdiction" /\ e = Text (jurisdiction st) /\
      jurisdiction st <> "") \/
     (k = "date" /\ e = Text (date st) /\ date st <> "")) /\
  (forall k v, (k, Text v) ∈ build_form f st -> v <> "") /\
  NoDup (map fst (build_form f st)).
Proof.
  destruct (build_form_entries f st) as [Hhead Hin].
  split; [exact Hhead|split; [exact Hin|split]].
  - intros k v H. apply Hin in H.
    destruct H as [[_ H]|[H|[H|[H|H]]]]; [discriminate|..];
      destruct H as (_ & [= ->] & H); exact H.
  - unfold build_form. rewrite !keys_append_if. cbn [map fst].
    destruct (truthy (title st)), (truthy (documentType st)),
      (truthy (jurisdiction st)), (truthy (date st)); cbn [app];
      apply (bool_decide_unpack _); vm_compute; exact I.
Qed.

(** X14: choosing a second file does not change the title that the first one
    gave: with an empty title field, after choosing [a] and then [b] the
    form holds the file [b] under the name of [a], and that is what an
    upload posts. *)
Theorem second_file_keeps_first_title
  (uploadDocument : list (string * entry) -> outcome Api.DocumentResponse)
  (onUploadSuccess : outcome unit)
  (a b : File) (more_a more_b : list File) (st : State) :
  title st = "" -> name a <> "" ->
  let st2 :=
    handleFileChange (Some (b :: more_b))
      (handleFileChange (Some (a :: more_a)) st) in
  file st2 = Some b /\ title st2 = name a /\
  exists form,
    (handleUpload uploadDocument onUploadSuccess st2).1 = [form] /\
    form !! 0%nat = Some ("file", Blob b) /\
    ("title", Text (name a)) ∈ form.
Proof.
  intros Ht Ha. cbv zeta.
  assert (handleFileChange (Some (b :: more_b))
            (handleFileChange (Some (a :: more_a)) st)
          = setFile (Some b) (setTitle (name a) (setFile (Some a) st))) as ->.
  { unfold handleFileChange. rewrite Ht.
    change (truthy "") with false. cbn [negb].
    cbn [setTitle setFile title].
    rewrite (proj2 (truthy_iff (name a)) Ha). reflexivity. }
  split; [reflexivity|]. split; [reflexivity|].
  set (st2 := setFile (Some b) (setTitle (name a) (setFile (Some a) st))).
  exists (build_form b st2).
  destruct (build_form_entries b st2) as [Hhead Hin].
  split; [|split; [exact Hhead|]].
  - apply handleUpload_requests. reflexivity.
  - apply Hin. right. left. auto.
Qed.

Lemma second_file_keeps_first_title_witness :
  let st2 :=
    handleFileChange (Some [nda_pdf])
      (handleFileChange (Some [contract_pdf]) empty_form) in
  file st2 = Some nda_pdf /\ title st2 = name contract_pdf /\
  exists form,
    (handleUpload (fun _ => Throws) (Returns tt) st2).1 = [form] /\
    form !! 0%nat = Some ("file", Blob nda_pdf) /\
    ("title", Text (name contract_pdf)) ∈ form.
Proof.
  apply (second_file_keeps_first_title (fun _ => Throws) (Returns tt)
           contract_pdf nda_pdf [] [] empty_form).
  - reflexivity.
  - discriminate.
Defined.

(** X15: an upload that fails leaves the form as it was, so that another
    click posts the same form data again.  The same holds when the
    upload went through and the parent's callback threw: the failure
    message is shown beside the success message, and another click
    uploads the document a second time. *)
Theorem failed_upload_is_retried_as_is
  (uploadDocument : list (string * entry) -> outcome Api.DocumentResponse)
  (onUploadSuccess : outcome unit) (f : File) (st : State) :
  file st = Some f ->
  uploadDocument (build_form f st) = Throws \/ onUploadSuccess = Throws ->
  exists st',
    handleUpload uploadDocument onUploadSuccess st = ([build_form f st], st') /\
    uploading st' = false /\
    error st' = Some "Failed to upload document. Please try again." /\
    (success st' = None <-> uploadDocument (build_form f st) = Throws) /\
    forall uploadDocument' onUploadSuccess',
      (handleUpload uploadDocument' onUploadSuccess' st').1
      = [build_form f st].
Proof.
  intros Hf Hfail. unfold handleUpload at 1. rewrite Hf.
  assert (forall st', file st' = Some f -> build_form f st' = build_form f st ->
            forall u c, (handleUpload u c st').1 = [build_form f st]) as Hretry.
  { intros st' Hf' Hb u c. rewrite <- Hb. apply handleUpload_requests, Hf'. }
  destruct (uploadDocument (build_form f st)) as [r|] eqn:Hu.
  - destruct Hfail as [Hfail|Hfail]; [discriminate|]. rewrite Hfail.
    eexists. split; [reflexivity|]. repeat split.
    + discriminate.
    + discriminate.
    + apply Hretry; [exact Hf|reflexivity].
  - eexists. split; [reflexivity|]. repeat split.
    apply Hretry; [exact Hf|reflexivity].
Qed.

Lemma failed_upload_is_retried_as_is_witness :
  exists st',
    handleUpload (fun _ => Returns {| Api.id := "doc-1"; Api.message := "ok" |})
      Throws filled_form
    = ([build_form contract_pdf filled_form], st') /\
    uploading st' = false /\
    error st' = Some "Failed to upload document. Please try again." /\
    (success st' = None <->
     (fun _ : list (string * entry) =>
        Returns {| Api.id := "doc-1"; Api.message := "ok" |})
       (build_form contract_pdf filled_form) = Throws) /\
    forall uploadDocument' onUploadSuccess',
      (handleUpload uploadDocument' onUploadSuccess' st').1
      = [build_form contract_pdf filled_form].
Proof.
  apply (failed_upload_is_retried_as_is
           (fun _ => Returns {| Api.id := "doc-1"; Api.message := "ok" |})
           Throws contract_pdf filled_form).
  - reflexivity.
  - right. reflexivity.
Defined.

End FileUploadFacts.

(** ** The documents page *)

Module DocumentsPageFacts.
Import JS Documents DocumentsPage.

Lemma elem_of_without target docs (doc : DocumentMetadata) :
  doc ∈ without target docs <-> doc ∈ docs /\ id doc <> target.
Proof.
  unfold without. rewrite !list_elem_of_In, List.filter_In.
  rewrite negb_true_iff, String.eqb_neq. reflexivity.
Qed.

(** *** Properties *)

(** X16: deleting after the confirmation: one request goes out, for the
    document that was confirmed, and the dialog closes whatever the
    answer.  When the request succeeds the list loses the documents of
    that id and no other, and keeps the rest in order; when it fails the
    list is as it was and the error is set.  After a cancel, or for an
    empty id, [handleDelete] sends nothing. *)
Theorem confirmed_delete_removes_one_document
  (deleteDocument : string -> outcome Api.DocumentResponse)
  (target : string) (st : State) :
  target <> "" ->
  (exists st',
     handleDelete deleteDocument (handleDeleteConfirm target st)
     = ([target], st') /\
     deleteConfirmOpen st' = false /\ documentToDelete st' = None /\
     match deleteDocument target with
     | Returns _ =>
         (forall doc, doc ∈ documents st' <->
                      doc ∈ documents st /\ id doc <> target) /\
         documents st' `sublist_of` documents st /\
         error st' = error st
     | Throws =>
         documents st' = documents st /\
         error st' = Some "Failed to delete document. Please try again."
     end) /\
  (handleDelete deleteDocument (handleDeleteCancel (handleDeleteConfirm target st))).1
  = [] /\
  handleDelete deleteDocument (handleDeleteConfirm "" st)
  = ([], handleDeleteConfirm "" st).
Proof.
  intros Hne. split; [|split; reflexivity].
  unfold handleDelete, handleDeleteConfirm.
  cbn [documentToDelete truthy_opt documents error]. unfold truthy.
  rewrite (proj2 (bool_decide_eq_true _) Hne). cbn [negb].
  destruct (deleteDocument target) as [r|]; eexists;
    (split; [reflexivity|]);
    cbn [deleteConfirmOpen documentToDelete documents error];
    (split; [reflexivity|]); (split; [reflexivity|]).
  - split; [intros doc; apply elem_of_without|]. split; [|reflexivity].
    unfold without. induction (documents st) as [|doc docs IH]; simpl.
    + constructor.
    + destruct (negb (String.eqb (id doc) target)); constructor; exact IH.
  - split; reflexivity.
Qed.

Lemma confirmed_delete_removes_one_document_witness :
  (exists st',
     handleDelete (fun _ => Returns {| Api.id := "nda"; Api.message := "deleted" |})
       (handleDeleteConfirm "nda" two_documents)
     = (["nda"], st') /\
     deleteConfirmOpen st' = false /\ documentToDelete st' = None /\
     (forall doc, doc ∈ documents st' <->
                  doc ∈ documents two_documents /\ id doc <> "nda") /\
     documents st' `sublist_of` documents two_documents /\
     error st' = error two_documents) /\
  (handleDelete (fun _ => Returns {| Api.id := "nda"; Api.message := "deleted" |})
     (handleDeleteCancel (handleDeleteConfirm "nda" two_documents))).1
  = [] /\
  handleDelete (fun _ => Returns {| Api.id := "nda"; Api.message := "deleted" |})
    (handleDeleteConfirm "" two_documents)
  = ([], handleDeleteConfirm "" two_documents).
Proof.
  apply (confirmed_delete_removes_one_document
           (fun _ => Returns {| Api.id := "nda"; Api.message := "deleted" |})
           "nda" two_documents).
  discriminate.
Defined.

End DocumentsPageFacts.

(** ** The document viewer *)

Module DocumentViewerFacts.
Import JS Documents DocumentViewer.

Lemma truthy_ne s : s <> "" -> truthy s = true.
Proof. intros H. unfold truthy. apply bool_decide_eq_true. exact H. Qed.

Lemma download_name_nonempty d : download_name d <> "".
Proof.
  unfold download_name. destruct (title d) as [t|]; simpl.
  - destruct (truthy t) eqn:Ht.
    + apply bool_decide_eq_true in Ht. exact Ht.
    + destruct (truthy (filename d)) eqn:Hf; [|discriminate].
      apply bool_decide_eq_true in Hf. exact Hf.
  - destruct (truthy (filename d)) eqn:Hf; [|discriminate].
    apply bool_decide_eq_true in Hf. exact Hf.
Qed.

(** *** Properties *)

(** X17: opening the viewer on a document.  When the metadata cannot be
    loaded, the preview is never asked for, the error is set, and the
    document and preview in the state stay what they were.  When the
    metadata is loaded, a preview that cannot be loaded is not an error:
    the fixed text takes its place and no error is set.  Either way
    [loading] is off at the end. *)
Theorem viewer_fetch_outcomes
  (getDocument : string -> outcome DocumentMetadata)
  (getDocumentPreview : string -> outcome string)
  (documentId : string) (st : State) :
  documentId <> "" ->
  exists requests st',
    effect getDocument getDocumentPreview true (Some documentId) st
    = (requests, st') /\
    loading st' = false /\ downloading st' = downloading st /\
    match getDocument documentId with
    | Throws =>
        requests = [GetDocument documentId] /\
        error st' = Some "Failed to load document information." /\
        document st' = document st /\ preview st' = preview st /\
        previewLoading st' = previewLoading st
    | Returns d =>
        requests = [GetDocument documentId; GetDocumentPreview documentId] /\
        document st' = Some d /\ error st' = None /\
        previewLoading st' = false /\
        preview st' =
          match getDocumentPreview documentId with
          | Returns p => p
          | Throws => "Preview not available for this document type."
          end
    end.
Proof.
  intros Hne. unfold effect, fetchDocument. cbn [truthy_opt].
  rewrite (truthy_ne _ Hne). cbn [andb negb].
  destruct (getDocument documentId) as [d|].
  - destruct (getDocumentPreview documentId) as [p|];
      do 2 eexists; (split; [reflexivity|]); repeat split; reflexivity.
  - do 2 eexists. split; [reflexivity|]. repeat split; reflexivity.
Qed.

Lemma viewer_fetch_outcomes_witness :
  exists requests st',
    effect only_wilson (fun _ => Throws) true (Some "wilson") closed_viewer
    = (requests, st') /\
    loading st' = false /\ downloading st' = downloading closed_viewer /\
    requests = [GetDocument "wilson"; GetDocumentPreview "wilson"] /\
    document st' = Some DocumentsPage.wilson_doc /\ error st' = None /\
    previewLoading st' = false /\
    preview st' = "Preview not available for this document type.".
Proof.
  apply (viewer_fetch_outcomes only_wilson (fun _ => Throws) "wilson"
           closed_viewer).
  discriminate.
Defined.

(** X18: the viewer can download one document under the name of another.
    When it is switched from a document [a], whose metadata was loaded,
    to a document [b], whose metadata cannot be loaded, the state still
    holds the metadata of [a]; a download then asks for [b], under the
    name taken from [a].  That name is never empty. *)
Theorem download_after_failed_switch
  (getDocument : string -> outcome DocumentMetadata)
  (getDocumentPreview : string -> outcome string)
  (downloadDocument : string -> string -> outcome unit)
  (a b : string) (doc_a : DocumentMetadata) (st : State) :
  a <> "" -> b <> "" ->
  getDocument a = Returns doc_a -> getDocument b = Throws ->
  let st1 := (effect getDocument getDocumentPreview true (Some a) st).2 in
  let st2 := (effect getDocument getDocumentPreview true (Some b) st1).2 in
  (effect getDocument getDocumentPreview true (Some b) st1).1
  = [GetDocument b] /\
  document st2 = Some doc_a /\
  (handleDownload downloadDocument (Some b) st2).1
  = [DownloadDocument b (download_name doc_a)] /\
  download_name doc_a <> "".
Proof.
  intros Ha Hb Hda Hdb. cbv zeta. unfold effect, fetchDocument.
  cbn [truthy_opt]. rewrite (truthy_ne _ Ha), (truthy_ne _ Hb).
  cbn [andb negb]. rewrite Hda, Hdb.
  split; [reflexivity|].
  assert (forall st0, document st0 = Some doc_a ->
            (handleDownload downloadDocument (Some b) st0).1
            = [DownloadDocument b (download_name doc_a)]) as Hdown.
  { intros st0 Hdoc. unfold handleDownload. rewrite Hdoc, (truthy_ne _ Hb).
    cbn [negb]. destruct (downloadDocument b (download_name doc_a)); reflexivity. }
  split; [|split; [|apply download_name_nonempty]].
  - destruct (getDocumentPreview a); reflexivity.
  - apply Hdown. destruct (getDocumentPreview a); reflexivity.
Qed.

Lemma download_after_failed_switch_witness :
  let st1 :=
    (effect only_wilson (fun _ => Returns "WILSON SERVICES AGREEMENT") true
       (Some "wilson") closed_viewer).2 in
  let st2 :=
    (effect only_wilson (fun _ => Returns "WILSON SERVICES AGREEMENT") true
       (Some "nda") st1).2 in
  (effect only_wilson (fun _ => Returns "WILSON SERVICES AGREEMENT") true
     (Some "nda") st1).1
  = [GetDocument "nda"] /\
  document st2 = Some DocumentsPage.wilson_doc /\
  (handleDownload (fun _ _ => Returns tt) (Some "nda") st2).1
  = [DownloadDocument "nda" (download_name DocumentsPage.wilson_doc)] /\
  download_name DocumentsPage.wilson_doc <> "".
Proof.
  apply (download_after_failed_switch only_wilson
           (fun _ => Returns "WILSON SERVICES AGREEMENT")
           (fun _ _ => Returns tt) "wilson" "nda" DocumentsPage.wilson_doc
           closed_viewer).
  - discriminate.
  - discriminate.
  - reflexivity.
  - reflexivity.
Defined.

End DocumentViewerFacts.

(** ** Adding chunks to the collection *)

Module VectorStoreFacts.
Import Py VectorStore.

Lemma column_ok key chunks :
  Forall (fun chunk : gmap string value => is_Some (chunk !! key)) chunks ->
  exists vs,
    column key chunks = Ok vs /\
    length vs = length chunks /\
    forall i chunk, chunks !! i = Some chunk -> vs !! i = chunk !! key.
Proof.
  induction 1 as [|chunk chunks [v Hv] _ (vs & Hc & Hl & Hi)].
  - exists []. repeat split. intros i chunk H. discriminate.
  - exists (v :: vs). cbn [column]. unfold getitem. rewrite Hv, Hc.
    split; [reflexivity|]. split; [simpl; congruence|].
    intros [|i] c; simpl.
    + intros [= <-]. symmetry. exact Hv.
    + apply Hi.
Qed.

Lemma column_raise key chunks :
  ~ Forall (fun chunk : gmap string value => is_Some (chunk !! key)) chunks ->
  column key chunks = Raise KeyError.
Proof.
  induction chunks as [|chunk chunks IH]; intros H.
  - exfalso. apply H. constructor.
  - cbn [column]. unfold getitem.
    destruct (chunk !! key) as [v|] eqn:Hv; [|reflexivity].
    cbn [mbind result_bind]. rewrite IH; [reflexivity|].
    intros Hall. apply H. constructor; [eauto|exact Hall].
Qed.

(** *** Properties *)

(** X19: [add_documents] hands [collection.add] four lists as long as the
    list of chunks, whose entries at each position come from the chunk
    at that position; and when some chunk lacks ["chunk_id"],
    ["embedding"] or ["text"] it raises [KeyError] whatever
    [collection.add] would do, so that nothing is added: no part of a
    batch is stored when one of its chunks is malformed. *)
Theorem add_documents_aligned_or_nothing
  {Collection : Type}
  (get_collection create_collection : result Collection)
  (collection_add : Collection -> AddArgs -> result unit)
  (collection : Collection) (chunks : list (gmap string value)) :
  initialize_collection get_collection create_collection = Ok collection ->
  let complete (chunk : gmap string value) :=
    is_Some (chunk !! "chunk_id") /\ is_Some (chunk !! "embedding") /\
    is_Some (chunk !! "text") in
  (Forall complete chunks ->
   exists args,
     add_documents get_collection create_collection collection_add chunks
     = collection_add collection args /\
     length (ids args) = length chunks /\
     length (embeddings args) = length chunks /\
     length (documents args) = length chunks /\
     length (metadatas args) = length chunks /\
     forall i chunk, chunks !! i = Some chunk ->
       ids args !! i = chunk !! "chunk_id" /\
       embeddings args !! i = chunk !! "embedding" /\
       documents args !! i = chunk !! "text") /\
  (~ Forall complete chunks ->
   add_documents get_collection create_collection collection_add chunks
   = Raise KeyError).
Proof.
  intros Hinit. cbv zeta. unfold add_documents. rewrite Hinit.
  cbn [mbind result_bind]. split.
  - intros Hall.
    destruct (column_ok "chunk_id" chunks) as (is_ & H1 & L1 & I1).
    { eapply Forall_impl; [exact Hall|]. intros c (? & ? & ?); assumption. }
    destruct (column_ok "embedding" chunks) as (es & H2 & L2 & I2).
    { eapply Forall_impl; [exact Hall|]. intros c (? & ? & ?); assumption. }
    destruct (column_ok "text" chunks) as (ts & H3 & L3 & I3).
    { eapply Forall_impl; [exact Hall|]. intros c (? & ? & ?); assumption. }
    rewrite H1, H2, H3. cbn [mbind result_bind].
    eexists. split; [reflexivity|].
    cbn [ids embeddings documents metadatas]. rewrite length_map.
    repeat split; auto.
  - intros Hnot.
    destruct (decide (Forall (fun chunk : gmap string value =>
                                is_Some (chunk !! "chunk_id")) chunks))
      as [A1|A1]; [|rewrite (column_raise _ _ A1); reflexivity].
    destruct (column_ok _ _ A1) as (is_ & -> & _).
    cbn [mbind result_bind].
    destruct (decide (Forall (fun chunk : gmap string value =>
                                is_Some (chunk !! "embedding")) chunks))
      as [A2|A2]; [|rewrite (column_raise _ _ A2); reflexivity].
    destruct (column_ok _ _ A2) as (es & -> & _).
    cbn [mbind result_bind].
    destruct (decide (Forall (fun chunk : gmap string value =>
                                is_Some (chunk !! "text")) chunks))
      as [A3|A3]; [|rewrite (column_raise _ _ A3); reflexivity].
    exfalso. apply Hnot. rewrite Forall_forall in *. auto.
Qed.

Lemma add_documents_aligned_or_nothing_witness :
  (exists args,
     add_documents (Raise KeyError) (Ok tt) (fun _ _ => Ok tt)
       [sample_chunk "wilson_chunk_0" "The Supplier shall deliver"]
     = Ok tt /\
     length (ids args) = 1%nat /\
     ids args !! 0%nat = Some (Str "wilson_chunk_0")) /\
  add_documents (Raise KeyError) (Ok tt) (fun _ _ => Ok tt)
    [sample_chunk "wilson_chunk_0" "The Supplier shall deliver";
     <["chunk_id" := Str "wilson_chunk_1"]> ∅]
  = Raise KeyError.
Proof.
  split.
  - destruct (proj1 (add_documents_aligned_or_nothing (Raise KeyError) (Ok tt)
                       (fun _ _ => Ok tt) tt
                       [sample_chunk "wilson_chunk_0" "The Supplier shall deliver"]
                       eq_refl))
      as (args & Hadd & Hl & _ & _ & _ & Hi).
    { repeat constructor; vm_compute; eauto. }
    exists args. split; [exact Hadd|]. split; [exact Hl|].
    destruct (Hi 0%nat _ eq_refl) as (-> & _). reflexivity.
  - apply (add_documents_aligned_or_nothing (Raise KeyError) (Ok tt)
             (fun _ _ => Ok tt) tt _ eq_refl).
    intros H. inversion H as [|? ? _ H2]. inversion H2 as [|? ? (_ & [v Hv] & _) _].
    vm_compute in Hv. discriminate.
Defined.

End VectorStoreFacts.
